(** * swaylock background image: mode parser, image loader, fit-mode renderer

    A shallow embedding of [parse_background_mode], [stdio_read_func],
    [load_background_image] and [render_background_image]
    (background-image.c), with the properties of the specification stated
    and proved over it, followed by further properties read off the code.

    Conventions of the embedding.
    - C [int] values are [Z]; the conversion [(double)i] of a 32-bit [int]
      is exact.
    - C [double] arithmetic is an interface, [DoubleArith], with three
      instances.  [xdouble_arith] is exact: rationals extended with the
      IEEE special values, without rounding (a division of finite operands
      leaves the finite values exactly when the divisor is zero).
      [rounded_arith] has the same carrier and rounds the result of every
      operation to binary64: to nearest with ties to even, 53 bits of
      mantissa, subnormal numbers and overflow included; the sign of zero
      is not kept, and no expression of the program tells the two zeros
      apart.  [binary64_arith] is the binary64 arithmetic of the kernel.
      What pins a computed scale, offset or level is proved over the
      rounded arithmetic, with the rounding error in the statement; what
      rests on classification (zero or not, finite or not), on order or on
      values that binary64 holds exactly (C [int]s and their halves) is
      proved over the exact one, or over any arithmetic.  The test vectors
      are evaluated over the kernel's binary64, and the rounded arithmetic
      is compared with it on them.
    - The cairo context, the MagickWand engine, the C library streams and
      the log sink are collaborators of the program: they are modelled by
      explicit state ([cairo_t], [world]) and by the record [collaborators]
      of the outcomes the program cannot control.
    - [stdio_read_func] is a loop: it takes fuel, one unit per iteration,
      and the stream it reads is an interface, [StdioStream], with one
      instance, [reading], whose [fread] may deliver less than it is asked
      for. *)

From Stdlib Require Import ZArith QArith Qround Qminmax Qabs Qpower Lqa Lia.
From Stdlib Require Import List String Ascii Bool.
From Stdlib Require Floats Uint63.
Import PrimFloat SpecFloat FloatOps.
Import ListNotations.

Local Open Scope Z_scope.

(* ================================================================== *)
(** * C doubles *)

Class DoubleArith (D : Type) : Type := {
  dbl_of_int : Z -> D;          (* (double)i *)
  dbl_div : D -> D -> D;        (* a / b *)
  dbl_mul : D -> D -> D;        (* a * b *)
  dbl_sub : D -> D -> D;        (* a - b *)
  dbl_gt : D -> D -> bool;      (* a > b *)
  dbl_eqb : D -> D -> bool;     (* a == b *)
  dbl_isfinite : D -> bool;     (* isfinite(a) *)
  dbl_to_int : D -> Z;          (* (int)a *)
  dbl_to_uint16 : D -> Z        (* (uint16_t)a *)
}.

Definition INT_MIN : Z := - 2 ^ 31.
Definition INT_MAX : Z := 2 ^ 31 - 1.

(** ** Exact extended rationals *)

Inductive xdouble : Type :=
| XFin (q : Q)
| XPInf
| XNInf
| XNaN.

(** Truncation toward zero, the rounding of a C conversion from a floating
    type to an integer type. *)
Definition Qtrunc (q : Q) : Z := Z.quot (Qnum q) (Zpos (Qden q)).

Definition Qis_zero (q : Q) : bool := Z.eqb (Qnum q) 0.
Definition Qis_neg (q : Q) : bool := Z.ltb (Qnum q) 0.

(** A zero divisor is the positive zero: no operand of the program is a
    negative zero when image dimensions are non-negative. *)
Definition xdiv (a b : xdouble) : xdouble :=
  match a, b with
  | XNaN, _ | _, XNaN => XNaN
  | XFin x, XFin y =>
      if Qis_zero y
      then (if Qis_zero x then XNaN else if Qis_neg x then XNInf else XPInf)
      else XFin (x / y)
  | XFin _, (XPInf | XNInf) => XFin 0
  | XPInf, XFin y => if Qis_neg y then XNInf else XPInf
  | XNInf, XFin y => if Qis_neg y then XPInf else XNInf
  | (XPInf | XNInf), (XPInf | XNInf) => XNaN
  end.

Definition xmul (a b : xdouble) : xdouble :=
  match a, b with
  | XNaN, _ | _, XNaN => XNaN
  | XFin x, XFin y => XFin (x * y)
  | XFin x, XPInf | XPInf, XFin x =>
      if Qis_zero x then XNaN else if Qis_neg x then XNInf else XPInf
  | XFin x, XNInf | XNInf, XFin x =>
      if Qis_zero x then XNaN else if Qis_neg x then XPInf else XNInf
  | XPInf, XPInf | XNInf, XNInf => XPInf
  | XPInf, XNInf | XNInf, XPInf => XNInf
  end.

Definition xsub (a b : xdouble) : xdouble :=
  match a, b with
  | XNaN, _ | _, XNaN => XNaN
  | XFin x, XFin y => XFin (x - y)
  | XFin _, XPInf => XNInf
  | XFin _, XNInf => XPInf
  | XPInf, XPInf | XNInf, XNInf => XNaN
  | XPInf, _ => XPInf
  | XNInf, _ => XNInf
  end.

Definition xgt (a b : xdouble) : bool :=
  match a, b with
  | XNaN, _ | _, XNaN => false
  | XFin x, XFin y => match (x ?= y)%Q with Gt => true | _ => false end
  | XPInf, XPInf => false
  | XPInf, _ => true
  | _, XPInf => false
  | XNInf, _ => false
  | XFin _, XNInf => true
  end.

Definition xeqb (a b : xdouble) : bool :=
  match a, b with
  | XFin x, XFin y => Qeq_bool x y
  | XPInf, XPInf | XNInf, XNInf => true
  | _, _ => false
  end.

Definition xisfinite (a : xdouble) : bool :=
  match a with XFin _ => true | _ => false end.

(** A conversion whose value does not fit the target type is undefined in
    C; the value returned here for it is the one the x86-64 conversion
    instruction gives: the integer part when it fits a 32-bit [int], and
    [INT_MIN] otherwise (not a number and the infinities included); the
    conversion to [uint16_t] keeps the low 16 bits of that [int], which are
    all zero for [INT_MIN]. *)
Definition x_to_int (a : xdouble) : Z :=
  match a with
  | XFin q =>
      let t := Qtrunc q in
      if (INT_MIN <=? t) && (t <=? INT_MAX) then t else INT_MIN
  | _ => INT_MIN
  end.

Definition x_to_uint16 (a : xdouble) : Z := (x_to_int a) mod 65536.

#[export] Instance xdouble_arith : DoubleArith xdouble := {
  dbl_of_int z := XFin (inject_Z z);
  dbl_div := xdiv;
  dbl_mul := xmul;
  dbl_sub := xsub;
  dbl_gt := xgt;
  dbl_eqb := xeqb;
  dbl_isfinite := xisfinite;
  dbl_to_int := x_to_int;
  dbl_to_uint16 := x_to_uint16
}.

(** ** binary64 *)

Definition f64_of_int (z : Z) : float :=
  match z with
  | Z0 => PrimFloat.zero
  | Zpos _ => PrimFloat.of_uint63 (Uint63.of_Z z)
  | Zneg p => PrimFloat.opp (PrimFloat.of_uint63 (Uint63.of_Z (Zpos p)))
  end.

(** The integer part of a binary64 number, through its mantissa and
    exponent. *)
Definition f64_trunc (f : float) : option Z :=
  match Prim2SF f with
  | S754_zero _ => Some 0
  | S754_finite s m e =>
      let mag := Z.shiftl (Zpos m) e in
      Some (if s then - mag else mag)
  | S754_infinity _ | S754_nan => None
  end.

Definition f64_to_int (f : float) : Z :=
  match f64_trunc f with
  | Some t => if (INT_MIN <=? t) && (t <=? INT_MAX) then t else INT_MIN
  | None => INT_MIN
  end.

Definition f64_to_uint16 (f : float) : Z := (f64_to_int f) mod 65536.

#[export] Instance binary64_arith : DoubleArith float := {
  dbl_of_int := f64_of_int;
  dbl_div := PrimFloat.div;
  dbl_mul := PrimFloat.mul;
  dbl_sub := PrimFloat.sub;
  dbl_gt a b := PrimFloat.ltb b a;
  dbl_eqb := PrimFloat.eqb;
  dbl_isfinite := PrimFloat.is_finite;
  dbl_to_int := f64_to_int;
  dbl_to_uint16 := f64_to_uint16
}.

Local Open Scope Q_scope.

(** ** binary64 as rounded rationals *)

(** The arithmetic of IEEE 754 gives, for each operation, the exact result
    rounded: here the exact result is the one of the extended rationals,
    and [round64] rounds it to the nearest binary64 number.  The carrier
    is [xdouble]; the finite values an operation returns are binary64
    numbers, in lowest terms. *)

(** The binade of a positive rational: [2 ^ Qlog2 q <= q < 2 ^ (Qlog2 q + 1)]. *)
Definition Qlog2 (q : Q) : Z :=
  let e0 := (Z.log2 (Qnum q) - Z.log2 (Zpos (Qden q)))%Z in
  if Qle_bool (2 ^ e0) q then e0 else (e0 - 1)%Z.

(** Rounding to the nearest integer, ties to even. *)
Definition round_half_even (q : Q) : Z :=
  let f := Qfloor q in
  match Qcompare (q - inject_Z f) (1 # 2) with
  | Lt => f
  | Gt => (f + 1)%Z
  | Eq => if Z.even f then f else (f + 1)%Z
  end.

(** The opposite, [- a]. *)
Definition xopp (a : xdouble) : xdouble :=
  match a with
  | XFin q => XFin (- q)
  | XPInf => XNInf
  | XNInf => XPInf
  | XNaN => XNaN
  end.

(** A positive rational rounded to binary64, to nearest with ties to even:
    53 bits of mantissa; below [2 ^ -1022] the spacing stays [2 ^ -1074]
    (subnormal numbers); a result of [2 ^ 1024] or more is an overflow. *)
Definition round64_pos (q : Q) : xdouble :=
  let e := Z.max (Qlog2 q) (-1022) in
  let ulp := 2 ^ (e - 52) in
  let v := inject_Z (round_half_even (q / ulp)) * ulp in
  if Qle_bool (2 ^ 1024) v then XPInf else XFin (Qred v).

(** A rational rounded to binary64; the rounding is symmetric. *)
Definition round64 (q : Q) : xdouble :=
  match Qcompare (Qred q) 0 with
  | Eq => XFin 0
  | Gt => round64_pos (Qred q)
  | Lt => xopp (round64_pos (- Qred q))
  end.

(** The infinities and not-a-number are results as they are. *)
Definition xround (a : xdouble) : xdouble :=
  match a with
  | XFin q => round64 q
  | _ => a
  end.

(** C [double] arithmetic in binary64: every operation rounds; the
    comparisons and the conversions to integers are exact operations on the
    value. *)
Definition rounded_arith : DoubleArith xdouble := {|
  dbl_of_int z := round64 (inject_Z z);
  dbl_div a b := xround (xdiv a b);
  dbl_mul a b := xround (xmul a b);
  dbl_sub a b := xround (xsub a b);
  dbl_gt := xgt;
  dbl_eqb := xeqb;
  dbl_isfinite := xisfinite;
  dbl_to_int := x_to_int;
  dbl_to_uint16 := x_to_uint16
|}.

(** The value of a binary64 number. *)
Definition f64_value (f : float) : xdouble :=
  match Prim2SF f with
  | S754_zero _ => XFin 0
  | S754_finite s m e =>
      XFin (Qred ((if s then - inject_Z (Zpos m) else inject_Z (Zpos m)) * 2 ^ e))
  | S754_infinity s => if s then XNInf else XPInf
  | S754_nan => XNaN
  end.

(** The unit roundoff of binary64, [2 ^ -53], and half the spacing of the
    subnormal numbers, [2 ^ -1075]. *)
Definition u64 : Q := 1 # 9007199254740992.
Definition eta64 : Q := 2 ^ (-1075).

Local Close Scope Q_scope.

(* ================================================================== *)
(** * The log sink and C strings *)

Inductive log_importance : Type := LOG_SILENT | LOG_ERROR | LOG_INFO | LOG_DEBUG.

Definition log_entry : Type := (log_importance * string)%type.

Definition swaylock_log (verbosity : log_importance) (msg : string)
    (log : list log_entry) : list log_entry :=
  log ++ [(verbosity, msg)].

Definition NUL : ascii := Ascii.zero.

(** The characters of a C string: what precedes the first terminator. *)
Fixpoint c_str (s : string) : string :=
  match s with
  | EmptyString => EmptyString
  | String c r => if Ascii.eqb c NUL then EmptyString else String c (c_str r)
  end.

Definition uchar (c : ascii) : Z := Z.of_N (N_of_ascii c).

(** [strcmp]: the difference of the first two differing bytes, read as
    unsigned char, comparison stopping at the terminator. *)
Fixpoint strcmp (s1 s2 : string) : Z :=
  match s1, s2 with
  | EmptyString, EmptyString => 0
  | EmptyString, String c2 _ => uchar NUL - uchar c2
  | String c1 _, EmptyString => uchar c1 - uchar NUL
  | String c1 r1, String c2 r2 =>
      if Ascii.eqb c1 c2
      then (if Ascii.eqb c1 NUL then 0 else strcmp r1 r2)
      else uchar c1 - uchar c2
  end.

(* ================================================================== *)
(** * background-image.c: parse_background_mode *)

Inductive background_mode : Type :=
| BACKGROUND_MODE_STRETCH
| BACKGROUND_MODE_FILL
| BACKGROUND_MODE_FIT
| BACKGROUND_MODE_CENTER
| BACKGROUND_MODE_TILE
| BACKGROUND_MODE_SOLID_COLOR
| BACKGROUND_MODE_INVALID.

Definition parse_background_mode (mode : string) (log : list log_entry)
    : background_mode * list log_entry :=
  if strcmp mode "stretch" =? 0 then (BACKGROUND_MODE_STRETCH, log)
  else if strcmp mode "fill" =? 0 then (BACKGROUND_MODE_FILL, log)
  else if strcmp mode "fit" =? 0 then (BACKGROUND_MODE_FIT, log)
  else if strcmp mode "center" =? 0 then (BACKGROUND_MODE_CENTER, log)
  else if strcmp mode "tile" =? 0 then (BACKGROUND_MODE_TILE, log)
  else if strcmp mode "solid_color" =? 0 then (BACKGROUND_MODE_SOLID_COLOR, log)
  else (BACKGROUND_MODE_INVALID,
        swaylock_log LOG_ERROR
          ("Unsupported background mode: " ++ c_str mode) log).

(* ================================================================== *)
(** * The cairo collaborator *)

Inductive cairo_status_t : Type :=
| CAIRO_STATUS_SUCCESS
| CAIRO_STATUS_NO_MEMORY
| CAIRO_STATUS_INVALID_RESTORE
| CAIRO_STATUS_INVALID_MATRIX
| CAIRO_STATUS_READ_ERROR.

Definition cairo_status_eqb (a b : cairo_status_t) : bool :=
  match a, b with
  | CAIRO_STATUS_SUCCESS, CAIRO_STATUS_SUCCESS
  | CAIRO_STATUS_NO_MEMORY, CAIRO_STATUS_NO_MEMORY
  | CAIRO_STATUS_INVALID_RESTORE, CAIRO_STATUS_INVALID_RESTORE
  | CAIRO_STATUS_INVALID_MATRIX, CAIRO_STATUS_INVALID_MATRIX
  | CAIRO_STATUS_READ_ERROR, CAIRO_STATUS_READ_ERROR => true
  | _, _ => false
  end.

(** One pixel: red, green, blue and alpha quanta. *)
Record pixel : Type := mk_pixel { red : Q; green : Q; blue : Q; alpha : Q }.

(** An image surface: its status, its natural size and its pixels. *)
Record cairo_surface_t : Type := mk_surface {
  surface_status : cairo_status_t;
  surface_width : Z;
  surface_height : Z;
  surface_data : list pixel
}.

Definition cairo_image_surface_get_width (s : cairo_surface_t) : Z :=
  surface_width s.
Definition cairo_image_surface_get_height (s : cairo_surface_t) : Z :=
  surface_height s.
Definition cairo_surface_status (s : cairo_surface_t) : cairo_status_t :=
  surface_status s.

Inductive cairo_extend_t : Type :=
| CAIRO_EXTEND_NONE
| CAIRO_EXTEND_REPEAT.

Section Cairo.
Context {D : Type} {arith : DoubleArith D}.

(** The affine map x' = xx*x + xy*y + x0, y' = yx*x + yy*y + y0. *)
Record cairo_matrix_t : Type := mk_matrix {
  xx : D; yx : D; xy : D; yy : D; x0 : D; y0 : D
}.

(** A surface pattern: the surface, where its origin sits in user space,
    and how it extends outside its natural area. *)
Record cairo_pattern_t : Type := mk_pattern {
  pattern_surface : cairo_surface_t;
  pattern_x : D;
  pattern_y : D;
  pattern_extend : cairo_extend_t
}.

(** The part of the graphics state the renderer touches: the current
    transformation matrix and the source ([None]: the default source). *)
Record cairo_gstate_t : Type := mk_gstate {
  ctm : cairo_matrix_t;
  source : option cairo_pattern_t
}.

(** An entry point of the context called by the program, with its
    arguments. *)
Inductive cairo_call : Type :=
| CALL_SAVE
| CALL_RESTORE
| CALL_SCALE (sx sy : D)
| CALL_SET_SOURCE_SURFACE (s : cairo_surface_t) (x y : D)
| CALL_SET_SOURCE (p : cairo_pattern_t)
| CALL_PAINT.

(** A drawing context: error status, current state, the stack of saved
    states, the paint operations carried out so far, each with the state
    it was painted under, and the calls received so far, carried out or
    not (both oldest first). *)
Record cairo_t : Type := mk_cairo {
  status : cairo_status_t;
  gstate : cairo_gstate_t;
  saved : list cairo_gstate_t;
  painted : list cairo_gstate_t;
  calls : list cairo_call
}.

Definition cairo_ok (cr : cairo_t) : bool :=
  cairo_status_eqb (status cr) CAIRO_STATUS_SUCCESS.

Definition cairo_set_error (cr : cairo_t) (st : cairo_status_t) : cairo_t :=
  mk_cairo st (gstate cr) (saved cr) (painted cr) (calls cr).

Definition cairo_called (cr : cairo_t) (c : cairo_call) : cairo_t :=
  mk_cairo (status cr) (gstate cr) (saved cr) (painted cr) (calls cr ++ [c]).

(** Every entry point is inert on a context in error. *)
Definition cairo_save (cr : cairo_t) : cairo_t :=
  let cr := cairo_called cr CALL_SAVE in
  if cairo_ok cr
  then mk_cairo (status cr) (gstate cr) (gstate cr :: saved cr)
                (painted cr) (calls cr)
  else cr.

Definition cairo_restore (cr : cairo_t) : cairo_t :=
  let cr := cairo_called cr CALL_RESTORE in
  if cairo_ok cr
  then match saved cr with
       | g :: rest => mk_cairo (status cr) g rest (painted cr) (calls cr)
       | [] => cairo_set_error cr CAIRO_STATUS_INVALID_RESTORE
       end
  else cr.

Definition cairo_matrix_scale (m : cairo_matrix_t) (sx sy : D)
    : cairo_matrix_t :=
  mk_matrix (dbl_mul sx (xx m)) (dbl_mul sx (yx m))
            (dbl_mul sy (xy m)) (dbl_mul sy (yy m))
            (x0 m) (y0 m).

(** A scale that is not invertible or not finite is refused. *)
Definition cairo_scale (cr : cairo_t) (sx sy : D) : cairo_t :=
  let cr := cairo_called cr (CALL_SCALE sx sy) in
  if cairo_ok cr
  then if dbl_eqb (dbl_mul sx sy) (dbl_of_int 0)
       then cairo_set_error cr CAIRO_STATUS_INVALID_MATRIX
       else if negb (dbl_isfinite sx && dbl_isfinite sy)
       then cairo_set_error cr CAIRO_STATUS_INVALID_MATRIX
       else mk_cairo (status cr)
              (mk_gstate (cairo_matrix_scale (ctm (gstate cr)) sx sy)
                         (source (gstate cr)))
              (saved cr) (painted cr) (calls cr)
  else cr.

Definition gstate_set_source (cr : cairo_t) (p : cairo_pattern_t) : cairo_t :=
  if cairo_ok cr
  then mk_cairo (status cr) (mk_gstate (ctm (gstate cr)) (Some p))
                (saved cr) (painted cr) (calls cr)
  else cr.

Definition cairo_set_source (cr : cairo_t) (p : cairo_pattern_t) : cairo_t :=
  gstate_set_source (cairo_called cr (CALL_SET_SOURCE p)) p.

Definition cairo_pattern_create_for_surface (s : cairo_surface_t)
    : cairo_pattern_t :=
  mk_pattern s (dbl_of_int 0) (dbl_of_int 0) CAIRO_EXTEND_NONE.

Definition cairo_pattern_set_extend (p : cairo_pattern_t)
    (e : cairo_extend_t) : cairo_pattern_t :=
  mk_pattern (pattern_surface p) (pattern_x p) (pattern_y p) e.

Definition cairo_set_source_surface (cr : cairo_t) (s : cairo_surface_t)
    (x y : D) : cairo_t :=
  gstate_set_source (cairo_called cr (CALL_SET_SOURCE_SURFACE s x y))
    (mk_pattern s x y CAIRO_EXTEND_NONE).

Definition cairo_paint (cr : cairo_t) : cairo_t :=
  let cr := cairo_called cr CALL_PAINT in
  if cairo_ok cr
  then mk_cairo (status cr) (gstate cr) (saved cr)
                (painted cr ++ [gstate cr]) (calls cr)
  else cr.

(* ================================================================ *)
(** * background-image.c: render_background_image *)

(** [None]: the run was stopped by [assert(0)]. *)
Definition render_background_image (cairo : cairo_t)
    (image : cairo_surface_t) (mode : background_mode)
    (buffer_width buffer_height : Z) : option cairo_t :=
  let width := dbl_of_int (cairo_image_surface_get_width image) in
  let height := dbl_of_int (cairo_image_surface_get_height image) in
  let two := dbl_of_int 2 in
  let cairo := cairo_save cairo in
  let drawn :=
    match mode with
    | BACKGROUND_MODE_STRETCH =>
        let cairo :=
          cairo_scale cairo
            (dbl_div (dbl_of_int buffer_width) width)
            (dbl_div (dbl_of_int buffer_height) height) in
        Some (cairo_set_source_surface cairo image
                (dbl_of_int 0) (dbl_of_int 0))
    | BACKGROUND_MODE_FILL =>
        let window_ratio :=
          dbl_div (dbl_of_int buffer_width) (dbl_of_int buffer_height) in
        let bg_ratio := dbl_div width height in
        if dbl_gt window_ratio bg_ratio then
          let scale := dbl_div (dbl_of_int buffer_width) width in
          let cairo := cairo_scale cairo scale scale in
          Some (cairo_set_source_surface cairo image
                  (dbl_of_int 0)
                  (dbl_sub
                     (dbl_div (dbl_div (dbl_of_int buffer_height) two) scale)
                     (dbl_div height two)))
        else
          let scale := dbl_div (dbl_of_int buffer_height) height in
          let cairo := cairo_scale cairo scale scale in
          Some (cairo_set_source_surface cairo image
                  (dbl_sub
                     (dbl_div (dbl_div (dbl_of_int buffer_width) two) scale)
                     (dbl_div width two))
                  (dbl_of_int 0))
    | BACKGROUND_MODE_FIT =>
        let window_ratio :=
          dbl_div (dbl_of_int buffer_width) (dbl_of_int buffer_height) in
        let bg_ratio := dbl_div width height in
        if dbl_gt window_ratio bg_ratio then
          let scale := dbl_div (dbl_of_int buffer_height) height in
          let cairo := cairo_scale cairo scale scale in
          Some (cairo_set_source_surface cairo image
                  (dbl_sub
                     (dbl_div (dbl_div (dbl_of_int buffer_width) two) scale)
                     (dbl_div width two))
                  (dbl_of_int 0))
        else
          let scale := dbl_div (dbl_of_int buffer_width) width in
          let cairo := cairo_scale cairo scale scale in
          Some (cairo_set_source_surface cairo image
                  (dbl_of_int 0)
                  (dbl_sub
                     (dbl_div (dbl_div (dbl_of_int buffer_height) two) scale)
                     (dbl_div height two)))
    | BACKGROUND_MODE_CENTER =>
        Some (cairo_set_source_surface cairo image
                (dbl_of_int
                   (dbl_to_int
                      (dbl_sub (dbl_div (dbl_of_int buffer_width) two)
                               (dbl_div width two))))
                (dbl_of_int
                   (dbl_to_int
                      (dbl_sub (dbl_div (dbl_of_int buffer_height) two)
                               (dbl_div height two)))))
    | BACKGROUND_MODE_TILE =>
        let pattern := cairo_pattern_create_for_surface image in
        let pattern := cairo_pattern_set_extend pattern CAIRO_EXTEND_REPEAT in
        Some (cairo_set_source cairo pattern)
    | BACKGROUND_MODE_SOLID_COLOR
    | BACKGROUND_MODE_INVALID => None
    end in
  match drawn with
  | Some cairo => Some (cairo_restore (cairo_paint cairo))
  | None => None
  end.

(** The divisor of every division the renderer evaluates, in the order of
    evaluation along the branch taken. *)
Definition render_divisors (image : cairo_surface_t) (mode : background_mode)
    (buffer_width buffer_height : Z) : list D :=
  let width := dbl_of_int (cairo_image_surface_get_width image) in
  let height := dbl_of_int (cairo_image_surface_get_height image) in
  let two := dbl_of_int 2 in
  match mode with
  | BACKGROUND_MODE_STRETCH => [width; height]
  | BACKGROUND_MODE_FILL =>
      let window_ratio :=
        dbl_div (dbl_of_int buffer_width) (dbl_of_int buffer_height) in
      let bg_ratio := dbl_div width height in
      [dbl_of_int buffer_height; height] ++
      (if dbl_gt window_ratio bg_ratio then
         let scale := dbl_div (dbl_of_int buffer_width) width in
         [width; two; scale; two]
       else
         let scale := dbl_div (dbl_of_int buffer_height) height in
         [height; two; scale; two])
  | BACKGROUND_MODE_FIT =>
      let window_ratio :=
        dbl_div (dbl_of_int buffer_width) (dbl_of_int buffer_height) in
      let bg_ratio := dbl_div width height in
      [dbl_of_int buffer_height; height] ++
      (if dbl_gt window_ratio bg_ratio then
         let scale := dbl_div (dbl_of_int buffer_height) height in
         [height; two; scale; two]
       else
         let scale := dbl_div (dbl_of_int buffer_width) width in
         [width; two; scale; two])
  | BACKGROUND_MODE_CENTER => [two; two; two; two]
  | _ => []
  end.

End Cairo.

Arguments cairo_matrix_t D : clear implicits.
Arguments cairo_pattern_t D : clear implicits.
Arguments cairo_gstate_t D : clear implicits.
Arguments cairo_call D : clear implicits.
Arguments cairo_t D : clear implicits.

(* ================================================================== *)
(** * The MagickWand engine and the C streams *)

Inductive ColorspaceType : Type :=
| RGBColorspace
| sRGBColorspace
| GRAYColorspace
| CMYKColorspace.

(** A decoded image held by a wand. *)
Record magick_image : Type := mk_image {
  image_colorspace : ColorspaceType;
  image_columns : Z;
  image_rows : Z;
  image_pixels : list pixel
}.

(** A wand: the image it holds, if any, and its last exception. *)
Record MagickWand : Type := mk_wand {
  wand_image : option magick_image;
  wand_exception : string
}.

(** A pixel wand holds one colour. *)
Definition PixelWand : Type := pixel.

Inductive stream_kind : Type :=
| NAMED_FILE (path : string)
| TEMP_FILE.

(** A stdio stream as the program holds it: its handle, what it is open
    on, its bytes and its position. *)
Record FILE : Type := mk_FILE {
  stream_id : nat;
  stream_of : stream_kind;
  stream_data : list Byte.byte;
  stream_pos : nat
}.

Section Loader.
Context {D : Type} {arith : DoubleArith D}.

(** The calls the engine receives; a call on a wand carries what the call
    reads of the wand. *)
Inductive magick_call : Type :=
| CALL_MagickWandGenesis
| CALL_MagickWandTerminus
| CALL_NewMagickWand
| CALL_DestroyMagickWand
| CALL_MagickReadImageFile (stream : nat)
| CALL_MagickGetExceptionType
| CALL_MagickGetException
| CALL_MagickGetImageColorspace
| CALL_MagickTransformImageColorspace (cs : ColorspaceType)
| CALL_MagickGaussianBlurImage (radius sigma : D)
| CALL_NewPixelWand
| CALL_DestroyPixelWand
| CALL_PixelSetRedQuantum (q : Z)
| CALL_PixelSetGreenQuantum (q : Z)
| CALL_PixelSetBlueQuantum (q : Z)
| CALL_PixelSetAlphaQuantum (q : Z)
| CALL_MagickColorizeImage (color blend : PixelWand)
| CALL_MagickWriteImageFile (image : option magick_image) (stream : nat).

(** What the process holds and has done: the streams that are open (handle
    and kind), the number of the next handle, the engine handles that are
    alive, the calls the engine received and the log, oldest first. *)
Record world : Type := mk_world {
  open_streams : list (nat * stream_kind);
  next_stream : nat;
  magick_wands : nat;
  pixel_wands : nat;
  engine_calls : list magick_call;
  log : list log_entry
}.

(** What the program does not control: the file system, the codecs and
    filters of the engine, the PNG reader of cairo, and the build-time
    constant [QuantumRange]. *)
Record collaborators : Type := mk_collaborators {
  (* fopen(path, "rb"): the bytes of the file, or strerror(errno) *)
  fs_open : string -> list Byte.byte + string;
  (* the decoder: the image, or the text of the exception *)
  magick_decode : list Byte.byte -> magick_image + string;
  (* the colorspace transform: [None] when it reports MagickFalse *)
  magick_transform : magick_image -> ColorspaceType -> option magick_image;
  (* the Gaussian blur filter *)
  magick_blur : magick_image -> D -> D -> magick_image;
  (* the encoder writing to a stream: the bytes that reach it *)
  magick_encode : magick_image -> list Byte.byte;
  (* cairo_image_surface_create_from_png_stream on the bytes read *)
  png_decode : list Byte.byte -> cairo_surface_t;
  cairo_status_to_string : cairo_status_t -> string;
  QuantumRange : Z
}.

Variable env : collaborators.

(** A computation on the world. *)
Definition M (A : Type) : Type := world -> A * world.
Definition ret {A} (a : A) : M A := fun w => (a, w).
Definition bind {A B} (m : M A) (f : A -> M B) : M B :=
  fun w => let (a, w') := m w in f a w'.

Notation "x <- m ;; k" := (bind m (fun x => k))
  (at level 61, m at next level, right associativity).
Notation "m ;;; k" := (bind m (fun _ => k))
  (at level 61, right associativity).

Definition log_error (msg : string) : M unit := fun w =>
  (tt, mk_world (open_streams w) (next_stream w) (magick_wands w)
         (pixel_wands w) (engine_calls w)
         (swaylock_log LOG_ERROR msg (log w))).

Definition engine_called (c : magick_call) : M unit := fun w =>
  (tt, mk_world (open_streams w) (next_stream w) (magick_wands w)
         (pixel_wands w) (engine_calls w ++ [c]) (log w)).

(** ** stdio *)

Definition add_stream (k : stream_kind) (data : list Byte.byte) : M FILE :=
  fun w =>
    (mk_FILE (next_stream w) k data 0,
     mk_world (open_streams w ++ [(next_stream w, k)]) (S (next_stream w))
       (magick_wands w) (pixel_wands w) (engine_calls w) (log w)).

(** [fopen(path, "rb")]: the stream, or the text for [errno]. *)
Definition fopen (path : string) : M (FILE + string) :=
  match fs_open env (c_str path) with
  | inl data => f <- add_stream (NAMED_FILE (c_str path)) data ;; ret (inl f)
  | inr e => ret (inr e)
  end.

Definition tmpfile : M FILE := add_stream TEMP_FILE [].

Definition fseek (f : FILE) (offset : nat) : FILE :=
  mk_FILE (stream_id f) (stream_of f) (stream_data f) offset.

(** ** MagickWand *)

Definition MagickWandGenesis : M unit :=
  engine_called CALL_MagickWandGenesis.

Definition NewMagickWand : M MagickWand := fun w =>
  (mk_wand None EmptyString,
   mk_world (open_streams w) (next_stream w) (S (magick_wands w))
     (pixel_wands w) (engine_calls w ++ [CALL_NewMagickWand]) (log w)).

Definition DestroyMagickWand (wand : MagickWand) : M unit := fun w =>
  (tt, mk_world (open_streams w) (next_stream w) (Nat.pred (magick_wands w))
         (pixel_wands w) (engine_calls w ++ [CALL_DestroyMagickWand])
         (log w)).

Definition NewPixelWand : M PixelWand := fun w =>
  (mk_pixel 0 0 0 (inject_Z (QuantumRange env)),
   mk_world (open_streams w) (next_stream w) (magick_wands w)
     (S (pixel_wands w)) (engine_calls w ++ [CALL_NewPixelWand]) (log w)).

Definition MagickReadImageFile (wand : MagickWand) (file : FILE)
    : M (bool * MagickWand) :=
  engine_called (CALL_MagickReadImageFile (stream_id file)) ;;;
  match magick_decode env (skipn (stream_pos file) (stream_data file)) with
  | inl img => ret (true, mk_wand (Some img) (wand_exception wand))
  | inr e => ret (false, mk_wand (wand_image wand) e)
  end.

(** The severity of the last exception is not looked at by the program. *)
Definition MagickGetExceptionType (wand : MagickWand) : M unit :=
  engine_called CALL_MagickGetExceptionType.

Definition MagickGetException (wand : MagickWand) : M string :=
  engine_called CALL_MagickGetException ;;;
  ret (wand_exception wand).

Definition MagickGetImageColorspace (wand : MagickWand)
    : M (option ColorspaceType) :=
  engine_called CALL_MagickGetImageColorspace ;;;
  ret (option_map image_colorspace (wand_image wand)).

Definition PixelSetRedQuantum (w : PixelWand) (q : Z) : M PixelWand :=
  engine_called (CALL_PixelSetRedQuantum q) ;;;
  ret (mk_pixel (inject_Z q) (green w) (blue w) (alpha w)).
Definition PixelSetGreenQuantum (w : PixelWand) (q : Z) : M PixelWand :=
  engine_called (CALL_PixelSetGreenQuantum q) ;;;
  ret (mk_pixel (red w) (inject_Z q) (blue w) (alpha w)).
Definition PixelSetBlueQuantum (w : PixelWand) (q : Z) : M PixelWand :=
  engine_called (CALL_PixelSetBlueQuantum q) ;;;
  ret (mk_pixel (red w) (green w) (inject_Z q) (alpha w)).
Definition PixelSetAlphaQuantum (w : PixelWand) (q : Z) : M PixelWand :=
  engine_called (CALL_PixelSetAlphaQuantum q) ;;;
  ret (mk_pixel (red w) (green w) (blue w) (inject_Z q)).

Definition MagickTransformImageColorspace (wand : MagickWand)
    (cs : ColorspaceType) : M (bool * MagickWand) :=
  engine_called (CALL_MagickTransformImageColorspace cs) ;;;
  match wand_image wand with
  | Some img =>
      match magick_transform env img cs with
      | Some img' => ret (true, mk_wand (Some img') (wand_exception wand))
      | None => ret (false, wand)
      end
  | None => ret (false, wand)
  end.

Definition MagickGaussianBlurImage (wand : MagickWand) (radius sigma : D)
    : M (bool * MagickWand) :=
  engine_called (CALL_MagickGaussianBlurImage radius sigma) ;;;
  match wand_image wand with
  | Some img =>
      ret (true, mk_wand (Some (magick_blur env img radius sigma))
                         (wand_exception wand))
  | None => ret (false, wand)
  end.

(** Colorize: each channel of each pixel moves toward the fill colour by
    the fraction [blend / QuantumRange] of that channel. *)
Definition colorize_channel (c fill blend : Q) : Q :=
  let qr := inject_Z (QuantumRange env) in
  ((c * (qr - blend) + fill * blend) / qr)%Q.

Definition colorize_pixel (color blend : PixelWand) (p : pixel) : pixel :=
  mk_pixel (colorize_channel (red p) (red color) (red blend))
           (colorize_channel (green p) (green color) (green blend))
           (colorize_channel (blue p) (blue color) (blue blend))
           (colorize_channel (alpha p) (alpha color) (alpha blend)).

Definition colorize_image (color blend : PixelWand) (img : magick_image)
    : magick_image :=
  mk_image (image_colorspace img) (image_columns img) (image_rows img)
           (map (colorize_pixel color blend) (image_pixels img)).

Definition MagickColorizeImage (wand : MagickWand) (color blend : PixelWand)
    : M (bool * MagickWand) :=
  engine_called (CALL_MagickColorizeImage color blend) ;;;
  match wand_image wand with
  | Some img =>
      ret (true, mk_wand (Some (colorize_image color blend img))
                         (wand_exception wand))
  | None => ret (false, wand)
  end.

Definition MagickWriteImageFile (wand : MagickWand) (file : FILE)
    : M (bool * FILE) :=
  engine_called (CALL_MagickWriteImageFile (wand_image wand)
                   (stream_id file)) ;;;
  match wand_image wand with
  | Some img =>
      let bytes := magick_encode env img in
      ret (true,
           mk_FILE (stream_id file) (stream_of file)
             (firstn (stream_pos file) (stream_data file) ++ bytes)%list
             (stream_pos file + List.length bytes)%nat)
  | None => ret (false, file)
  end.

(** The PNG reader pulls the bytes of the stream, from its position on,
    through [stdio_read_func]. *)
Definition cairo_image_surface_create_from_png_stream (file : FILE)
    : cairo_surface_t :=
  png_decode env (skipn (stream_pos file) (stream_data file)).

(* ================================================================ *)
(** * background-image.c: load_background_image *)

Definition load_background_image (path : string) (blur opacity : D)
    : M (option cairo_surface_t) :=
  imageFile <- fopen path ;;
  match imageFile with
  | inr err =>
      log_error ("Failed to open background image file: " ++ err ++ ".") ;;;
      ret None
  | inl imageFile =>
      MagickWandGenesis ;;;
      wand <- NewMagickWand ;;
      r <- MagickReadImageFile wand imageFile ;;
      let (ok, wand) := r : bool * MagickWand in
      wi <- (if negb ok then
               MagickGetExceptionType wand ;;;
               e <- MagickGetException wand ;;
               log_error ("Failed to load background image: " ++ e ++ ".") ;;;
               ret (wand, None)                          (* goto end *)
             else
               cs <- MagickGetImageColorspace wand ;;
               wand <- (match cs with
                        | Some CMYKColorspace =>
                            r <- MagickTransformImageColorspace wand
                                   RGBColorspace ;;
                            ret (snd r)
                        | _ => ret wand
                        end) ;;
               wand <- (if dbl_gt blur (dbl_of_int 0) then
                          r <- MagickGaussianBlurImage wand blur blur ;;
                          ret (snd r)
                        else ret wand) ;;
               wand <- (if dbl_gt opacity (dbl_of_int 0) then
                          color <- NewPixelWand ;;
                          blend <- NewPixelWand ;;
                          let actualOpacity :=
                            dbl_to_uint16
                              (dbl_mul (dbl_of_int (QuantumRange env))
                                 (dbl_div opacity (dbl_of_int 100))) in
                          blend <- PixelSetRedQuantum blend actualOpacity ;;
                          blend <- PixelSetGreenQuantum blend actualOpacity ;;
                          blend <- PixelSetBlueQuantum blend actualOpacity ;;
                          blend <- PixelSetAlphaQuantum blend actualOpacity ;;
                          color <- PixelSetRedQuantum color 0 ;;
                          color <- PixelSetGreenQuantum color 0 ;;
                          color <- PixelSetBlueQuantum color 0 ;;
                          color <-
                            PixelSetAlphaQuantum color (QuantumRange env) ;;
                          r <- MagickColorizeImage wand color blend ;;
                          ret (snd r)
                        else ret wand) ;;
               processedImage <- tmpfile ;;
               r <- MagickWriteImageFile wand processedImage ;;
               let processedImage := fseek (snd r) 0 in
               let image :=
                 cairo_image_surface_create_from_png_stream processedImage in
               ret (wand, Some image)) ;;
      let (wand, image) := wi : MagickWand * option cairo_surface_t in
      (* end: *)
      DestroyMagickWand wand ;;;
      match image with
      | None => ret None
      | Some image =>
          if negb (cairo_status_eqb (cairo_surface_status image)
                                    CAIRO_STATUS_SUCCESS)
          then
            log_error ("Failed to open background image in cairo: " ++
                       cairo_status_to_string env
                         (cairo_surface_status image) ++ ".") ;;;
            ret None
          else ret (Some image)
      end
  end.

(** A run of the process: the loads it performs, in order. *)
Fixpoint load_all (requests : list (string * D * D)) (w : world)
    : list (option cairo_surface_t) * world :=
  match requests with
  | [] => ([], w)
  | (path, blur, opacity) :: rest =>
      let (r, w1) := load_background_image path blur opacity w in
      let (rs, w2) := load_all rest w1 in
      (r :: rs, w2)
  end.

Definition is_genesis (c : magick_call) : bool :=
  match c with CALL_MagickWandGenesis => true | _ => false end.

Definition is_terminus (c : magick_call) : bool :=
  match c with CALL_MagickWandTerminus => true | _ => false end.

(** How many times the engine was initialized, and torn down. *)
Definition count_genesis (w : world) : nat :=
  List.length (filter is_genesis (engine_calls w)).

Definition count_terminus (w : world) : nat :=
  List.length (filter is_terminus (engine_calls w)).

End Loader.

Arguments magick_call D : clear implicits.
Arguments world D : clear implicits.
Arguments collaborators D : clear implicits.

(* ================================================================== *)
(** * background-image.c: stdio_read_func *)

(** What the reader uses of a stream: [fread(data, 1, size, file)], as the
    bytes it stores and the stream after the call, and the two indicators
    [feof] and [ferror]. *)
Class StdioStream (F : Type) : Type := {
  fread : F -> nat -> list Byte.byte * F;
  feof : F -> bool;
  ferror : F -> bool
}.

Section StdioRead.
Context {F : Type} {stdio : StdioStream F}.

(** The loop of [stdio_read_func]: [data] is what was stored so far, [size]
    what is still asked for ([fread] never stores more than it is asked
    for, so [size -= ret] does not wrap).  One unit of [fuel] per
    iteration; [None]: the loop was still running when the fuel ran out. *)
Fixpoint stdio_read_loop (fuel : nat) (file : F) (data : list Byte.byte)
    (size : nat) : option (cairo_status_t * list Byte.byte * F) :=
  match size with
  | O => Some (CAIRO_STATUS_SUCCESS, data, file)
  | _ =>
      match fuel with
      | O => None
      | S fuel' =>
          let (got, file') := fread file size in
          let ret := List.length got in
          let size' := (size - ret)%nat in
          let data' := (data ++ got)%list in
          if negb (Nat.eqb size' 0) && (feof file' || ferror file')
          then Some (CAIRO_STATUS_READ_ERROR, data', file')
          else stdio_read_loop fuel' file' data' size'
      end
  end.

(** The status, the bytes stored at [data] and the stream after the call. *)
Definition stdio_read_func (fuel : nat) (closure : F) (size : nat)
    : option (cairo_status_t * list Byte.byte * F) :=
  stdio_read_loop fuel closure [] size.

End StdioRead.

(** A stream open for reading: the stream, its end-of-file and error
    indicators, and the most bytes one [fread] delivers ([None]: as many as
    it is asked for, the behaviour of a regular file). *)
Record reading : Type := mk_reading {
  r_file : FILE;
  r_eof : bool;
  r_error : bool;
  r_chunk : option nat
}.

Definition reading_ahead (r : reading) : list Byte.byte :=
  skipn (stream_pos (r_file r)) (stream_data (r_file r)).

(** How many bytes one [fread] of [n] bytes tries to deliver: none once
    the end-of-file indicator is up, else what it is asked for, up to the
    chunk. *)
Definition reading_want (r : reading) (n : nat) : nat :=
  if r_eof r then 0%nat
  else match r_chunk r with Some c => Nat.min n c | None => n end.

(** [fread] stores what the stream has ahead, up to what it tries to
    deliver, and advances by as much; it raises the end-of-file indicator
    when it tries to deliver more than is left; it never clears an
    indicator. *)
Definition reading_fread (r : reading) (n : nat) : list Byte.byte * reading :=
  let ahead := reading_ahead r in
  let want := reading_want r n in
  let got := firstn want ahead in
  (got,
   mk_reading
     (mk_FILE (stream_id (r_file r)) (stream_of (r_file r))
        (stream_data (r_file r))
        (stream_pos (r_file r) + List.length got))
     (r_eof r || (List.length ahead <? want)%nat)
     (r_error r) (r_chunk r)).

#[export] Instance reading_stdio : StdioStream reading := {
  fread := reading_fread;
  feof := r_eof;
  ferror := r_error
}.

(** A stream as [fopen], [tmpfile] or [fseek] leave it: indicators clear. *)
Definition open_reading (f : FILE) : reading := mk_reading f false false None.

(* ================================================================== *)
(** * Values to evaluate on *)

Definition cairo_identity_matrix {D : Type} {arith : DoubleArith D}
    : cairo_matrix_t D :=
  mk_matrix (dbl_of_int 1) (dbl_of_int 0) (dbl_of_int 0) (dbl_of_int 1)
            (dbl_of_int 0) (dbl_of_int 0).

(** A context as [cairo_create] returns it. *)
Definition cairo_create {D : Type} {arith : DoubleArith D} : cairo_t D :=
  mk_cairo CAIRO_STATUS_SUCCESS (mk_gstate cairo_identity_matrix None) [] [] [].

(** An image surface of the given size, pixels left out. *)
Definition blank_image (w h : Z) : cairo_surface_t :=
  mk_surface CAIRO_STATUS_SUCCESS w h [].

(** The calls of a render on a fresh context, in binary64. *)
Definition render_calls_binary64 (image : cairo_surface_t)
    (mode : background_mode) (buffer_width buffer_height : Z)
    : option (list (cairo_call float)) :=
  option_map calls
    (render_background_image (D := float) cairo_create image mode
       buffer_width buffer_height).

Definition sample_rgb : magick_image :=
  mk_image sRGBColorspace 2 1
    [ mk_pixel (inject_Z 65535) (inject_Z 32768) (inject_Z 0) (inject_Z 65535);
      mk_pixel (inject_Z 1000) (inject_Z 2000) (inject_Z 3000) (inject_Z 65535) ].

Definition sample_cmyk : magick_image :=
  mk_image CMYKColorspace 1 1
    [ mk_pixel (inject_Z 100) (inject_Z 200) (inject_Z 300) (inject_Z 400) ].

Definition colorspace_byte (cs : ColorspaceType) : Byte.byte :=
  match cs with
  | RGBColorspace => Byte.x01
  | sRGBColorspace => Byte.x02
  | GRAYColorspace => Byte.x03
  | CMYKColorspace => Byte.x04
  end.

(** Three files: [bg.png] decodes to an sRGB image, [cmyk.jpg] to a CMYK
    image, [broken.png] does not decode; no other path exists.  The
    colorspace transform always fails and the blur changes nothing.  The
    encoder writes the colorspace and one byte per pixel, and the PNG reader
    accepts any stream that is not empty.  The quantum is 16 bits wide. *)
Definition sample_collaborators {D : Type} : collaborators D :=
  @mk_collaborators D
    (fun path =>
       if String.eqb path "bg.png" then inl [Byte.x01]
       else if String.eqb path "cmyk.jpg" then inl [Byte.x02]
       else if String.eqb path "broken.png" then inl [Byte.x00]
       else inr "No such file or directory"%string)
    (fun data =>
       match data with
       | [Byte.x01] => inl sample_rgb
       | [Byte.x02] => inl sample_cmyk
       | _ => inr "improper image header"%string
       end)
    (fun _ _ => None)
    (fun img _ _ => img)
    (fun img =>
       colorspace_byte (image_colorspace img)
       :: map (fun _ => Byte.xff) (image_pixels img))
    (fun data =>
       match data with
       | [] => mk_surface CAIRO_STATUS_READ_ERROR 0 0 []
       | _ :: px => mk_surface CAIRO_STATUS_SUCCESS
                      (Z.of_nat (List.length px)) 1 []
       end)
    (fun _ => "error"%string)
    65535.

(** A process that has opened nothing and called nothing yet. *)
Definition process_start {D : Type} : world D := mk_world [] 0 0 0 [] [].

(** A context that an earlier call has put in error. *)
Definition cairo_in_error {D : Type} {arith : DoubleArith D} : cairo_t D :=
  mk_cairo CAIRO_STATUS_INVALID_MATRIX (mk_gstate cairo_identity_matrix None)
    [] [] [].

(** A stream that delivers three bytes at a time. *)
Definition chunked_reading (data : list Byte.byte) : reading :=
  mk_reading (mk_FILE 0 TEMP_FILE data 0) false false (Some 3%nat).

(** Eight bytes to read. *)
Definition eight_bytes : list Byte.byte :=
  [Byte.x01; Byte.x02; Byte.x03; Byte.x04; Byte.x05; Byte.x06; Byte.x07;
   Byte.x08].

(** The calls of a render in binary64, each double read as the number it
    stands for. *)
Definition call_value (c : cairo_call float) : cairo_call xdouble :=
  match c with
  | CALL_SAVE => CALL_SAVE
  | CALL_RESTORE => CALL_RESTORE
  | CALL_SCALE sx sy => CALL_SCALE (f64_value sx) (f64_value sy)
  | CALL_SET_SOURCE_SURFACE s x y =>
      CALL_SET_SOURCE_SURFACE s (f64_value x) (f64_value y)
  | CALL_SET_SOURCE p =>
      CALL_SET_SOURCE (mk_pattern (pattern_surface p) (f64_value (pattern_x p))
                         (f64_value (pattern_y p)) (pattern_extend p))
  | CALL_PAINT => CALL_PAINT
  end.

Definition render_values_binary64 (image : cairo_surface_t)
    (mode : background_mode) (buffer_width buffer_height : Z)
    : option (list (cairo_call xdouble)) :=
  option_map (map call_value)
    (render_calls_binary64 image mode buffer_width buffer_height).

Definition render_calls_rounded (image : cairo_surface_t)
    (mode : background_mode) (buffer_width buffer_height : Z)
    : option (list (cairo_call xdouble)) :=
  option_map calls
    (render_background_image (arith := rounded_arith) cairo_create image mode
       buffer_width buffer_height).

(** The opacity [50.000762951094835], as the double it is read as. *)
Definition opacity_above_half : float := 0x1.9001900190019p+5%float.

(** Sizes to compare the two arithmetics on: image width and height, buffer
    width and height. *)
Definition sample_sizes : list (Z * Z * Z * Z) :=
  [ (1000, 1000, 1920, 1080); (1920, 1080, 1000, 1000);
    (999999999, 1000000000, 1000000000, 1000000001);
    (71709259, 68106879, 76464005, 72622766);
    (48, 27, 400, 225); (3, 7, 11, 13); (7, 3, 13, 11);
    (1, 1, 2147483647, 2147483647); (2147483647, 2147483647, 1, 1);
    (1, 2147483647, 2147483647, 1); (2147483647, 1, 1, 2147483647);
    (4096, 2160, 1366, 768); (640, 480, 3840, 2160);
    (333, 777, 1234567, 7654321); (2147483647, 2147483646, 2147483645, 2147483644);
    (0, 100, 200, 100); (100, 0, 200, 100); (0, 0, 200, 100) ].

Definition scaling_modes : list background_mode :=
  [ BACKGROUND_MODE_STRETCH; BACKGROUND_MODE_FILL; BACKGROUND_MODE_FIT ].

Definition on_samples {A : Type}
    (render : cairo_surface_t -> background_mode -> Z -> Z -> A) : list A :=
  flat_map (fun mode =>
    map (fun t => match t with
                  | (w, h, bw, bh) => render (blank_image w h) mode bw bh
                  end) sample_sizes) scaling_modes.

(** Opacities to compare the two arithmetics on. *)
Definition sample_opacities : list float :=
  [ 0x1p-1074%float; 0x1.999999999999ap-4%float; 1%float;
    0x1.0a66666666666p+5%float; 50%float; opacity_above_half;
    0x1.8f9999999999ap+6%float; 100%float; 150%float; 10000000000%float ].

(* ================================================================== *)
(** * Terms of the specification: the mode parser *)

(** The table of the recognized tokens. *)
Definition mode_tokens : list (string * background_mode) :=
  [ ("stretch"%string, BACKGROUND_MODE_STRETCH);
    ("fill"%string, BACKGROUND_MODE_FILL);
    ("fit"%string, BACKGROUND_MODE_FIT);
    ("center"%string, BACKGROUND_MODE_CENTER);
    ("tile"%string, BACKGROUND_MODE_TILE);
    ("solid_color"%string, BACKGROUND_MODE_SOLID_COLOR) ].

Definition unsupported_mode_entry (mode : string) : log_entry :=
  (LOG_ERROR, ("Unsupported background mode: " ++ c_str mode)%string).

(* ================================================================== *)
(** * Terms of the specification: the renderer *)

(** The modes the renderer accepts. *)
Definition compositor_mode (mode : background_mode) : bool :=
  match mode with
  | BACKGROUND_MODE_SOLID_COLOR | BACKGROUND_MODE_INVALID => false
  | _ => true
  end.

(** The calls found between the save and the paint. *)
Definition is_setup_call {D : Type} (c : cairo_call D) : bool :=
  match c with
  | CALL_SCALE _ _ | CALL_SET_SOURCE_SURFACE _ _ _ | CALL_SET_SOURCE _ => true
  | _ => false
  end.

(** The renderer returned, leaving the graphics state as it found it (and
    the stack of saved states too, unless the context ends in error), and
    what it called is a save, then [setup] calls only, then the paint and
    the restore. *)
Definition bracketed {D : Type} {arith : DoubleArith D} (cairo : cairo_t D)
    (result : option (cairo_t D)) : Prop :=
  exists cairo' setup,
    result = Some cairo' /\
    ctm (gstate cairo') = ctm (gstate cairo) /\
    gstate cairo' = gstate cairo /\
    (cairo_ok cairo' = true -> saved cairo' = saved cairo) /\
    calls cairo' =
      (calls cairo ++ [CALL_SAVE] ++ setup ++ [CALL_PAINT; CALL_RESTORE])%list /\
    forallb is_setup_call setup = true.

(** [cr] is inside a bracket opened on [cr0] by a save, [setup] being the
    calls received since: either the state of [cr0] is on top of the stack
    of [cr] (and is still the current one when nothing was called yet), or
    the context is in error and its state is still that of [cr0]. *)
Definition in_bracket {D : Type} {arith : DoubleArith D} (cr0 cr : cairo_t D)
    (setup : list (cairo_call D)) : Prop :=
  calls cr = (calls cr0 ++ CALL_SAVE :: setup)%list /\
  forallb is_setup_call setup = true /\
  (if cairo_ok cr
   then saved cr = gstate cr0 :: saved cr0 /\
        (setup = [] -> gstate cr = gstate cr0)
   else gstate cr = gstate cr0).

Local Open Scope Q_scope.

(** An axis-parallel rectangle, in the coordinates in force when the
    renderer is called: those of the buffer. *)
Record rect : Type := mk_rect {
  rect_left : Q; rect_top : Q; rect_right : Q; rect_bottom : Q
}.

Definition buffer_rect (bw bh : Z) : rect :=
  mk_rect 0 0 (inject_Z bw) (inject_Z bh).

(** Where an image of size [w] x [h], set as source at [(ox, oy)] after a
    scale by [(sx, sy)], lands. *)
Definition placed_image (sx sy ox oy : Q) (w h : Z) : rect :=
  mk_rect (sx * ox) (sy * oy)
          (sx * (ox + inject_Z w)) (sy * (oy + inject_Z h)).

Definition rect_within (inner outer : rect) : Prop :=
  rect_left outer <= rect_left inner /\ rect_right inner <= rect_right outer /\
  rect_top outer <= rect_top inner /\ rect_bottom inner <= rect_bottom outer.

(** The calls of a render with a uniform scale [s] and the source at
    [(ox, oy)], and the state the paint is carried out under. *)
Definition scaled_render_calls (image : cairo_surface_t) (s ox oy : Q)
    : list (cairo_call xdouble) :=
  [ CALL_SAVE; CALL_SCALE (XFin s) (XFin s);
    CALL_SET_SOURCE_SURFACE image (XFin ox) (XFin oy);
    CALL_PAINT; CALL_RESTORE ].

(** The C expressions of the renderer, in binary64: [(double)n / d] and
    [(double)bufferDim / 2 / scale - srcDim / 2]. *)
Definition dbl_ratio (n d : Z) : xdouble :=
  dbl_div (DoubleArith := rounded_arith)
    (dbl_of_int (DoubleArith := rounded_arith) n)
    (dbl_of_int (DoubleArith := rounded_arith) d).

Definition dbl_centre (bufferDim srcDim : Z) (scale : xdouble) : xdouble :=
  dbl_sub (DoubleArith := rounded_arith)
    (dbl_div (DoubleArith := rounded_arith)
       (dbl_div (DoubleArith := rounded_arith)
          (dbl_of_int (DoubleArith := rounded_arith) bufferDim)
          (dbl_of_int (DoubleArith := rounded_arith) 2))
       scale)
    (dbl_div (DoubleArith := rounded_arith)
       (dbl_of_int (DoubleArith := rounded_arith) srcDim)
       (dbl_of_int (DoubleArith := rounded_arith) 2)).

(** The test of FILL and FIT, [window_ratio > bg_ratio], in binary64. *)
Definition ratio_test (w h bw bh : Z) : bool :=
  dbl_gt (DoubleArith := rounded_arith) (dbl_ratio bw bh) (dbl_ratio w h).

(** A size the program can be handed: a positive C [int]. *)
Definition is_size (z : Z) : Prop := (1 <= z <= INT_MAX)%Z.

(** The state a paint is carried out under, in binary64. *)
Definition rounded_render_state (cr : cairo_t xdouble) (image : cairo_surface_t)
    (sx sy ox oy : Q) : cairo_gstate_t xdouble :=
  mk_gstate
    (cairo_matrix_scale (arith := rounded_arith) (ctm (gstate cr))
       (XFin sx) (XFin sy))
    (Some (mk_pattern image (XFin ox) (XFin oy) CAIRO_EXTEND_NONE)).

(** The render, in binary64, issued one uniform scale [s] and set the
    source at [(ox, oy)]. *)
Definition rounded_render (cairo : cairo_t xdouble) (image : cairo_surface_t)
    (mode : background_mode) (buffer_width buffer_height : Z) (s ox oy : Q)
    : Prop :=
  exists cairo',
    render_background_image (arith := rounded_arith) cairo image mode
      buffer_width buffer_height = Some cairo' /\
    calls cairo' = (calls cairo ++ scaled_render_calls image s ox oy)%list /\
    (cairo_ok cairo = true ->
     painted cairo' =
       (painted cairo ++ [rounded_render_state cairo image s s ox oy])%list).

(** What rounding can cost: a millionth of a pixel, and four units
    in the last place of a scale. *)
Definition rounding_slack : Q := 1 # 1048576.
Definition scale_slack : Q := 1 # 2251799813685248.

(** [inner] lies within [outer] grown by [tol] on every side. *)
Definition rect_within_up_to (tol : Q) (inner outer : rect) : Prop :=
  rect_left outer - tol <= rect_left inner /\
  rect_right inner <= rect_right outer + tol /\
  rect_top outer - tol <= rect_top inner /\
  rect_bottom inner <= rect_bottom outer + tol.

(** FILL in binary64: the test selects the scale and the axis that is
    centred; the scale is the larger candidate and the placed image
    contains the buffer rectangle, both up to rounding. *)
Definition fill_rounded_postcondition (cairo : cairo_t xdouble)
    (image : cairo_surface_t) (buffer_width buffer_height : Z) : Prop :=
  let w := surface_width image in
  let h := surface_height image in
  let W := inject_Z w in
  let H := inject_Z h in
  let BW := inject_Z buffer_width in
  let BH := inject_Z buffer_height in
  exists s ox oy,
    rounded_render cairo image BACKGROUND_MODE_FILL buffer_width buffer_height
      s ox oy /\
    (ratio_test w h buffer_width buffer_height = true ->
     XFin s = dbl_ratio buffer_width w /\ ox = 0 /\
     XFin oy = dbl_centre buffer_height h (XFin s)) /\
    (ratio_test w h buffer_width buffer_height = false ->
     XFin s = dbl_ratio buffer_height h /\
     XFin ox = dbl_centre buffer_width w (XFin s) /\ oy = 0) /\
    Qabs (s - Qmax (BW / W) (BH / H)) <= scale_slack * Qmax (BW / W) (BH / H) /\
    rect_within_up_to rounding_slack
      (buffer_rect buffer_width buffer_height) (placed_image s s ox oy w h).

(** FIT in binary64: the other selection for the same test; the scale is
    the smaller candidate, the placed image lies within the buffer
    rectangle and spans it along the axis that drives the scale, all up to
    rounding. *)
Definition fit_rounded_postcondition (cairo : cairo_t xdouble)
    (image : cairo_surface_t) (buffer_width buffer_height : Z) : Prop :=
  let w := surface_width image in
  let h := surface_height image in
  let W := inject_Z w in
  let H := inject_Z h in
  let BW := inject_Z buffer_width in
  let BH := inject_Z buffer_height in
  exists s ox oy,
    rounded_render cairo image BACKGROUND_MODE_FIT buffer_width buffer_height
      s ox oy /\
    (ratio_test w h buffer_width buffer_height = true ->
     XFin s = dbl_ratio buffer_height h /\
     XFin ox = dbl_centre buffer_width w (XFin s) /\ oy = 0 /\
     Qabs (s * H - BH) <= rounding_slack) /\
    (ratio_test w h buffer_width buffer_height = false ->
     XFin s = dbl_ratio buffer_width w /\ ox = 0 /\
     XFin oy = dbl_centre buffer_height h (XFin s) /\
     Qabs (s * W - BW) <= rounding_slack) /\
    Qabs (s - Qmin (BW / W) (BH / H)) <= scale_slack * Qmin (BW / W) (BH / H) /\
    rect_within_up_to rounding_slack
      (placed_image s s ox oy w h) (buffer_rect buffer_width buffer_height).

(** A C [int]. *)
Definition is_int (z : Z) : Prop := (INT_MIN <= z <= INT_MAX)%Z.

Definition center_render_calls (image : cairo_surface_t) (ox oy : Z)
    : list (cairo_call xdouble) :=
  [ CALL_SAVE;
    CALL_SET_SOURCE_SURFACE image (XFin (inject_Z ox)) (XFin (inject_Z oy));
    CALL_PAINT; CALL_RESTORE ].

Definition center_render_state (cr : cairo_t xdouble) (image : cairo_surface_t)
    (ox oy : Z) : cairo_gstate_t xdouble :=
  mk_gstate (ctm (gstate cr))
            (Some (mk_pattern image (XFin (inject_Z ox)) (XFin (inject_Z oy))
                              CAIRO_EXTEND_NONE)).

(** CENTER: no scale call, the paint under the transform of the caller, the
    source at the integers [(ox, oy)], each the truncation toward zero of
    [bufferDim/2 - srcDim/2]: its floor when the image is not larger than
    the buffer along that axis, its ceiling when it is not smaller. *)
Definition center_postcondition (cairo : cairo_t xdouble)
    (image : cairo_surface_t) (buffer_width buffer_height : Z) : Prop :=
  let w := surface_width image in
  let h := surface_height image in
  let dx := inject_Z buffer_width / 2 - inject_Z w / 2 in
  let dy := inject_Z buffer_height / 2 - inject_Z h / 2 in
  exists cairo' ox oy,
    render_background_image cairo image BACKGROUND_MODE_CENTER
      buffer_width buffer_height = Some cairo' /\
    calls cairo' = (calls cairo ++ center_render_calls image ox oy)%list /\
    (cairo_ok cairo = true ->
     painted cairo' =
       (painted cairo ++ [center_render_state cairo image ox oy])%list) /\
    ox = Qtrunc dx /\ oy = Qtrunc dy /\
    ((w <= buffer_width)%Z -> ox = Qfloor dx) /\
    ((buffer_width <= w)%Z -> ox = Qceiling dx) /\
    ((h <= buffer_height)%Z -> oy = Qfloor dy) /\
    ((buffer_height <= h)%Z -> oy = Qceiling dy).

(** A divisor that is finite and not zero. *)
Definition nonzero_finite (d : xdouble) : bool :=
  match d with
  | XFin q => negb (Qis_zero q)
  | _ => false
  end.

(** A call whose numeric arguments are all finite. *)
Definition call_finite (c : cairo_call xdouble) : bool :=
  match c with
  | CALL_SCALE sx sy => xisfinite sx && xisfinite sy
  | CALL_SET_SOURCE_SURFACE _ x y => xisfinite x && xisfinite y
  | CALL_SET_SOURCE p => xisfinite (pattern_x p) && xisfinite (pattern_y p)
  | _ => true
  end.

(** The geometry of a render is total: no division by zero, and finite
    scales and offsets handed to the context. *)
Definition geometry_total (cairo : cairo_t xdouble) (image : cairo_surface_t)
    (mode : background_mode) (buffer_width buffer_height : Z) : Prop :=
  forallb nonzero_finite
    (render_divisors image mode buffer_width buffer_height) = true /\
  exists cairo' issued,
    render_background_image cairo image mode buffer_width buffer_height
      = Some cairo' /\
    calls cairo' = (calls cairo ++ issued)%list /\
    forallb call_finite issued = true.

Local Close Scope Q_scope.

(* ================================================================== *)
(** * Terms of the specification: the loader *)

Section LoaderTerms.
Context {D : Type} {arith : DoubleArith D}.
Variable env : collaborators D.

(** The image after the colorspace step: converted when it is CMYK and the
    transform succeeds, untouched otherwise. *)
Definition converted (img : magick_image) : magick_image :=
  match image_colorspace img with
  | CMYKColorspace =>
      match magick_transform env img RGBColorspace with
      | Some img' => img'
      | None => img
      end
  | _ => img
  end.

Definition blurred (blur : D) (img : magick_image) : magick_image :=
  if dbl_gt blur (dbl_of_int 0) then magick_blur env img blur blur else img.

(** The level of the overlay: [actualOpacity]. *)
Definition opacity_level (opacity : D) : Z :=
  dbl_to_uint16
    (dbl_mul (dbl_of_int (QuantumRange env)) (dbl_div opacity (dbl_of_int 100))).

Definition overlay_color : PixelWand :=
  mk_pixel (inject_Z 0) (inject_Z 0) (inject_Z 0) (inject_Z (QuantumRange env)).

Definition overlay_blend (level : Z) : PixelWand :=
  mk_pixel (inject_Z level) (inject_Z level) (inject_Z level) (inject_Z level).

Definition darkened (opacity : D) (img : magick_image) : magick_image :=
  if dbl_gt opacity (dbl_of_int 0)
  then colorize_image env overlay_color (overlay_blend (opacity_level opacity)) img
  else img.

(** The image handed to the encoder. *)
Definition processed (blur opacity : D) (img : magick_image) : magick_image :=
  darkened opacity (blurred blur (converted img)).

(** The calls of the processing steps. *)
Definition conversion_calls (img : magick_image) : list (magick_call D) :=
  match image_colorspace img with
  | CMYKColorspace => [CALL_MagickTransformImageColorspace RGBColorspace]
  | _ => []
  end.

Definition blur_calls (blur : D) : list (magick_call D) :=
  if dbl_gt blur (dbl_of_int 0)
  then [CALL_MagickGaussianBlurImage blur blur] else [].

Definition overlay_calls (level : Z) : list (magick_call D) :=
  [CALL_NewPixelWand; CALL_NewPixelWand;
   CALL_PixelSetRedQuantum level; CALL_PixelSetGreenQuantum level;
   CALL_PixelSetBlueQuantum level; CALL_PixelSetAlphaQuantum level;
   CALL_PixelSetRedQuantum 0; CALL_PixelSetGreenQuantum 0;
   CALL_PixelSetBlueQuantum 0; CALL_PixelSetAlphaQuantum (QuantumRange env);
   CALL_MagickColorizeImage overlay_color (overlay_blend level)].

Definition processing_calls (blur opacity : D) (img : magick_image)
    : list (magick_call D) :=
  (conversion_calls img ++ blur_calls blur ++
   (if dbl_gt opacity (dbl_of_int 0)
    then overlay_calls (opacity_level opacity) else []))%list.

(** The surface cairo reads back, and what the final status check makes of
    it. *)
Definition round_trip (img : magick_image) : cairo_surface_t :=
  png_decode env (magick_encode env img).

Definition surface_ok (s : cairo_surface_t) : bool :=
  cairo_status_eqb (cairo_surface_status s) CAIRO_STATUS_SUCCESS.

Definition cairo_failure_entry (s : cairo_surface_t) : log_entry :=
  (LOG_ERROR,
   ("Failed to open background image in cairo: " ++
    cairo_status_to_string env (cairo_surface_status s) ++ ".")%string).

(** The load went on with the image as decoded: it was blurred, darkened,
    encoded and read back, nothing was logged but a failure of the final
    status check, and the result is the surface read back unless that check
    fails. *)
Definition continues_unconverted (path : string) (blur opacity : D)
    (w : world D) (img : magick_image) : Prop :=
  let unconverted := darkened opacity (blurred blur img) in
  let surface := round_trip unconverted in
  let (r, w') := load_background_image env path blur opacity w in
  r = (if surface_ok surface then Some surface else None) /\
  log w' = (if surface_ok surface then log w
            else log w ++ [cairo_failure_entry surface])%list /\
  exists before,
    engine_calls w' =
      (before ++ [CALL_MagickWriteImageFile (Some unconverted)
                    (S (next_stream w));
                  CALL_DestroyMagickWand])%list.

(** What a load holds when it returns, path by path: the wand is always
    destroyed; the stream of the image file, the temporary stream and the
    two pixel wands of the overlay are still held. *)
Definition resources_at_exit (path : string) (blur opacity : D) (w : world D)
    : Prop :=
  let (r, w') := load_background_image env path blur opacity w in
  magick_wands w' = magick_wands w /\
  match fs_open env (c_str path) with
  | inr _ =>
      r = None /\ open_streams w' = open_streams w /\
      pixel_wands w' = pixel_wands w /\
      List.length (log w') = S (List.length (log w))
  | inl data =>
      match magick_decode env data with
      | inr _ =>
          r = None /\
          open_streams w' =
            (open_streams w ++ [(next_stream w, NAMED_FILE (c_str path))])%list /\
          pixel_wands w' = pixel_wands w /\
          List.length (log w') = S (List.length (log w))
      | inl _ =>
          open_streams w' =
            (open_streams w ++ [(next_stream w, NAMED_FILE (c_str path));
                                (S (next_stream w), TEMP_FILE)])%list /\
          pixel_wands w' =
            (if dbl_gt opacity (dbl_of_int 0)
             then S (S (pixel_wands w)) else pixel_wands w)
      end
  end.

(** The file of a request opens. *)
Definition opens (request : string * D * D) : bool :=
  match fs_open env (c_str (fst (fst request))) with
  | inl _ => true
  | inr _ => false
  end.

End LoaderTerms.

Local Open Scope Q_scope.



Local Close Scope Q_scope.

(* ================================================================== *)
(** * Terms of the further properties: the stream reader *)

Section StdioTerms.
Context {F : Type} {stdio : StdioStream F}.

(** [ahead s]: the bytes the stream [s] has still to deliver. [sound s]:
    the states of the stream the contract speaks of. *)
Variable ahead : F -> list Byte.byte.
Variable sound : F -> Prop.

Definition indicator (s : F) : bool := feof s || ferror s.

(** What the loop relies on from [fread]: it stores a prefix of what is
    ahead, never more than it is asked for; when it is asked for something
    and stores nothing, an indicator is raised; and an indicator is raised
    only once nothing is left ahead. *)
Definition fread_contract : Prop :=
  forall (s : F) (n : nat), sound s ->
    let got := fst (fread s n) in
    let s' := snd (fread s n) in
    sound s' /\
    ahead s = (got ++ ahead s')%list /\
    (List.length got <= n)%nat /\
    ((0 < n)%nat -> got = [] -> indicator s' = true) /\
    (indicator s' = true -> ahead s' = []).

End StdioTerms.

(** The streams of the contract for [reading]: no error, a chunk that is
    not zero, and the end-of-file indicator raised only at the end. *)
Definition reading_sound (r : reading) : Prop :=
  r_error r = false /\ r_chunk r <> Some 0%nat /\
  (r_eof r = true -> reading_ahead r = []).

Section ReadBackTerms.
Context {D : Type} {arith : DoubleArith D}.
Variable env : collaborators D.

(** What the loader does between the processing steps and the PNG reader:
    a temporary stream, the image written to it, the stream rewound. *)
Definition written_and_rewound (wand : MagickWand) (w : world D)
    : FILE * FILE :=
  let (processedImage, w1) := tmpfile w in
  let (r, _) := MagickWriteImageFile env wand processedImage w1 in
  (snd r, fseek (snd r) 0).

(** Reading the rewound stream through [stdio_read_func] gives back the
    bytes the encoder wrote, which are the bytes the PNG reader of the
    loader decodes; one byte more is a read error; and without the rewind
    nothing can be read. *)
Definition reads_back (wand : MagickWand) (img : magick_image) (w : world D)
    : Prop :=
  let bytes := magick_encode env img in
  let (unwound, processedImage) := written_and_rewound wand w in
  (exists s',
     stdio_read_func 1 (open_reading processedImage) (List.length bytes)
       = Some (CAIRO_STATUS_SUCCESS, bytes, s') /\
     reading_ahead s' = []) /\
  cairo_image_surface_create_from_png_stream env processedImage
    = png_decode env bytes /\
  (exists s',
     stdio_read_func 1 (open_reading processedImage) (S (List.length bytes))
       = Some (CAIRO_STATUS_READ_ERROR, bytes, s')) /\
  (bytes <> [] ->
   exists s',
     stdio_read_func 1 (open_reading unwound) (List.length bytes)
       = Some (CAIRO_STATUS_READ_ERROR, [], s')).

End ReadBackTerms.

(* ================================================================== *)
(** * Terms of the further properties: the renderer *)

(** The tokens whose mode the renderer accepts. *)
Definition renderable_tokens : list string :=
  [ "stretch"%string; "fill"%string; "fit"%string; "center"%string;
    "tile"%string ].

(** The pattern TILE paints with. *)
Definition tile_pattern {D : Type} {arith : DoubleArith D}
    (image : cairo_surface_t) : cairo_pattern_t D :=
  mk_pattern image (dbl_of_int 0) (dbl_of_int 0) CAIRO_EXTEND_REPEAT.

(** [cr'] is [cr] but for the calls it received. *)
Definition unchanged_but_calls {D : Type} (cr cr' : cairo_t D) : Prop :=
  status cr' = status cr /\ gstate cr' = gstate cr /\
  saved cr' = saved cr /\ painted cr' = painted cr.

(** [cr] is in error and is [cr0] but for the calls it received. *)
Definition still_in_error {D : Type} (cr0 cr : cairo_t D) : Prop :=
  cairo_ok cr = false /\ unchanged_but_calls cr0 cr.

Local Open Scope Q_scope.

(** The calls of a render with the scale [(sx, sy)] and the source at
    [(ox, oy)], and the state the paint is carried out under. *)
Definition scaled_calls (image : cairo_surface_t) (sx sy ox oy : xdouble)
    : list (cairo_call xdouble) :=
  [ CALL_SAVE; CALL_SCALE sx sy; CALL_SET_SOURCE_SURFACE image ox oy;
    CALL_PAINT; CALL_RESTORE ].

Definition scaled_state (g : cairo_gstate_t xdouble) (image : cairo_surface_t)
    (sx sy ox oy : xdouble) : cairo_gstate_t xdouble :=
  mk_gstate (cairo_matrix_scale (ctm g) sx sy)
            (Some (mk_pattern image ox oy CAIRO_EXTEND_NONE)).

(** STRETCH in binary64: the two axes are scaled on their own, by the
    rounded [bw / w] and [bh / h], the source sits at the origin, and the
    placed image starts at the origin and has the size of the buffer up to
    rounding. *)
Definition stretch_rounded_postcondition (cairo : cairo_t xdouble)
    (image : cairo_surface_t) (buffer_width buffer_height : Z) : Prop :=
  let w := surface_width image in
  let h := surface_height image in
  exists cairo' sx sy,
    render_background_image (arith := rounded_arith) cairo image
      BACKGROUND_MODE_STRETCH buffer_width buffer_height = Some cairo' /\
    calls cairo' =
      (calls cairo ++
       scaled_calls image (XFin sx) (XFin sy) (XFin 0) (XFin 0))%list /\
    (cairo_ok cairo = true ->
     painted cairo' =
       (painted cairo ++ [rounded_render_state cairo image sx sy 0 0])%list) /\
    XFin sx = dbl_ratio buffer_width w /\
    XFin sy = dbl_ratio buffer_height h /\
    rect_left (placed_image sx sy 0 0 w h) == 0 /\
    rect_top (placed_image sx sy 0 0 w h) == 0 /\
    Qabs (rect_right (placed_image sx sy 0 0 w h) - inject_Z buffer_width)
      <= rounding_slack /\
    Qabs (rect_bottom (placed_image sx sy 0 0 w h) - inject_Z buffer_height)
      <= rounding_slack.

(** A rectangle whose centre is the centre of the buffer up to rounding:
    along each axis, what sticks out of the buffer, or what is left free
    of it, is the same on the two opposite sides up to [2 ^ -51] of the
    sizes of the buffer and of the rectangle. *)
Definition centred_up_to_rounding (r : rect) (bw bh : Z) : Prop :=
  Qabs (rect_left r + rect_right r - inject_Z bw)
    <= scale_slack * (inject_Z bw + (rect_right r - rect_left r)) /\
  Qabs (rect_top r + rect_bottom r - inject_Z bh)
    <= scale_slack * (inject_Z bh + (rect_bottom r - rect_top r)).

Definition uniform_centred_rounded (cairo : cairo_t xdouble)
    (image : cairo_surface_t) (mode : background_mode)
    (buffer_width buffer_height : Z) : Prop :=
  exists s ox oy,
    rounded_render cairo image mode buffer_width buffer_height s ox oy /\
    0 < s /\
    centred_up_to_rounding
      (placed_image s s ox oy (surface_width image) (surface_height image))
      buffer_width buffer_height.

(** The image lands on the buffer rectangle up to rounding. *)
Definition on_buffer_up_to_rounding (s ox oy : Q) (image : cairo_surface_t)
    (buffer_width buffer_height : Z) : Prop :=
  let placed :=
    placed_image s s ox oy (surface_width image) (surface_height image) in
  rect_within_up_to rounding_slack
    (buffer_rect buffer_width buffer_height) placed /\
  rect_within_up_to rounding_slack
    placed (buffer_rect buffer_width buffer_height).

(** FILL and FIT agree, in binary64: the test fails in both, the scale is
    the same, and the image lands on the buffer. *)
Definition fill_fit_agree_rounded (cairo : cairo_t xdouble)
    (image : cairo_surface_t) (buffer_width buffer_height : Z) : Prop :=
  ratio_test (surface_width image) (surface_height image)
    buffer_width buffer_height = false /\
  exists s ox oy,
    rounded_render cairo image BACKGROUND_MODE_FILL buffer_width buffer_height
      s ox 0 /\
    rounded_render cairo image BACKGROUND_MODE_FIT buffer_width buffer_height
      s 0 oy /\
    on_buffer_up_to_rounding s ox 0 image buffer_width buffer_height /\
    on_buffer_up_to_rounding s 0 oy image buffer_width buffer_height.

(** The scale was refused because it is not finite: the scale call was
    issued with an infinite factor, nothing was painted, the context is in
    error, and the state saved on entry is still on the stack. *)
Definition refused_not_finite (cairo : cairo_t xdouble)
    (image : cairo_surface_t) (result : option (cairo_t xdouble)) : Prop :=
  exists cairo' sx sy ox oy,
    result = Some cairo' /\
    calls cairo' = (calls cairo ++ scaled_calls image sx sy ox oy)%list /\
    (sx = XPInf \/ sy = XPInf) /\
    status cairo' = CAIRO_STATUS_INVALID_MATRIX /\
    painted cairo' = painted cairo /\
    gstate cairo' = gstate cairo /\
    saved cairo' = gstate cairo :: saved cairo.

(** The render went through: the context is not in error, state and stack
    are those of the caller, and one paint was carried out, with a source
    set. *)
Definition painted_once (cairo : cairo_t xdouble)
    (result : option (cairo_t xdouble)) : Prop :=
  exists cairo' g,
    result = Some cairo' /\
    status cairo' = CAIRO_STATUS_SUCCESS /\
    gstate cairo' = gstate cairo /\
    saved cairo' = saved cairo /\
    painted cairo' = (painted cairo ++ [g])%list /\
    source g <> None.

Local Close Scope Q_scope.

(* ================================================================== *)
(** * Terms of the further properties: the loader *)

Section LoaderTermsFurther.
Context {D : Type} {arith : DoubleArith D}.
Variable env : collaborators D.

(** A load either returns a surface whose status is success and logs
    nothing, or returns nothing and logs one error. *)
Definition reported (path : string) (blur opacity : D) (w : world D) : Prop :=
  let (r, w') := load_background_image env path blur opacity w in
  match r with
  | Some surface =>
      cairo_surface_status surface = CAIRO_STATUS_SUCCESS /\ log w' = log w
  | None => exists msg, log w' = (log w ++ [(LOG_ERROR, msg)])%list
  end.

(** The load stopped at [fopen]: one error with the text for [errno], and
    nothing else happened: the engine was not initialized and received no
    call, no stream, wand or pixel wand was made. *)
Definition stopped_at_open (path : string) (blur opacity : D) (w : world D)
    (err : string) : Prop :=
  let (r, w') := load_background_image env path blur opacity w in
  r = None /\
  log w' = (log w ++ [(LOG_ERROR,
              ("Failed to open background image file: " ++ err ++ ".")%string)])%list /\
  engine_calls w' = engine_calls w /\
  open_streams w' = open_streams w /\ next_stream w' = next_stream w /\
  magick_wands w' = magick_wands w /\ pixel_wands w' = pixel_wands w.

(** The load stopped at the decoder: one error with the text of the
    exception, which the program asks the engine for; the wand made and
    destroyed; no processing and no write call, no temporary stream, no
    pixel wand. *)
Definition stopped_at_decode (path : string) (blur opacity : D) (w : world D)
    (err : string) : Prop :=
  let (r, w') := load_background_image env path blur opacity w in
  r = None /\
  log w' = (log w ++ [(LOG_ERROR,
              ("Failed to load background image: " ++ err ++ ".")%string)])%list /\
  engine_calls w' =
    (engine_calls w ++
     [CALL_MagickWandGenesis; CALL_NewMagickWand;
      CALL_MagickReadImageFile (next_stream w);
      CALL_MagickGetExceptionType; CALL_MagickGetException;
      CALL_DestroyMagickWand])%list /\
  open_streams w' =
    (open_streams w ++ [(next_stream w, NAMED_FILE (c_str path))])%list /\
  magick_wands w' = magick_wands w /\ pixel_wands w' = pixel_wands w.

(** The load handed the image to the encoder as the decoder gave it: the
    engine is asked for the colorspace of the image, and the other calls
    are those of the wand, the read and the write; no pixel wand is made. *)
Definition passed_untouched (path : string) (blur opacity : D) (w : world D)
    (img : magick_image) : Prop :=
  let surface := round_trip env img in
  let (r, w') := load_background_image env path blur opacity w in
  r = (if surface_ok surface then Some surface else None) /\
  engine_calls w' =
    (engine_calls w ++
     [CALL_MagickWandGenesis; CALL_NewMagickWand;
      CALL_MagickReadImageFile (next_stream w);
      CALL_MagickGetImageColorspace;
      CALL_MagickWriteImageFile (Some img) (S (next_stream w));
      CALL_DestroyMagickWand])%list /\
  pixel_wands w' = pixel_wands w.

(** The file of a request opens and decodes. *)
Definition decodes (request : string * D * D) : bool :=
  match fs_open env (c_str (fst (fst request))) with
  | inl data =>
      match magick_decode env data with inl _ => true | inr _ => false end
  | inr _ => false
  end.

Definition is_absent (r : option cairo_surface_t) : bool :=
  match r with None => true | Some _ => false end.

(** What a run of loads leaves behind: no wand; one stream per file that
    opened and one more per file that decoded; one log entry per absent
    result. *)
Definition accumulated (requests : list (string * D * D)) (w : world D)
    : Prop :=
  let (rs, w') := load_all env requests w in
  List.length rs = List.length requests /\
  magick_wands w' = magick_wands w /\
  List.length (open_streams w') =
    (List.length (open_streams w) + List.length (filter (opens env) requests)
     + List.length (filter decodes requests))%nat /\
  List.length (log w') =
    (List.length (log w) + List.length (filter is_absent rs))%nat.

End LoaderTermsFurther.

Local Open Scope Q_scope.

(** A pixel whose four channels are quanta. *)
Definition pixel_in_range (env : collaborators xdouble) (p : pixel) : Prop :=
  let qr := inject_Z (QuantumRange env) in
  (0 <= red p /\ red p <= qr) /\ (0 <= green p /\ green p <= qr) /\
  (0 <= blue p /\ blue p <= qr) /\ (0 <= alpha p /\ alpha p <= qr).

(** [p2] is at most as bright as [p1] and at least as opaque. *)
Definition darker (p1 p2 : pixel) : Prop :=
  red p2 <= red p1 /\ green p2 <= green p1 /\ blue p2 <= blue p1 /\
  alpha p1 <= alpha p2.

(** The pixel after the overlay at [level]. *)
Definition overlaid (env : collaborators xdouble) (level : Z) (p : pixel)
    : pixel :=
  colorize_pixel env (overlay_color env) (overlay_blend level) p.

Local Close Scope Q_scope.

(* ================================================================== *)
(** * Properties of the mode parser *)

Lemma uchar_inj (a b : ascii) : uchar a = uchar b -> a = b.
Proof.
  unfold uchar; intros E.
  apply N2Z.inj in E.
  rewrite <- (ascii_N_embedding a), <- (ascii_N_embedding b).
  now rewrite E.
Qed.

Lemma uchar_NUL : uchar NUL = 0.
Proof. reflexivity. Qed.

(** [strcmp] answers 0 exactly on equal C strings. *)
Lemma strcmp_eq0 (s1 s2 : string) :
  strcmp s1 s2 = 0 <-> c_str s1 = c_str s2.
Proof.
  revert s2; induction s1 as [|c1 r1 IH]; intros [|c2 r2]; cbn [strcmp c_str].
  - tauto.
  - rewrite uchar_NUL.
    destruct (Ascii.eqb_spec c2 NUL) as [->|N].
    + rewrite uchar_NUL; tauto.
    + split; [|discriminate].
      intros E; exfalso; apply N, uchar_inj; rewrite uchar_NUL; lia.
  - rewrite uchar_NUL.
    destruct (Ascii.eqb_spec c1 NUL) as [->|N].
    + rewrite uchar_NUL; tauto.
    + split; [|discriminate].
      intros E; exfalso; apply N, uchar_inj; rewrite uchar_NUL; lia.
  - destruct (Ascii.eqb_spec c1 c2) as [<-|N12].
    + destruct (Ascii.eqb_spec c1 NUL) as [->|N]; [tauto|].
      rewrite IH; split; [now intros -> | now intros [= ->]].
    + split.
      * intros E; exfalso; apply N12, uchar_inj; lia.
      * destruct (Ascii.eqb_spec c1 NUL) as [->|N1];
          destruct (Ascii.eqb_spec c2 NUL) as [->|N2];
          try discriminate; try congruence.
        all: try (intros [= E _]; contradiction).
Qed.

Lemma strcmp_eqb (s1 s2 : string) :
  (strcmp s1 s2 =? 0) = String.eqb (c_str s1) (c_str s2).
Proof.
  destruct (String.eqb_spec (c_str s1) (c_str s2)) as [E|N].
  - apply Z.eqb_eq, strcmp_eq0, E.
  - apply Z.eqb_neq; intros E; apply N, strcmp_eq0, E.
Qed.

(** C7.  Each of the six tokens is mapped to its enumerator and nothing is
    logged; the match is case-sensitive; every other string yields
    [BACKGROUND_MODE_INVALID] and exactly one more log entry, an error.  The
    parser is a total function: it returns a value on every string. *)
Theorem parse_background_mode_spec :
  (forall tok m, In (tok, m) mode_tokens ->
     forall mode log, c_str mode = tok ->
       parse_background_mode mode log = (m, log)) /\
  (forall mode log, (forall m, ~ In (c_str mode, m) mode_tokens) ->
     parse_background_mode mode log =
       (BACKGROUND_MODE_INVALID, (log ++ [unsupported_mode_entry mode])%list)) /\
  (forall log, fst (parse_background_mode "FILL" log) = BACKGROUND_MODE_INVALID) /\
  (forall log, fst (parse_background_mode "Center" log) = BACKGROUND_MODE_INVALID).
Proof.
  split; [|split; [|split]].
  - intros tok m Hin mode log E.
    unfold parse_background_mode; rewrite !strcmp_eqb, E.
    cbn in Hin.
    repeat (destruct Hin as [[= <- <-]|Hin]; [reflexivity|]).
    contradiction.
  - intros mode log Hout.
    unfold parse_background_mode; rewrite !strcmp_eqb.
    repeat match goal with
    | |- context [String.eqb (c_str mode) (c_str ?t)] =>
        destruct (String.eqb_spec (c_str mode) (c_str t)) as [E|_];
        [ exfalso; cbn in E; eapply Hout; rewrite E; cbn; tauto | ]
    end.
    reflexivity.
  - reflexivity.
  - reflexivity.
Qed.

Lemma parse_background_mode_spec_witness :
  parse_background_mode "fit" [] = (BACKGROUND_MODE_FIT, []) /\
  parse_background_mode "blur" [] =
    (BACKGROUND_MODE_INVALID, [unsupported_mode_entry "blur"]).
Proof.
  destruct parse_background_mode_spec as (Htok & Hother & _).
  split.
  - apply (Htok "fit"%string BACKGROUND_MODE_FIT); [cbn; tauto | reflexivity].
  - apply (Hother "blur"%string []).
    intros m Hin; cbn in Hin.
    repeat (destruct Hin as [Hin|Hin]; [discriminate Hin|]).
    exact Hin.
Defined.

(* ================================================================== *)
(** * Facts on the exact doubles *)

Local Open Scope Q_scope.

Lemma Qis_zero_false (q : Q) : ~ q == 0 -> Qis_zero q = false.
Proof.
  intros N; unfold Qis_zero.
  destruct (Z.eqb_spec (Qnum q) 0) as [E|]; [|reflexivity].
  exfalso; apply N; unfold Qeq; rewrite E; reflexivity.
Qed.

Lemma xdiv_fin (x y : Q) : ~ y == 0 -> xdiv (XFin x) (XFin y) = XFin (x / y).
Proof. intros N; cbn; now rewrite (Qis_zero_false y N). Qed.

Lemma xgt_fin_true (x y : Q) : y < x -> xgt (XFin x) (XFin y) = true.
Proof. intros L; cbn; apply Qgt_alt in L; now rewrite L. Qed.

Lemma xgt_fin_false (x y : Q) : x <= y -> xgt (XFin x) (XFin y) = false.
Proof.
  intros L; cbn.
  destruct (x ?= y) eqn:E; try reflexivity.
  apply Qgt_alt in E; exfalso; apply (Qlt_irrefl x).
  eapply Qle_lt_trans; eauto.
Qed.

Lemma xeqb_fin_false (x y : Q) : ~ x == y -> xeqb (XFin x) (XFin y) = false.
Proof.
  intros N; cbn.
  destruct (Qeq_bool x y) eqn:E; [|reflexivity].
  apply Qeq_bool_iff in E; contradiction.
Qed.

Lemma inject_Z_pos (z : Z) : (0 < z)%Z -> 0 < inject_Z z.
Proof. intros L; rewrite Zlt_Qlt in L; exact L. Qed.

Lemma Qpos_neq0 (q : Q) : 0 < q -> ~ q == 0.
Proof. intros L E; rewrite E in L; exact (Qlt_irrefl 0 L). Qed.

Lemma Qdiv_pos (a b : Q) : 0 < a -> 0 < b -> 0 < a / b.
Proof. intros A B; apply Qlt_shift_div_l; [exact B | now rewrite Qmult_0_l]. Qed.

Lemma Qdiv_mult_cancel (a b : Q) : ~ b == 0 -> (a / b) * b == a.
Proof. intros N; field; exact N. Qed.

(** Comparing two ratios of positive numbers is comparing the cross
    products. *)
Lemma Qdiv_lt_cross (a b c d : Q) :
  0 < b -> 0 < d -> (a / b < c / d <-> a * d < c * b).
Proof.
  intros B D.
  assert (Ea : a / b * b == a) by (apply Qdiv_mult_cancel, Qpos_neq0, B).
  assert (Ec : c / d * d == c) by (apply Qdiv_mult_cancel, Qpos_neq0, D).
  split; intros L.
  - rewrite <- Ea, <- Ec at 1.
    setoid_replace (a / b * b * d) with (a / b * (b * d)) by ring.
    setoid_replace (c / d * d * b) with (c / d * (b * d)) by ring.
    apply Qmult_lt_compat_r; [|exact L].
    apply Qmult_lt_0_compat; [exact B | exact D].
  - apply Qnot_le_lt; intros G.
    apply (Qlt_irrefl (a * d)).
    eapply Qlt_le_trans; [exact L|].
    rewrite <- Ea, <- Ec at 1.
    setoid_replace (a / b * b * d) with (a / b * (b * d)) by ring.
    setoid_replace (c / d * d * b) with (c / d * (b * d)) by ring.
    apply Qmult_le_compat_r; [exact G|].
    apply Qlt_le_weak.
    rewrite <- (Qmult_0_l d).
    apply Qmult_lt_compat_r; [exact D | exact B].
Qed.

Lemma Qdiv_le_cross (a b c d : Q) :
  0 < b -> 0 < d -> (a / b <= c / d <-> a * d <= c * b).
Proof.
  intros B D; split; intros L.
  - apply Qnot_lt_le; intros G.
    apply (Qdiv_lt_cross c d a b D B) in G.
    exact (Qlt_irrefl _ (Qle_lt_trans _ _ _ L G)).
  - apply Qnot_lt_le; intros G.
    apply (Qdiv_lt_cross c d a b D B) in G.
    exact (Qlt_irrefl _ (Qle_lt_trans _ _ _ L G)).
Qed.

Local Close Scope Q_scope.

(* ================================================================== *)
(** * Facts on the rounded doubles *)

Local Open Scope Q_scope.

Lemma two_neq0 : ~ 2 == 0.
Proof. discriminate. Qed.

Lemma pow2_pos (e : Z) : 0 < 2 ^ e.
Proof. apply Qpower_0_lt; reflexivity. Qed.

Lemma pow2_plus (a b : Z) : 2 ^ (a + b) == 2 ^ a * 2 ^ b.
Proof. apply Qpower_plus, two_neq0. Qed.

Lemma pow2_minus (a b : Z) : 2 ^ (a - b) == 2 ^ a / 2 ^ b.
Proof. apply Qpower_minus, two_neq0. Qed.

Lemma pow2_le (a b : Z) : (a <= b)%Z -> 2 ^ a <= 2 ^ b.
Proof. intros L; apply Qpower_le_compat_l; [exact L | discriminate]. Qed.

Lemma pow2_lt (a b : Z) : (a < b)%Z -> 2 ^ a < 2 ^ b.
Proof. intros L; apply Qpower_lt_compat_l; [exact L | reflexivity]. Qed.

Lemma pow2_succ (a : Z) : 2 ^ (a + 1) == 2 * 2 ^ a.
Proof. rewrite pow2_plus. change (2 ^ 1) with 2. ring. Qed.

Lemma pow2_inject (a : Z) : (0 <= a)%Z -> inject_Z (2 ^ a) == 2 ^ a.
Proof. intros L; apply (Zpower_Qpower 2 a L). Qed.

Lemma ratio_bounds (A B N D : Q) :
  0 < A -> 0 < B -> A <= N -> N < 2 * A -> B <= D -> D < 2 * B ->
  A / (2 * B) < N / D /\ N / D < (2 * A) / B.
Proof.
  intros PA PB L1 L2 L3 L4.
  assert (PD : 0 < D) by lra.
  assert (P2B : 0 < 2 * B) by lra.
  split.
  - apply (Qdiv_lt_cross A (2 * B) N D P2B PD). nra.
  - apply (Qdiv_lt_cross N D (2 * A) B PD PB). nra.
Qed.

(** The binade is found. *)
Lemma Qlog2_spec (q : Q) :
  0 < q -> 2 ^ Qlog2 q <= q /\ q < 2 ^ (Qlog2 q + 1).
Proof.
  intros P. unfold Qlog2; cbv zeta.
  destruct q as [n d]. cbn [Qnum Qden].
  assert (Pn : (0 < n)%Z) by (unfold Qlt in P; cbn in P; lia).
  set (a := Z.log2 n). set (b := Z.log2 (Z.pos d)).
  destruct (Z.log2_spec n Pn) as [Ha1 Ha2].
  destruct (Z.log2_spec (Z.pos d) eq_refl) as [Hb1 Hb2].
  fold a in Ha1, Ha2; fold b in Hb1, Hb2.
  assert (A0 : (0 <= a)%Z) by apply Z.log2_nonneg.
  assert (B0 : (0 <= b)%Z) by apply Z.log2_nonneg.
  replace (Z.succ a) with (a + 1)%Z in Ha2 by lia.
  replace (Z.succ b) with (b + 1)%Z in Hb2 by lia.
  rewrite Zle_Qle in Ha1, Hb1. rewrite Zlt_Qlt in Ha2, Hb2.
  rewrite pow2_inject in Ha1, Hb1, Ha2, Hb2 by lia.
  rewrite pow2_succ in Ha2, Hb2.
  assert (E : n # d == inject_Z n / inject_Z (Z.pos d)) by apply Qmake_Qdiv.
  pose proof (pow2_pos a) as Pa. pose proof (pow2_pos b) as Pb.
  destruct (ratio_bounds _ _ _ _ Pa Pb Ha1 Ha2 Hb1 Hb2) as [Lo Hi].
  rewrite <- E in Lo, Hi.
  assert (E1 : 2 ^ (a - b - 1) == 2 ^ a / (2 * 2 ^ b)).
  { rewrite !pow2_minus. change (2 ^ 1) with 2.
    field. apply Qpos_neq0, Pb. }
  assert (E2 : 2 ^ (a - b + 1) == 2 * 2 ^ a / 2 ^ b).
  { rewrite pow2_succ, pow2_minus. field. apply Qpos_neq0, Pb. }
  rewrite <- E1 in Lo. rewrite <- E2 in Hi.
  destruct (Qle_bool (2 ^ (a - b)) (n # d)) eqn:T.
  - apply Qle_bool_iff in T. split; [exact T | exact Hi].
  - assert (T' : n # d < 2 ^ (a - b)).
    { apply Qnot_le_lt; intros C; apply Qle_bool_iff in C; congruence. }
    replace (a - b - 1 + 1)%Z with (a - b)%Z by lia.
    split; [apply Qlt_le_weak, Lo | exact T'].
Qed.

(** Ties-to-even rounding is within a half, and leaves integers alone. *)
Lemma round_half_even_error (q : Q) :
  Qabs (inject_Z (round_half_even q) - q) <= 1 # 2.
Proof.
  unfold round_half_even; cbv zeta.
  pose proof (Qfloor_le q) as Lo. pose proof (Qlt_floor q) as Hi.
  rewrite inject_Z_plus in Hi. change (inject_Z 1) with 1 in Hi.
  set (f := inject_Z (Qfloor q)) in *.
  apply Qabs_Qle_condition.
  destruct (Qcompare_spec (q - f) (1 # 2)) as [E|L|G].
  - destruct (Z.even (Qfloor q)).
    + fold f. split; lra.
    + rewrite inject_Z_plus; fold f; change (inject_Z 1) with 1. split; lra.
  - fold f. split; lra.
  - rewrite inject_Z_plus; fold f; change (inject_Z 1) with 1. split; lra.
Qed.

Lemma round_half_even_int (q : Q) (z : Z) :
  q == inject_Z z -> round_half_even q = z.
Proof.
  intros E. unfold round_half_even; cbv zeta.
  assert (F : Qfloor q = z) by (rewrite E; apply Qfloor_Z).
  rewrite F.
  assert (C : Qcompare (q - inject_Z z) (1 # 2) = Lt).
  { apply Qlt_alt. rewrite E. setoid_replace (inject_Z z - inject_Z z) with 0 by ring.
    reflexivity. }
  rewrite C; reflexivity.
Qed.

Lemma u64_pow : u64 == 2 ^ (-53).
Proof. reflexivity. Qed.

Lemma Qlog2_le (q : Q) (k : Z) : 0 < q -> q < 2 ^ (k + 1) -> (Qlog2 q <= k)%Z.
Proof.
  intros P L. destruct (Qlog2_spec q P) as [Lo _].
  assert (Lt : 2 ^ Qlog2 q < 2 ^ (k + 1)) by (eapply Qle_lt_trans; eassumption).
  apply Qpower_lt_compat_l_inv in Lt; [lia | reflexivity].
Qed.

Lemma Qlog2_ge (q : Q) (k : Z) : 0 < q -> 2 ^ k <= q -> (k <= Qlog2 q)%Z.
Proof.
  intros P L. destruct (Qlog2_spec q P) as [_ Hi].
  assert (Lt : 2 ^ k < 2 ^ (Qlog2 q + 1)) by (eapply Qle_lt_trans; eassumption).
  apply Qpower_lt_compat_l_inv in Lt; [lia | reflexivity].
Qed.

(** A positive rational below the overflow threshold rounds to a finite
    value within half a unit in the last place. *)
Lemma round64_pos_error (q : Q) :
  0 < q -> q <= 2 ^ 1023 ->
  exists v,
    round64_pos q = XFin v /\
    Qabs (v - q) <= 2 ^ (Z.max (Qlog2 q) (-1022) - 53).
Proof.
  intros P Hi. unfold round64_pos; cbv zeta.
  set (e := Z.max (Qlog2 q) (-1022)).
  assert (He : (e <= 1023)%Z).
  { unfold e. apply Z.max_lub; [|lia].
    apply Qlog2_le; [exact P|].
    eapply Qle_lt_trans; [exact Hi | apply pow2_lt; lia]. }
  set (ulp := 2 ^ (e - 52)).
  assert (Pu : 0 < ulp) by apply pow2_pos.
  assert (Nu := Qpos_neq0 _ Pu).
  pose proof (round_half_even_error (q / ulp)) as R.
  set (r := inject_Z (round_half_even (q / ulp))) in *.
  assert (Half : 2 ^ (e - 53) == ulp * (1 # 2)).
  { unfold ulp. replace (e - 53)%Z with (e - 52 - 1)%Z by lia.
    rewrite (pow2_minus (e - 52) 1). change (2 ^ 1) with 2. field. }
  assert (Err : Qabs (r * ulp - q) <= 2 ^ (e - 53)).
  { rewrite Half.
    setoid_replace (r * ulp - q) with ((r - q / ulp) * ulp) by (field; exact Nu).
    rewrite Qabs_Qmult, (Qabs_pos ulp) by (apply Qlt_le_weak, Pu).
    rewrite (Qmult_comm ulp). apply Qmult_le_compat_r; [exact R | apply Qlt_le_weak, Pu]. }
  assert (Fin : r * ulp < 2 ^ 1024).
  { apply Qabs_Qle_condition in Err.
    assert (B1 : 2 ^ (e - 53) <= 2 ^ 970) by (apply pow2_le; lia).
    assert (B2 : 2 ^ 1023 + 2 ^ 970 < 2 ^ 1024).
    { replace 1024%Z with (1023 + 1)%Z by lia. rewrite pow2_succ.
      assert (2 ^ 970 < 2 ^ 1023) by (apply pow2_lt; lia). lra. }
    lra. }
  destruct (Qle_bool (2 ^ 1024) (r * ulp)) eqn:T.
  - apply Qle_bool_iff in T. exfalso. apply (Qlt_irrefl (2 ^ 1024)).
    eapply Qle_lt_trans; eassumption.
  - exists (Qred (r * ulp)). split; [reflexivity|].
    rewrite Qred_correct. exact Err.
Qed.

Lemma u64_pos : 0 < u64.
Proof. reflexivity. Qed.

Lemma eta64_pos : 0 < eta64.
Proof. apply pow2_pos. Qed.

Lemma round64_pos_normal (q : Q) :
  2 ^ (-1022) <= q -> q <= 2 ^ 1023 ->
  exists v, round64_pos q = XFin v /\ Qabs (v - q) <= u64 * q.
Proof.
  intros Lo Hi.
  assert (P : 0 < q) by (eapply Qlt_le_trans; [apply (pow2_pos (-1022)) | exact Lo]).
  destruct (round64_pos_error q P Hi) as (v & E & B).
  exists v; split; [exact E|].
  assert (G : (-1022 <= Qlog2 q)%Z) by (apply Qlog2_ge; assumption).
  rewrite Z.max_l in B by exact G.
  eapply Qle_trans; [exact B|].
  replace (Qlog2 q - 53)%Z with (-53 + Qlog2 q)%Z by lia.
  rewrite pow2_plus, <- u64_pow.
  apply Qmult_le_l; [apply u64_pos|]. apply (Qlog2_spec q P).
Qed.

Lemma round64_pos_general (q : Q) :
  0 < q -> q <= 2 ^ 1023 ->
  exists v, round64_pos q = XFin v /\ Qabs (v - q) <= u64 * q + eta64.
Proof.
  intros P Hi.
  destruct (Qlt_le_dec q (2 ^ (-1022))) as [Sub|Nor].
  - destruct (round64_pos_error q P Hi) as (v & E & B).
    exists v; split; [exact E|].
    assert (G : (Qlog2 q <= -1023)%Z) by (apply Qlog2_le; assumption).
    rewrite Z.max_r in B by lia.
    change (2 ^ (-1022 - 53)) with eta64 in B.
    pose proof u64_pos. assert (0 <= u64 * q) by (apply Qmult_le_0_compat; lra). lra.
  - destruct (round64_pos_normal q Nor Hi) as (v & E & B).
    exists v; split; [exact E|]. pose proof eta64_pos. lra.
Qed.

(** Equal rationals round to the same value. *)
Lemma round64_comp (q1 q2 : Q) : q1 == q2 -> round64 q1 = round64 q2.
Proof. intros E; unfold round64; rewrite (Qred_complete q1 q2 E); reflexivity. Qed.

(** The standard model of binary64 rounding: a relative error of at most
    [2 ^ -53], or an absolute one of at most [2 ^ -1075] below the normal
    range; no overflow up to [2 ^ 1023]. *)
Lemma round64_normal (q : Q) :
  2 ^ (-1022) <= q -> q <= 2 ^ 1023 ->
  exists v, round64 q = XFin v /\ Qabs (v - q) <= u64 * q.
Proof.
  intros Lo Hi.
  assert (P : 0 < q) by (eapply Qlt_le_trans; [apply (pow2_pos (-1022)) | exact Lo]).
  unfold round64.
  assert (C : Qcompare (Qred q) 0 = Gt) by (rewrite Qred_correct; apply Qgt_alt, P).
  rewrite C.
  assert (Lo' : 2 ^ (-1022) <= Qred q) by (rewrite Qred_correct; exact Lo).
  assert (Hi' : Qred q <= 2 ^ 1023) by (rewrite Qred_correct; exact Hi).
  destruct (round64_pos_normal (Qred q) Lo' Hi') as (v & E & B).
  exists v; split; [exact E|]. rewrite Qred_correct in B. exact B.
Qed.

Lemma round64_error (q : Q) :
  Qabs q <= 2 ^ 1023 ->
  exists v, round64 q = XFin v /\ Qabs (v - q) <= u64 * Qabs q + eta64.
Proof.
  intros Hi. unfold round64.
  assert (Eq : Qred q == q) by apply Qred_correct.
  destruct (Qcompare_spec (Qred q) 0) as [E|L|G].
  - exists 0; split; [reflexivity|].
    rewrite <- Eq, E. change (Qabs (0 - 0)) with 0. change (Qabs 0) with 0.
    pose proof eta64_pos. lra.
  - assert (P : 0 < - Qred q) by lra.
    assert (H1 : - Qred q <= 2 ^ 1023).
    { rewrite Eq. rewrite <- (Qabs_neg q) by lra. exact Hi. }
    destruct (round64_pos_general (- Qred q) P H1) as (v & E & B).
    exists (- v); rewrite E; split; [reflexivity|].
    rewrite Eq in B. rewrite (Qabs_neg q) by lra.
    setoid_replace (- v - q) with (- (v - - q)) by ring.
    rewrite Qabs_opp. exact B.
  - assert (H1 : Qred q <= 2 ^ 1023).
    { rewrite Eq. rewrite <- (Qabs_pos q) by lra. exact Hi. }
    destruct (round64_pos_general (Qred q) G H1) as (v & E & B).
    exists v; split; [exact E|].
    rewrite Eq in B. rewrite (Qabs_pos q) by lra. exact B.
Qed.

(** Numbers with at most 53 significant bits are not changed. *)
Lemma round64_pos_dyadic (q : Q) (z t : Z) :
  (0 < z < 2 ^ 53)%Z -> (-1074 <= t <= 960)%Z ->
  q == inject_Z z * 2 ^ t ->
  exists v, round64_pos q = XFin v /\ v == q.
Proof.
  intros Hz Ht E.
  assert (Pz : 0 < inject_Z z) by (apply inject_Z_pos; lia).
  assert (P : 0 < q).
  { rewrite E. apply Qmult_lt_0_compat; [exact Pz | apply pow2_pos]. }
  assert (Hq : q < 2 ^ (53 + t)).
  { rewrite E, pow2_plus. apply Qmult_lt_compat_r; [apply pow2_pos|].
    rewrite <- pow2_inject by lia. rewrite <- Zlt_Qlt. lia. }
  assert (Hi : q <= 2 ^ 1023).
  { apply Qlt_le_weak. eapply Qlt_le_trans; [exact Hq | apply pow2_le; lia]. }
  unfold round64_pos; cbv zeta.
  set (e := Z.max (Qlog2 q) (-1022)).
  assert (Hk : (0 <= t - e + 52)%Z).
  { unfold e. apply Z.max_case_strong; intros _; [|lia].
    assert (Qlog2 q <= 52 + t)%Z; [|lia].
    apply Qlog2_le; [exact P|].
    replace (52 + t + 1)%Z with (53 + t)%Z by lia. exact Hq. }
  set (k := (t - e + 52)%Z) in *.
  set (ulp := 2 ^ (e - 52)).
  assert (Pu : 0 < ulp) by apply pow2_pos.
  assert (Nu := Qpos_neq0 _ Pu).
  assert (M : q / ulp == inject_Z (z * 2 ^ k)).
  { rewrite inject_Z_mult, pow2_inject by exact Hk.
    rewrite E. unfold ulp, k.
    replace (t - e + 52)%Z with (t - (e - 52))%Z by lia.
    rewrite (pow2_minus t (e - 52)).
    field. apply Qpos_neq0, pow2_pos. }
  rewrite (round_half_even_int _ _ M).
  assert (V : inject_Z (z * 2 ^ k) * ulp == q).
  { rewrite <- M. field. exact Nu. }
  destruct (Qle_bool (2 ^ 1024) (inject_Z (z * 2 ^ k) * ulp)) eqn:T.
  - apply Qle_bool_iff in T. rewrite V in T. exfalso.
    assert (2 ^ 1023 < 2 ^ 1024) by (apply pow2_lt; lia). lra.
  - eexists; split; [reflexivity|]. rewrite Qred_correct. exact V.
Qed.

Lemma round64_dyadic (z t : Z) :
  (Z.abs z < 2 ^ 53)%Z -> (-1074 <= t <= 960)%Z ->
  exists v, round64 (inject_Z z * 2 ^ t) = XFin v /\ v == inject_Z z * 2 ^ t.
Proof.
  intros Hz Ht. unfold round64.
  set (q := inject_Z z * 2 ^ t).
  assert (Eq : Qred q == q) by apply Qred_correct.
  pose proof (pow2_pos t) as Pt.
  destruct (Qcompare_spec (Qred q) 0) as [E|L|G].
  - exists 0; split; [reflexivity|]. rewrite <- Eq, E. reflexivity.
  - assert (Nz : (z < 0)%Z).
    { destruct (Z_lt_le_dec z 0) as [N|N]; [exact N|]. exfalso.
      assert (0 <= inject_Z z) by (rewrite Zle_Qle in N; exact N).
      assert (0 <= q) by (apply Qmult_le_0_compat; lra). lra. }
    destruct (round64_pos_dyadic (- Qred q) (- z) t) as (v & E & V);
      [lia | exact Ht | |].
    + rewrite Eq. unfold q. rewrite inject_Z_opp. ring.
    + exists (- v); rewrite E; split; [reflexivity|]. rewrite V, Eq. ring.
  - assert (Nz : (0 < z)%Z).
    { destruct (Z_lt_le_dec 0 z) as [N|N]; [exact N|]. exfalso.
      assert (inject_Z z <= 0) by (rewrite Zle_Qle in N; exact N).
      assert (q <= 0); [|lra].
      unfold q. setoid_replace 0 with (0 * 2 ^ t) by ring.
      apply Qmult_le_compat_r; lra. }
    destruct (round64_pos_dyadic (Qred q) z t) as (v & E & V);
      [lia | exact Ht | exact Eq |].
    exists v; split; [exact E|]. rewrite V. exact Eq.
Qed.

(** The conversion of a C [int] and its half are exact. *)
Lemma round64_int (z : Z) :
  (Z.abs z < 2 ^ 53)%Z ->
  exists v, round64 (inject_Z z) = XFin v /\ v == inject_Z z.
Proof.
  intros Hz.
  destruct (round64_dyadic z 0 Hz ltac:(lia)) as (v & E & V).
  exists v. split.
  - rewrite <- E. apply round64_comp. change (2 ^ 0) with 1. ring.
  - rewrite V. change (2 ^ 0) with 1. ring.
Qed.

Lemma round64_half (z : Z) :
  (Z.abs z < 2 ^ 53)%Z ->
  exists v, round64 (inject_Z z / 2) = XFin v /\ v == inject_Z z / 2.
Proof.
  intros Hz.
  destruct (round64_dyadic z (-1) Hz ltac:(lia)) as (v & E & V).
  exists v. split.
  - rewrite <- E. apply round64_comp. change (2 ^ (-1)) with (/ 2). reflexivity.
  - rewrite V. change (2 ^ (-1)) with (/ 2). reflexivity.
Qed.



(** ** Inequalities of the scaled render *)

(** What the rounding of the offset leaves of [s * o], in terms of
    [s * x] for the exact difference [x]. *)
Lemma scaled_offset_error (s x o e u : Q) :
  0 < s -> 0 <= u -> Qabs (o - x) <= u * Qabs x + e ->
  (0 <= x -> (1 - u) * (s * x) - s * e <= s * o /\
             s * o <= (1 + u) * (s * x) + s * e) /\
  (x <= 0 -> (1 + u) * (s * x) - s * e <= s * o /\
             s * o <= (1 - u) * (s * x) + s * e).
Proof.
  intros Ps Pu H.
  apply Qabs_Qle_condition in H. destruct H as [H1 H2].
  split; intros Sx.
  - rewrite (Qabs_pos x Sx) in H1, H2.
    assert (L : x - u * x - e <= o) by lra.
    assert (U : o <= x + u * x + e) by lra.
    split.
    + setoid_replace ((1 - u) * (s * x) - s * e) with (s * (x - u * x - e)) by ring.
      apply Qmult_le_l; assumption.
    + setoid_replace ((1 + u) * (s * x) + s * e) with (s * (x + u * x + e)) by ring.
      apply Qmult_le_l; assumption.
  - rewrite (Qabs_neg x Sx) in H1, H2.
    assert (L : x + u * x - e <= o) by lra.
    assert (U : o <= x - u * x + e) by lra.
    split.
    + setoid_replace ((1 + u) * (s * x) - s * e) with (s * (x + u * x - e)) by ring.
      apply Qmult_le_l; assumption.
    + setoid_replace ((1 - u) * (s * x) + s * e) with (s * (x - u * x + e)) by ring.
      apply Qmult_le_l; assumption.
Qed.

(** FILL along the axis that does not drive the scale.  [a], [c]: source
    and buffer size along the driving axis; [b], [d]: along the other;
    [s], [g], [o]: the rounded scale, quotient and offset; [se]: what the
    underflow term of the offset comes to once scaled. *)
Lemma fill_axis_cover (A B C D r s g o se : Q) :
  1 <= A -> 1 <= B -> 1 <= C -> 1 <= D ->
  C <= 2147483648 -> D <= 2147483648 ->
  r * A == C ->
  (1 - u64) * r <= s -> s <= (1 + u64) * r ->
  (1 - u64) * (D / 2) <= s * g -> s * g <= (1 + u64) * (D / 2) ->
  (0 <= g - B / 2 ->
     (1 - u64) * (s * (g - B / 2)) - se <= s * o /\
     s * o <= (1 + u64) * (s * (g - B / 2)) + se) ->
  (g - B / 2 <= 0 ->
     (1 + u64) * (s * (g - B / 2)) - se <= s * o /\
     s * o <= (1 - u64) * (s * (g - B / 2)) + se) ->
  0 <= se -> se <= 1 # 1152921504606846976 ->
  (1 - u64) * (A * D) <= (1 + u64) * (C * B) ->
  C - (1 # 1048576) <= s * (0 + A) /\
  s * o <= 1 # 1048576 /\
  D - (1 # 1048576) <= s * (o + B).
Proof.
  intros A1 B1 C1 D1 CM DM Er Hs1 Hs2 Hg1 Hg2 Hpos Hneg Se0 Se1 K.
  assert (Pr : 0 < r) by nra.
  assert (Ps : 0 < s) by (unfold u64 in *; nra).
  assert (RB : (1 - u64) * D <= (1 + u64) * (r * B)).
  { apply (Qmult_le_r _ _ A); [lra|].
    setoid_replace ((1 - u64) * D * A) with ((1 - u64) * (A * D)) by ring.
    setoid_replace ((1 + u64) * (r * B) * A) with ((1 + u64) * (r * A * B)) by ring.
    rewrite Er. exact K. }
  assert (SA1 : (1 - u64) * C <= s * A).
  { rewrite <- Er. setoid_replace ((1 - u64) * (r * A)) with ((1 - u64) * r * A) by ring.
    apply Qmult_le_compat_r; lra. }
  assert (SB : (1 - u64) * (r * B) <= s * B).
  { setoid_replace ((1 - u64) * (r * B)) with ((1 - u64) * r * B) by ring.
    apply Qmult_le_compat_r; lra. }
  assert (SX : s * (g - B / 2) == s * g - (s * B) / 2) by (field).
  assert (SO : s * (o + B) == s * o + s * B) by ring.
  assert (SA : s * (0 + A) == s * A) by ring.
  rewrite SA, SO.
  assert (Sign : (g - B / 2 <= 0 -> s * (g - B / 2) <= 0) /\
                 (0 <= g - B / 2 -> 0 <= s * (g - B / 2))).
  { split; intros S.
    - setoid_replace 0 with (s * 0) by ring. apply Qmult_le_l; assumption.
    - apply Qmult_le_0_compat; [apply Qlt_le_weak, Ps | exact S]. }
  destruct Sign as [Sneg Spos].
  set (P := s * g) in *. set (V := s * B) in *. set (X := s * (g - B / 2)) in *.
  set (O := s * o) in *. set (RBv := r * B) in *. set (SAv := s * A) in *.
  destruct (Qlt_le_dec (g - B / 2) 0) as [N|N].
  - destruct (Hneg (Qlt_le_weak _ _ N)) as [L U].
    pose proof (Sneg (Qlt_le_weak _ _ N)) as X0.
    clear Hpos Hneg Sneg Spos N. clearbody P V X O RBv SAv.
    unfold u64 in *. unfold Qdiv in *. change (/ 2) with (1 # 2) in *.
    repeat split; lra.
  - destruct (Hpos N) as [L U].
    pose proof (Spos N) as X0.
    clear Hpos Hneg Sneg Spos N. clearbody P V X O RBv SAv.
    unfold u64 in *. unfold Qdiv in *. change (/ 2) with (1 # 2) in *.
    repeat split; lra.
Qed.

(** FIT along the axis that does not drive the scale. *)
Lemma fit_axis_contain (A B C D r s g o se : Q) :
  1 <= A -> 1 <= B -> 1 <= C -> 1 <= D ->
  C <= 2147483648 -> D <= 2147483648 ->
  r * A == C ->
  (1 - u64) * r <= s -> s <= (1 + u64) * r ->
  (1 - u64) * (D / 2) <= s * g -> s * g <= (1 + u64) * (D / 2) ->
  (0 <= g - B / 2 ->
     (1 - u64) * (s * (g - B / 2)) - se <= s * o /\
     s * o <= (1 + u64) * (s * (g - B / 2)) + se) ->
  (g - B / 2 <= 0 ->
     (1 + u64) * (s * (g - B / 2)) - se <= s * o /\
     s * o <= (1 - u64) * (s * (g - B / 2)) + se) ->
  0 <= se -> se <= 1 # 1152921504606846976 ->
  (1 - u64) * (C * B) <= (1 + u64) * (A * D) ->
  Qabs (s * (0 + A) - C) <= 1 # 1048576 /\
  - (1 # 1048576) <= s * o /\
  s * (o + B) <= D + (1 # 1048576).
Proof.
  intros A1 B1 C1 D1 CM DM Er Hs1 Hs2 Hg1 Hg2 Hpos Hneg Se0 Se1 K.
  assert (Pr : 0 < r) by nra.
  assert (Ps : 0 < s) by (unfold u64 in *; nra).
  assert (RB : (1 - u64) * (r * B) <= (1 + u64) * D).
  { apply (Qmult_le_r _ _ A); [lra|].
    setoid_replace ((1 + u64) * D * A) with ((1 + u64) * (A * D)) by ring.
    setoid_replace ((1 - u64) * (r * B) * A) with ((1 - u64) * (r * A * B)) by ring.
    rewrite Er. exact K. }
  assert (SA1 : (1 - u64) * C <= s * A).
  { rewrite <- Er. setoid_replace ((1 - u64) * (r * A)) with ((1 - u64) * r * A) by ring.
    apply Qmult_le_compat_r; lra. }
  assert (SA2 : s * A <= (1 + u64) * C).
  { rewrite <- Er. setoid_replace ((1 + u64) * (r * A)) with ((1 + u64) * r * A) by ring.
    apply Qmult_le_compat_r; lra. }
  assert (SB : s * B <= (1 + u64) * (r * B)).
  { setoid_replace ((1 + u64) * (r * B)) with ((1 + u64) * r * B) by ring.
    apply Qmult_le_compat_r; lra. }
  assert (SX : s * (g - B / 2) == s * g - (s * B) / 2) by (field).
  assert (SO : s * (o + B) == s * o + s * B) by ring.
  assert (SA : s * (0 + A) == s * A) by ring.
  rewrite SA, SO.
  assert (Sign : (g - B / 2 <= 0 -> s * (g - B / 2) <= 0) /\
                 (0 <= g - B / 2 -> 0 <= s * (g - B / 2))).
  { split; intros S.
    - setoid_replace 0 with (s * 0) by ring. apply Qmult_le_l; assumption.
    - apply Qmult_le_0_compat; [apply Qlt_le_weak, Ps | exact S]. }
  destruct Sign as [Sneg Spos].
  set (P := s * g) in *. set (V := s * B) in *. set (X := s * (g - B / 2)) in *.
  set (O := s * o) in *. set (RBv := r * B) in *. set (SAv := s * A) in *.
  split.
  { apply Qabs_Qle_condition. clear Hpos Hneg Sneg Spos.
    clearbody P V X O RBv SAv. unfold u64 in *. split; lra. }
  destruct (Qlt_le_dec (g - B / 2) 0) as [N|N].
  - destruct (Hneg (Qlt_le_weak _ _ N)) as [L U].
    pose proof (Sneg (Qlt_le_weak _ _ N)) as X0.
    clear Hpos Hneg Sneg Spos N. clearbody P V X O RBv SAv.
    unfold u64 in *. unfold Qdiv in *. change (/ 2) with (1 # 2) in *.
    split; lra.
  - destruct (Hpos N) as [L U].
    pose proof (Spos N) as X0.
    clear Hpos Hneg Sneg Spos N. clearbody P V X O RBv SAv.
    unfold u64 in *. unfold Qdiv in *. change (/ 2) with (1 # 2) in *.
    split; lra.
Qed.

(** The scale chosen is the larger candidate (FILL) or the smaller one
    (FIT) up to the rounding of the test and of the quotient. *)
Lemma scale_near_max (r r2 s : Q) :
  0 < r -> 0 < r2 ->
  (1 - u64) * r <= s -> s <= (1 + u64) * r ->
  (1 - u64) * r2 <= (1 + u64) * r ->
  Qabs (s - Qmax r r2) <= (1 # 2251799813685248) * Qmax r r2.
Proof.
  intros Pr Pr2 Hs1 Hs2 K.
  apply Qabs_Qle_condition.
  destruct (Q.max_spec r r2) as [[L E]|[L E]]; rewrite E; unfold u64 in *;
    split; lra.
Qed.

Lemma scale_near_min (r r2 s : Q) :
  0 < r -> 0 < r2 ->
  (1 - u64) * r <= s -> s <= (1 + u64) * r ->
  (1 - u64) * r <= (1 + u64) * r2 ->
  Qabs (s - Qmin r r2) <= (1 # 2251799813685248) * Qmin r r2.
Proof.
  intros Pr Pr2 Hs1 Hs2 K.
  apply Qabs_Qle_condition.
  destruct (Q.min_spec r r2) as [[L E]|[L E]]; rewrite E; unfold u64 in *;
    split; lra.
Qed.

(** The centre of the placed image against the centre of the buffer, along
    the axis that does not drive the scale. *)
Lemma axis_centred (B D s g o se : Q) :
  1 <= B -> 1 <= D -> 0 < s ->
  (1 - u64) * (D / 2) <= s * g -> s * g <= (1 + u64) * (D / 2) ->
  (0 <= g - B / 2 ->
     (1 - u64) * (s * (g - B / 2)) - se <= s * o /\
     s * o <= (1 + u64) * (s * (g - B / 2)) + se) ->
  (g - B / 2 <= 0 ->
     (1 + u64) * (s * (g - B / 2)) - se <= s * o /\
     s * o <= (1 - u64) * (s * (g - B / 2)) + se) ->
  0 <= se -> se <= 1 # 1152921504606846976 ->
  Qabs (s * o + s * (o + B) - D)
  <= (1 # 2251799813685248) * (D + (s * (o + B) - s * o)).
Proof.
  intros B1 D1 Ps Hg1 Hg2 Hpos Hneg Se0 Se1.
  assert (SX : s * (g - B / 2) == s * g - (s * B) / 2) by (field).
  assert (SO : s * (o + B) == s * o + s * B) by ring.
  assert (PV : 0 < s * B) by (apply Qmult_lt_0_compat; lra).
  rewrite SO.
  assert (Sign : (g - B / 2 <= 0 -> s * (g - B / 2) <= 0) /\
                 (0 <= g - B / 2 -> 0 <= s * (g - B / 2))).
  { split; intros S.
    - setoid_replace 0 with (s * 0) by ring. apply Qmult_le_l; assumption.
    - apply Qmult_le_0_compat; [apply Qlt_le_weak, Ps | exact S]. }
  destruct Sign as [Sneg Spos].
  set (P := s * g) in *. set (V := s * B) in *. set (X := s * (g - B / 2)) in *.
  set (O := s * o) in *.
  apply Qabs_Qle_condition.
  destruct (Qlt_le_dec (g - B / 2) 0) as [N|N].
  - destruct (Hneg (Qlt_le_weak _ _ N)) as [L U].
    pose proof (Sneg (Qlt_le_weak _ _ N)) as X0.
    clear Hpos Hneg Sneg Spos N. clearbody P V X O.
    unfold u64 in *. unfold Qdiv in *. change (/ 2) with (1 # 2) in *.
    split; lra.
  - destruct (Hpos N) as [L U].
    pose proof (Spos N) as X0.
    clear Hpos Hneg Sneg Spos N. clearbody P V X O.
    unfold u64 in *. unfold Qdiv in *. change (/ 2) with (1 # 2) in *.
    split; lra.
Qed.

(** A closed comparison of rationals, by evaluation. *)
Ltac qnum := apply Qle_bool_imp_le; vm_compute; reflexivity.

(** ** The operations of the rounded arithmetic *)

Lemma round64_pos_canonical (q v : Q) : round64_pos q = XFin v -> Qred v = v.
Proof.
  unfold round64_pos; cbv zeta.
  set (x := inject_Z _ * _).
  destruct (Qle_bool _ x); intros E; [discriminate E|].
  assert (Ev : v = Qred x) by congruence.
  rewrite Ev. apply Qred_complete, Qred_correct.
Qed.

Lemma round64_canonical (q v : Q) : round64 q = XFin v -> Qred v = v.
Proof.
  unfold round64. destruct (Qcompare (Qred q) 0).
  - intros E. assert (Ev : v = 0) by congruence. rewrite Ev. reflexivity.
  - destruct (round64_pos (- Qred q)) as [x| | |] eqn:Ex; cbn [xopp];
      intros E; try discriminate E.
    assert (Ev : v = - x) by congruence.
    rewrite Ev, Qred_opp. now rewrite (round64_pos_canonical _ _ Ex).
  - apply round64_pos_canonical.
Qed.

Lemma round64_int_eq (z : Z) :
  (Z.abs z < 2 ^ 53)%Z -> round64 (inject_Z z) = XFin (Qred (inject_Z z)).
Proof.
  intros Hz. destruct (round64_int z Hz) as (v & E & V).
  rewrite E. f_equal.
  rewrite <- (round64_canonical _ _ E). apply Qred_complete, V.
Qed.

Lemma rounded_of_int (z : Z) :
  (Z.abs z < 2 ^ 53)%Z ->
  dbl_of_int (DoubleArith := rounded_arith) z = XFin (Qred (inject_Z z)).
Proof. apply round64_int_eq. Qed.

Lemma rounded_div (x y : Q) :
  ~ y == 0 ->
  dbl_div (DoubleArith := rounded_arith) (XFin x) (XFin y) = round64 (x / y).
Proof. intros N; cbn [dbl_div rounded_arith]; now rewrite (xdiv_fin x y N). Qed.

Lemma rounded_sub (x y : Q) :
  dbl_sub (DoubleArith := rounded_arith) (XFin x) (XFin y) = round64 (x - y).
Proof. reflexivity. Qed.

Lemma rounded_mul (x y : Q) :
  dbl_mul (DoubleArith := rounded_arith) (XFin x) (XFin y) = round64 (x * y).
Proof. reflexivity. Qed.

(** The quotient of two C [int]s. *)
Lemma rounded_int_div (c a : Z) :
  (Z.abs c < 2 ^ 53)%Z -> (Z.abs a < 2 ^ 53)%Z -> a <> 0%Z ->
  dbl_div (DoubleArith := rounded_arith)
    (dbl_of_int (DoubleArith := rounded_arith) c)
    (dbl_of_int (DoubleArith := rounded_arith) a)
  = round64 (inject_Z c / inject_Z a).
Proof.
  intros Hc Ha Na.
  rewrite (rounded_of_int c Hc), (rounded_of_int a Ha).
  assert (N : ~ Qred (inject_Z a) == 0).
  { rewrite Qred_correct. intros E. apply Na.
    apply (inject_Z_injective a 0). exact E. }
  rewrite (rounded_div _ _ N).
  apply round64_comp. now rewrite !Qred_correct.
Qed.

(** Half a C [int] is exact. *)
Lemma rounded_int_half (d : Z) :
  (Z.abs d < 2 ^ 53)%Z ->
  exists h,
    dbl_div (DoubleArith := rounded_arith)
      (dbl_of_int (DoubleArith := rounded_arith) d)
      (dbl_of_int (DoubleArith := rounded_arith) 2) = XFin h /\
    h == inject_Z d / 2.
Proof.
  intros Hd.
  rewrite (rounded_int_div d 2 Hd) by (cbn; lia).
  change (inject_Z 2) with 2. apply round64_half, Hd.
Qed.

(** A quotient or a product away from the limits of the format. *)
Lemma round64_rel (q : Q) :
  2 ^ (-1022) <= q -> q <= 2 ^ 1023 ->
  exists v,
    round64 q = XFin v /\ (1 - u64) * q <= v /\ v <= (1 + u64) * q /\ 0 < v.
Proof.
  intros Lo Hi.
  destruct (round64_normal q Lo Hi) as (v & E & B).
  exists v. split; [exact E|].
  apply Qabs_Qle_condition in B.
  assert (P : 0 < q) by (eapply Qlt_le_trans; [apply (pow2_pos (-1022)) | exact Lo]).
  unfold u64 in *. repeat split; lra.
Qed.

Lemma Qdiv_range (x y lx hx ly hy : Q) :
  0 < lx -> lx <= x -> x <= hx -> 0 < ly -> ly <= y -> y <= hy ->
  lx / hy <= x / y /\ x / y <= hx / ly.
Proof.
  intros Plx Lx Hx Ply Ly Hy.
  assert (Py : 0 < y) by lra. assert (Phy : 0 < hy) by lra.
  split.
  - apply (Qdiv_le_cross lx hy x y Phy Py). nra.
  - apply (Qdiv_le_cross x y hx ly Py Ply). nra.
Qed.

Lemma int_range (z : Z) :
  (1 <= z <= INT_MAX)%Z -> 1 <= inject_Z z /\ inject_Z z <= 2147483648.
Proof.
  intros [L H]. change INT_MAX with 2147483647%Z in H.
  split.
  - change 1 with (inject_Z 1). rewrite <- Zle_Qle. exact L.
  - change 2147483648 with (inject_Z 2147483648). rewrite <- Zle_Qle. lia.
Qed.

Lemma int_abs (z : Z) : (1 <= z <= INT_MAX)%Z -> (Z.abs z < 2 ^ 53)%Z.
Proof. intros [L H]. change INT_MAX with 2147483647%Z in H. lia. Qed.

(** The ratio of two sizes. *)
Lemma ratio_value (c a : Z) :
  (1 <= c <= INT_MAX)%Z -> (1 <= a <= INT_MAX)%Z ->
  let r := inject_Z c / inject_Z a in
  exists s,
    round64 r = XFin s /\ (1 - u64) * r <= s /\ s <= (1 + u64) * r /\
    1 # 4294967296 <= s /\ s <= 4294967296.
Proof.
  intros Hc Ha r.
  destruct (int_range c Hc) as [C1 CM]. destruct (int_range a Ha) as [A1 AM].
  destruct (Qdiv_range (inject_Z c) (inject_Z a) 1 2147483648 1 2147483648)
    as [R1 R2]; try assumption; try reflexivity.
  fold r in R1, R2.
  assert (R1' : 1 # 2147483648 <= r) by (eapply Qle_trans; [|exact R1]; qnum).
  assert (R2' : r <= 2147483648) by (eapply Qle_trans; [exact R2|]; qnum).
  destruct (round64_rel r) as (s & E & Hs1 & Hs2 & Ps).
  { eapply Qle_trans; [|exact R1']. qnum. }
  { eapply Qle_trans; [exact R2'|]. qnum. }
  exists s. split; [exact E|]. unfold u64 in *. repeat split; lra.
Qed.

(** The centring offset [d / 2 / s - b / 2], as the program computes it. *)
Lemma rounded_offset (b d : Z) (s g o : Q) :
  (1 <= b <= INT_MAX)%Z -> (1 <= d <= INT_MAX)%Z -> ~ s == 0 ->
  round64 (inject_Z d / 2 / s) = XFin g ->
  round64 (g - inject_Z b / 2) = XFin o ->
  dbl_sub (DoubleArith := rounded_arith)
    (dbl_div (DoubleArith := rounded_arith)
       (dbl_div (DoubleArith := rounded_arith)
          (dbl_of_int (DoubleArith := rounded_arith) d)
          (dbl_of_int (DoubleArith := rounded_arith) 2))
       (XFin s))
    (dbl_div (DoubleArith := rounded_arith)
       (dbl_of_int (DoubleArith := rounded_arith) b)
       (dbl_of_int (DoubleArith := rounded_arith) 2))
  = XFin o.
Proof.
  intros Hb Hd Ns Eg Eo.
  destruct (rounded_int_half d (int_abs d Hd)) as (hd & Ed & Vd).
  destruct (rounded_int_half b (int_abs b Hb)) as (hb & Eb & Vb).
  rewrite Ed, Eb, (rounded_div hd s Ns).
  rewrite (round64_comp (hd / s) (inject_Z d / 2 / s)) by now rewrite Vd.
  rewrite Eg, rounded_sub.
  rewrite (round64_comp (g - hb) (g - inject_Z b / 2)) by now rewrite Vb.
  exact Eo.
Qed.

Lemma offset_value (b d : Z) (s : Q) :
  (1 <= b <= INT_MAX)%Z -> (1 <= d <= INT_MAX)%Z ->
  1 # 4294967296 <= s -> s <= 4294967296 ->
  let B := inject_Z b in
  let D := inject_Z d in
  exists g o,
    round64 (D / 2 / s) = XFin g /\
    round64 (g - B / 2) = XFin o /\
    (1 - u64) * (D / 2) <= s * g /\ s * g <= (1 + u64) * (D / 2) /\
    (0 <= g - B / 2 ->
       (1 - u64) * (s * (g - B / 2)) - s * eta64 <= s * o /\
       s * o <= (1 + u64) * (s * (g - B / 2)) + s * eta64) /\
    (g - B / 2 <= 0 ->
       (1 + u64) * (s * (g - B / 2)) - s * eta64 <= s * o /\
       s * o <= (1 - u64) * (s * (g - B / 2)) + s * eta64) /\
    0 <= s * eta64 /\ s * eta64 <= 1 # 1152921504606846976.
Proof.
  intros Hb Hd S1 S2 B D.
  destruct (int_range b Hb) as [B1 BM]. destruct (int_range d Hd) as [D1 DM].
  fold B in B1, BM. fold D in D1, DM.
  assert (Ps : 0 < s) by lra. assert (Ns := Qpos_neq0 _ Ps).
  set (hd := D / 2).
  assert (H1 : 1 # 2 <= hd) by (unfold hd, Qdiv; change (/ 2) with (1 # 2); lra).
  assert (H2 : hd <= 1073741824)
    by (unfold hd, Qdiv; change (/ 2) with (1 # 2); lra).
  destruct (Qdiv_range hd s (1 # 2) 1073741824 (1 # 4294967296) 4294967296)
    as [R1 R2]; try assumption; try reflexivity.
  set (q2 := hd / s) in *.
  destruct (round64_rel q2) as (g & Eg & Hg1 & Hg2 & Pg).
  { eapply Qle_trans; [|exact R1]. qnum. }
  { eapply Qle_trans; [exact R2|]. qnum. }
  assert (Q2s : q2 * s == hd) by (unfold q2; field; exact Ns).
  assert (G1 : (1 - u64) * hd <= s * g).
  { rewrite <- Q2s. setoid_replace ((1 - u64) * (q2 * s)) with (s * ((1 - u64) * q2)) by ring.
    apply Qmult_le_l; assumption. }
  assert (G2 : s * g <= (1 + u64) * hd).
  { rewrite <- Q2s. setoid_replace ((1 + u64) * (q2 * s)) with (s * ((1 + u64) * q2)) by ring.
    apply Qmult_le_l; assumption. }
  assert (R2' : q2 <= 4611686018427387904) by (eapply Qle_trans; [exact R2|]; qnum).
  assert (GM : g <= 9223372036854775808) by (unfold u64 in *; lra).
  set (x := g - B / 2).
  assert (X : Qabs x <= 2 ^ 1023).
  { apply Qabs_Qle_condition.
    assert (T : 9223372036854775808 + 1073741824 <= 2 ^ 1023) by qnum.
    unfold x, Qdiv; change (/ 2) with (1 # 2). split; lra. }
  destruct (round64_error x X) as (o & Eo & Ho).
  exists g, o.
  split; [exact Eg|]. split; [exact Eo|].
  split; [exact G1|]. split; [exact G2|].
  destruct (scaled_offset_error s x o eta64 u64 Ps
              (Qlt_le_weak _ _ u64_pos) Ho) as [Hp Hn].
  split; [exact Hp|]. split; [exact Hn|].
  pose proof eta64_pos as Pe.
  split; [apply Qmult_le_0_compat; lra|].
  apply Qle_trans with (4294967296 * eta64).
  - apply Qmult_le_compat_r; lra.
  - qnum.
Qed.

Local Close Scope Q_scope.

(* ================================================================== *)
(** * Properties of the renderer: the save/restore bracket *)

Section Bracket.
Context {D : Type} {arith : DoubleArith D}.

Ltac open_bracket cr E :=
  unfold in_bracket, cairo_save, cairo_scale, cairo_set_source_surface,
    cairo_set_source, gstate_set_source, cairo_paint, cairo_called,
    cairo_set_error, cairo_ok in *;
  cbn [status gstate saved painted calls] in *;
  destruct (cairo_status_eqb (status cr) CAIRO_STATUS_SUCCESS) eqn:E.

Ltac close_bracket Hc Hf E :=
  cbn [status gstate saved painted calls cairo_status_eqb];
  rewrite ?E, ?forallb_app, ?Hf; cbn [forallb is_setup_call andb];
  split; [rewrite ?Hc, <- ?app_assoc; reflexivity | split; [reflexivity|]].

Lemma cairo_save_in_bracket (cr : cairo_t D) :
  in_bracket cr (cairo_save cr) [].
Proof.
  open_bracket cr E; close_bracket E E E; auto.
Qed.

(** The scale call comes first in the bracket: when it is refused the
    state is still the one saved. *)
Lemma cairo_scale_in_bracket cr0 cr sx sy :
  in_bracket cr0 cr [] ->
  in_bracket cr0 (cairo_scale cr sx sy) ([] ++ [CALL_SCALE sx sy]).
Proof.
  intros (Hc & Hf & Hs); open_bracket cr E.
  - destruct Hs as [Hsv Hg].
    destruct (dbl_eqb _ _); [close_bracket Hc Hf E; auto|].
    destruct (negb _); close_bracket Hc Hf E; auto.
    split; [exact Hsv | discriminate].
  - close_bracket Hc Hf E; exact Hs.
Qed.

Lemma cairo_set_source_surface_in_bracket cr0 cr setup s x y :
  in_bracket cr0 cr setup ->
  in_bracket cr0 (cairo_set_source_surface cr s x y)
    (setup ++ [CALL_SET_SOURCE_SURFACE s x y]).
Proof.
  intros (Hc & Hf & Hs); open_bracket cr E; close_bracket Hc Hf E.
  - split; [apply Hs | intros N; now apply app_eq_nil in N].
  - exact Hs.
Qed.

Lemma cairo_set_source_in_bracket cr0 cr setup p :
  in_bracket cr0 cr setup ->
  in_bracket cr0 (cairo_set_source cr p) (setup ++ [CALL_SET_SOURCE p]).
Proof.
  intros (Hc & Hf & Hs); open_bracket cr E; close_bracket Hc Hf E.
  - split; [apply Hs | intros N; now apply app_eq_nil in N].
  - exact Hs.
Qed.

(** Painting and restoring closes the bracket: the state is the one the
    bracket was opened on. *)
Lemma cairo_paint_restore_closes cr0 cr setup :
  in_bracket cr0 cr setup ->
  gstate (cairo_restore (cairo_paint cr)) = gstate cr0 /\
  (cairo_ok (cairo_restore (cairo_paint cr)) = true ->
   saved (cairo_restore (cairo_paint cr)) = saved cr0) /\
  calls (cairo_restore (cairo_paint cr)) =
    (calls cr0 ++ [CALL_SAVE] ++ setup ++ [CALL_PAINT; CALL_RESTORE])%list.
Proof.
  intros (Hc & Hf & Hs).
  unfold cairo_restore, cairo_paint, cairo_called, cairo_set_error,
    cairo_ok in *.
  cbn [status gstate saved painted calls] in *.
  destruct (cairo_status_eqb (status cr) CAIRO_STATUS_SUCCESS) eqn:E;
    cbn [status gstate saved painted calls]; rewrite E.
  - destruct Hs as [-> _]; cbn [status gstate saved calls];
      rewrite Hc, <- !app_assoc; auto.
  - cbn [status gstate saved calls]; rewrite Hc, <- !app_assoc, E.
    split; [exact Hs|]. split; [discriminate | reflexivity].
Qed.

(** C9.  For each of the five modes the renderer accepts, the calls it
    issues are a save, then scale and set-source calls only, then the
    paint and the restore, and the graphics state of the context after
    the call, its transform in particular, is the one before the call. *)
Theorem render_restores_transform (cairo : cairo_t D)
    (image : cairo_surface_t) (mode : background_mode)
    (buffer_width buffer_height : Z) :
  compositor_mode mode = true ->
  bracketed cairo
    (render_background_image cairo image mode buffer_width buffer_height).
Proof.
  intros Hmode.
  pose proof (cairo_save_in_bracket cairo) as B0.
  assert (close : forall cr setup, in_bracket cairo cr setup ->
            bracketed cairo (Some (cairo_restore (cairo_paint cr)))).
  { intros cr setup B.
    destruct (cairo_paint_restore_closes _ _ _ B) as (Hg & Hsv & Hc).
    exists (cairo_restore (cairo_paint cr)), setup.
    split; [reflexivity|]. rewrite Hg.
    repeat split; try assumption. apply B. }
  destruct mode; try discriminate Hmode; unfold render_background_image;
    cbv zeta;
    repeat match goal with
    | |- context [if ?b then _ else _] => destruct b
    end;
    eapply close;
    repeat first
      [ eapply cairo_set_source_surface_in_bracket
      | eapply cairo_set_source_in_bracket
      | eapply cairo_scale_in_bracket
      | exact B0 ].
Qed.

End Bracket.

Lemma render_restores_transform_witness :
  bracketed (D := xdouble) cairo_create
    (render_background_image cairo_create (blank_image 100 100)
       BACKGROUND_MODE_FILL 200 100).
Proof.
  apply (render_restores_transform (D := xdouble) cairo_create
           (blank_image 100 100) BACKGROUND_MODE_FILL 200 100).
  reflexivity.
Defined.

(* ================================================================== *)
(** * Properties of the renderer: geometry *)

Local Open Scope Q_scope.

Ltac exact_arith :=
  cbn [dbl_of_int dbl_div dbl_mul dbl_sub dbl_gt dbl_eqb dbl_isfinite
       dbl_to_int dbl_to_uint16 xdouble_arith].

(** The entry points of the context, one call at a time. *)
Section CairoSteps.
Context {D : Type} {arith : DoubleArith D}.
Variables (st : cairo_status_t) (g : cairo_gstate_t D)
          (sv pt : list (cairo_gstate_t D)) (cl : list (cairo_call D)).

Lemma cairo_save_eq :
  cairo_save (mk_cairo st g sv pt cl) =
    if cairo_status_eqb st CAIRO_STATUS_SUCCESS
    then mk_cairo st g (g :: sv) pt (cl ++ [CALL_SAVE])
    else mk_cairo st g sv pt (cl ++ [CALL_SAVE]).
Proof. reflexivity. Qed.

Lemma cairo_restore_eq :
  cairo_restore (mk_cairo st g sv pt cl) =
    if cairo_status_eqb st CAIRO_STATUS_SUCCESS
    then match sv with
         | g' :: rest => mk_cairo st g' rest pt (cl ++ [CALL_RESTORE])
         | [] => mk_cairo CAIRO_STATUS_INVALID_RESTORE g sv pt
                   (cl ++ [CALL_RESTORE])
         end
    else mk_cairo st g sv pt (cl ++ [CALL_RESTORE]).
Proof. reflexivity. Qed.

Lemma cairo_scale_eq (sx sy : D) :
  cairo_scale (mk_cairo st g sv pt cl) sx sy =
    if cairo_status_eqb st CAIRO_STATUS_SUCCESS
    then if dbl_eqb (dbl_mul sx sy) (dbl_of_int 0)
         then mk_cairo CAIRO_STATUS_INVALID_MATRIX g sv pt
                (cl ++ [CALL_SCALE sx sy])
         else if negb (dbl_isfinite sx && dbl_isfinite sy)
         then mk_cairo CAIRO_STATUS_INVALID_MATRIX g sv pt
                (cl ++ [CALL_SCALE sx sy])
         else mk_cairo st
                (mk_gstate (cairo_matrix_scale (ctm g) sx sy) (source g))
                sv pt (cl ++ [CALL_SCALE sx sy])
    else mk_cairo st g sv pt (cl ++ [CALL_SCALE sx sy]).
Proof. reflexivity. Qed.

Lemma cairo_set_source_surface_eq (s : cairo_surface_t) (x y : D) :
  cairo_set_source_surface (mk_cairo st g sv pt cl) s x y =
    if cairo_status_eqb st CAIRO_STATUS_SUCCESS
    then mk_cairo st
           (mk_gstate (ctm g) (Some (mk_pattern s x y CAIRO_EXTEND_NONE)))
           sv pt (cl ++ [CALL_SET_SOURCE_SURFACE s x y])
    else mk_cairo st g sv pt (cl ++ [CALL_SET_SOURCE_SURFACE s x y]).
Proof. reflexivity. Qed.

Lemma cairo_set_source_eq (p : cairo_pattern_t D) :
  cairo_set_source (mk_cairo st g sv pt cl) p =
    if cairo_status_eqb st CAIRO_STATUS_SUCCESS
    then mk_cairo st (mk_gstate (ctm g) (Some p)) sv pt
           (cl ++ [CALL_SET_SOURCE p])
    else mk_cairo st g sv pt (cl ++ [CALL_SET_SOURCE p]).
Proof. reflexivity. Qed.

Lemma cairo_paint_eq :
  cairo_paint (mk_cairo st g sv pt cl) =
    if cairo_status_eqb st CAIRO_STATUS_SUCCESS
    then mk_cairo st g sv (pt ++ [g]) (cl ++ [CALL_PAINT])
    else mk_cairo st g sv pt (cl ++ [CALL_PAINT]).
Proof. reflexivity. Qed.

End CairoSteps.

Ltac cairo_step :=
  first [ rewrite cairo_save_eq | rewrite cairo_scale_eq
        | rewrite cairo_set_source_surface_eq | rewrite cairo_set_source_eq
        | rewrite cairo_paint_eq | rewrite cairo_restore_eq ];
  cbn [cairo_status_eqb].

Local Close Scope Q_scope.

(** The test vectors of the specification, in binary64: a 100 x 100 image
    in a 200 x 100 and in a 100 x 200 buffer.  FILL scales by 2, along the
    width then along the height; FIT scales by 1, the other candidate. *)
Example fill_200_100_binary64 :
  render_calls_binary64 (blank_image 100 100) BACKGROUND_MODE_FILL 200 100
  = Some [ CALL_SAVE; CALL_SCALE 2%float 2%float;
           CALL_SET_SOURCE_SURFACE (blank_image 100 100) 0%float (-25)%float;
           CALL_PAINT; CALL_RESTORE ].
Proof. vm_compute; reflexivity. Qed.

Example fill_100_200_binary64 :
  render_calls_binary64 (blank_image 100 100) BACKGROUND_MODE_FILL 100 200
  = Some [ CALL_SAVE; CALL_SCALE 2%float 2%float;
           CALL_SET_SOURCE_SURFACE (blank_image 100 100) (-25)%float 0%float;
           CALL_PAINT; CALL_RESTORE ].
Proof. vm_compute; reflexivity. Qed.

Example fit_200_100_binary64 :
  render_calls_binary64 (blank_image 100 100) BACKGROUND_MODE_FIT 200 100
  = Some [ CALL_SAVE; CALL_SCALE 1%float 1%float;
           CALL_SET_SOURCE_SURFACE (blank_image 100 100) 50%float 0%float;
           CALL_PAINT; CALL_RESTORE ].
Proof. vm_compute; reflexivity. Qed.

Example fit_100_200_binary64 :
  render_calls_binary64 (blank_image 100 100) BACKGROUND_MODE_FIT 100 200
  = Some [ CALL_SAVE; CALL_SCALE 1%float 1%float;
           CALL_SET_SOURCE_SURFACE (blank_image 100 100) 0%float 50%float;
           CALL_PAINT; CALL_RESTORE ].
Proof. vm_compute; reflexivity. Qed.

Example stretch_300_150_binary64 :
  render_calls_binary64 (blank_image 100 100) BACKGROUND_MODE_STRETCH 300 150
  = Some [ CALL_SAVE; CALL_SCALE 3%float 1.5%float;
           CALL_SET_SOURCE_SURFACE (blank_image 100 100) 0%float 0%float;
           CALL_PAINT; CALL_RESTORE ].
Proof. vm_compute; reflexivity. Qed.

(* ================================================================== *)
(** * Properties of the renderer: CENTER *)

(** ** Truncation *)

Lemma Qtrunc_nonneg (q : Q) : (0 <= q)%Q -> Qtrunc q = Qfloor q.
Proof.
  destruct q as [n d]; unfold Qle, Qtrunc, Qfloor; cbn [Qnum Qden]; intros L.
  apply Z.quot_div_nonneg; lia.
Qed.

Lemma Qtrunc_nonpos (q : Q) : (q <= 0)%Q -> Qtrunc q = Qceiling q.
Proof.
  destruct q as [n d]; unfold Qle, Qtrunc, Qceiling, Qfloor, Qopp;
    cbn [Qnum Qden]; intros L.
  rewrite <- (Z.opp_involutive n) at 1.
  rewrite Z.quot_opp_l by lia.
  f_equal; apply Z.quot_div_nonneg; lia.
Qed.

(** Half the difference of two integers, as the renderer computes it. *)
Lemma Qtrunc_half_diff (a b : Z) :
  Qtrunc (inject_Z a / 2 - inject_Z b / 2) = Z.quot (a - b) 2.
Proof.
  unfold Qtrunc, Qdiv, Qminus, Qplus, Qmult, Qopp, Qinv, inject_Z;
    cbn [Qnum Qden].
  replace (a * 1 * Zpos (1 * 2) + - (b * 1) * Zpos (1 * 2))
    with ((a - b) * 2) by (cbn; lia).
  change (Zpos (1 * 2 * (1 * 2))) with (2 * 2).
  apply Z.quot_mul_cancel_r; lia.
Qed.

Lemma half_diff_sign (a b : Z) :
  (b <= a -> (0 <= inject_Z a / 2 - inject_Z b / 2)%Q) /\
  (a <= b -> (inject_Z a / 2 - inject_Z b / 2 <= 0)%Q).
Proof.
  split; intros L; rewrite Zle_Qle in L;
    set (x := inject_Z a) in *; set (y := inject_Z b) in *; clearbody x y;
    unfold Qdiv; change (/ 2)%Q with (1 # 2)%Q; lra.
Qed.

Lemma x_to_int_half_diff (a b : Z) :
  is_int a -> is_int b -> 0 <= b ->
  x_to_int (XFin (inject_Z a / 2 - inject_Z b / 2)) = Z.quot (a - b) 2.
Proof.
  unfold is_int, INT_MIN, INT_MAX; intros A B Bpos.
  unfold x_to_int; cbv zeta; rewrite Qtrunc_half_diff.
  assert (R : - 2 ^ 31 <= Z.quot (a - b) 2 <= 2 ^ 31 - 1).
  { pose proof (Z.quot_rem' (a - b) 2) as E.
    pose proof (Z.rem_bound_abs (a - b) 2 ltac:(lia)) as Rb.
    lia. }
  unfold INT_MIN, INT_MAX.
  destruct (Z.leb_spec (- 2 ^ 31) (Z.quot (a - b) 2));
    destruct (Z.leb_spec (Z.quot (a - b) 2) (2 ^ 31 - 1)); cbn [andb];
    solve [reflexivity | lia].
Qed.

Local Open Scope Q_scope.

Lemma center_render_trace (cr : cairo_t xdouble) (image : cairo_surface_t)
    (ox oy : Z) :
  let cr' :=
    cairo_restore (cairo_paint (cairo_set_source_surface (cairo_save cr)
      image (XFin (inject_Z ox)) (XFin (inject_Z oy)))) in
  calls cr' = (calls cr ++ center_render_calls image ox oy)%list /\
  (cairo_ok cr = true ->
   painted cr' = (painted cr ++ [center_render_state cr image ox oy])%list).
Proof.
  destruct cr as [st g sv pt cl].
  unfold center_render_calls, center_render_state, cairo_ok.
  destruct st; cbv zeta; repeat cairo_step;
    cbn [calls painted status gstate ctm cairo_status_eqb];
    rewrite <- !app_assoc; (split; [reflexivity|]);
    first [reflexivity | discriminate].
Qed.

(** C3, as the code has it.  CENTER on a positive-size image and any
    buffer size (all of them C ints): no scaling; the offsets are
    [bufferDim/2 - srcDim/2] truncated toward zero, which is the floor when
    the difference is not negative and the ceiling when it is not
    positive. *)
Theorem render_center_truncates (cairo : cairo_t xdouble)
    (image : cairo_surface_t) (buffer_width buffer_height : Z) :
  (0 < surface_width image)%Z -> (0 < surface_height image)%Z ->
  is_int (surface_width image) -> is_int (surface_height image) ->
  is_int buffer_width -> is_int buffer_height ->
  center_postcondition cairo image buffer_width buffer_height.
Proof.
  intros w_pos h_pos w_int h_int bw_int bh_int.
  unfold center_postcondition; cbv zeta.
  set (w := surface_width image) in *; set (h := surface_height image) in *.
  assert (N2 : ~ 2 == 0) by discriminate.
  unfold render_background_image, cairo_image_surface_get_width,
    cairo_image_surface_get_height; cbv zeta; exact_arith.
  fold w h; change (inject_Z 2) with 2.
  rewrite !(fun x => xdiv_fin x 2 N2); cbn [xsub].
  rewrite (x_to_int_half_diff buffer_width w bw_int w_int ltac:(lia)).
  rewrite (x_to_int_half_diff buffer_height h bh_int h_int ltac:(lia)).
  destruct (center_render_trace cairo image
              (Z.quot (buffer_width - w) 2) (Z.quot (buffer_height - h) 2))
    as [Hc Hp].
  eexists; exists (Z.quot (buffer_width - w) 2), (Z.quot (buffer_height - h) 2).
  split; [reflexivity|]. split; [exact Hc|]. split; [exact Hp|].
  rewrite <- !Qtrunc_half_diff.
  destruct (half_diff_sign buffer_width w) as [Xp Xn].
  destruct (half_diff_sign buffer_height h) as [Yp Yn].
  repeat split; auto using Qtrunc_nonneg, Qtrunc_nonpos.
Qed.

Local Close Scope Q_scope.

Lemma render_center_truncates_witness :
  center_postcondition cairo_create (blank_image 50 50) 101 101.
Proof.
  apply render_center_truncates; unfold is_int, INT_MIN, INT_MAX; cbn; lia.
Defined.

(** The example of the specification: a 50 x 50 image centred in a
    101 x 101 buffer sits at (25, 25), in the exact arithmetic and in
    binary64. *)
Example center_101_50 :
  option_map calls
    (render_background_image (D := xdouble) cairo_create (blank_image 50 50)
       BACKGROUND_MODE_CENTER 101 101)
  = Some (center_render_calls (blank_image 50 50) 25 25) /\
  option_map calls
    (render_background_image (D := float) cairo_create (blank_image 50 50)
       BACKGROUND_MODE_CENTER 101 101)
  = Some [ CALL_SAVE;
           CALL_SET_SOURCE_SURFACE (blank_image 50 50) 25%float 25%float;
           CALL_PAINT; CALL_RESTORE ].
Proof. split; vm_compute; reflexivity. Qed.

(** C3, as the specification words it, fails: an image one pixel wider and
    taller than the buffer is placed at (0, 0), the truncation of -1/2,
    while the floor of -1/2 is -1. *)
Lemma render_center_not_floor :
  option_map calls
    (render_background_image (D := xdouble) cairo_create (blank_image 101 101)
       BACKGROUND_MODE_CENTER 100 100)
  = Some (center_render_calls (blank_image 101 101) 0 0) /\
  Qfloor (inject_Z 100 / 2 - inject_Z 101 / 2) = (-1)%Z /\
  option_map calls
    (render_background_image (D := float) cairo_create (blank_image 101 101)
       BACKGROUND_MODE_CENTER 100 100)
  = Some [ CALL_SAVE;
           CALL_SET_SOURCE_SURFACE (blank_image 101 101) 0%float 0%float;
           CALL_PAINT; CALL_RESTORE ].
Proof. split; [|split]; vm_compute; reflexivity. Qed.

(* ================================================================== *)
(** * Properties of the renderer: divisions *)

(** ** The calls issued, whatever the status of the context *)

Section CallsIssued.
Context {D : Type} {arith : DoubleArith D}.

Lemma calls_cairo_save (cr : cairo_t D) :
  calls (cairo_save cr) = (calls cr ++ [CALL_SAVE])%list.
Proof. unfold cairo_save; cbv zeta; destruct (cairo_ok _); reflexivity. Qed.

Lemma calls_cairo_scale (cr : cairo_t D) (sx sy : D) :
  calls (cairo_scale cr sx sy) = (calls cr ++ [CALL_SCALE sx sy])%list.
Proof.
  unfold cairo_scale; cbv zeta; destruct (cairo_ok _); [|reflexivity].
  destruct (dbl_eqb _ _); [reflexivity|].
  destruct (negb _); reflexivity.
Qed.

Lemma calls_cairo_set_source_surface (cr : cairo_t D) s (x y : D) :
  calls (cairo_set_source_surface cr s x y)
  = (calls cr ++ [CALL_SET_SOURCE_SURFACE s x y])%list.
Proof.
  unfold cairo_set_source_surface, gstate_set_source.
  destruct (cairo_ok _); reflexivity.
Qed.

Lemma calls_cairo_set_source (cr : cairo_t D) p :
  calls (cairo_set_source cr p) = (calls cr ++ [CALL_SET_SOURCE p])%list.
Proof.
  unfold cairo_set_source, gstate_set_source.
  destruct (cairo_ok _); reflexivity.
Qed.

Lemma calls_cairo_paint (cr : cairo_t D) :
  calls (cairo_paint cr) = (calls cr ++ [CALL_PAINT])%list.
Proof. unfold cairo_paint; cbv zeta; destruct (cairo_ok _); reflexivity. Qed.

Lemma calls_cairo_restore (cr : cairo_t D) :
  calls (cairo_restore cr) = (calls cr ++ [CALL_RESTORE])%list.
Proof.
  unfold cairo_restore; cbv zeta; destruct (cairo_ok _); [|reflexivity].
  destruct (saved _); reflexivity.
Qed.

End CallsIssued.

Ltac calls_issued :=
  rewrite ?calls_cairo_restore, ?calls_cairo_paint,
    ?calls_cairo_set_source_surface, ?calls_cairo_set_source,
    ?calls_cairo_scale, ?calls_cairo_save, <- ?app_assoc;
  cbn [app].

Local Open Scope Q_scope.

Lemma Qdiv_neq0 (a b : Q) : ~ a == 0 -> ~ b == 0 -> ~ a / b == 0.
Proof.
  intros A B E; apply A.
  rewrite <- (Qdiv_mult_cancel a b B), E; ring.
Qed.

Lemma nonzero_finite_fin (q : Q) : ~ q == 0 -> nonzero_finite (XFin q) = true.
Proof. intros N; cbn; now rewrite (Qis_zero_false q N). Qed.

(** C10, with the precondition the code needs.  When the image width and
    height and the buffer height are positive and the buffer width is not
    zero, every divisor the renderer meets is finite and not zero, and the
    scales and offsets it hands to the context are finite. *)
Theorem render_geometry_total (cairo : cairo_t xdouble)
    (image : cairo_surface_t) (mode : background_mode)
    (buffer_width buffer_height : Z) :
  compositor_mode mode = true ->
  (0 < surface_width image)%Z -> (0 < surface_height image)%Z ->
  (0 < buffer_height)%Z -> buffer_width <> 0%Z ->
  geometry_total cairo image mode buffer_width buffer_height.
Proof.
  intros Hmode w_pos h_pos bh_pos bw_nz.
  set (W := inject_Z (surface_width image)).
  set (H := inject_Z (surface_height image)).
  set (BW := inject_Z buffer_width). set (BH := inject_Z buffer_height).
  assert (NW : ~ W == 0) by apply Qpos_neq0, inject_Z_pos, w_pos.
  assert (NH : ~ H == 0) by apply Qpos_neq0, inject_Z_pos, h_pos.
  assert (NBH : ~ BH == 0) by apply Qpos_neq0, inject_Z_pos, bh_pos.
  assert (NBW : ~ BW == 0).
  { intros E; apply bw_nz. now apply (inject_Z_injective buffer_width 0). }
  assert (N2 : ~ 2 == 0) by discriminate.
  assert (NSW := Qdiv_neq0 BW W NBW NW).
  assert (NSH := Qdiv_neq0 BH H NBH NH).
  unfold geometry_total, render_divisors, render_background_image,
    cairo_image_surface_get_width, cairo_image_surface_get_height; cbv zeta.
  destruct mode; try discriminate Hmode; exact_arith;
    fold W H BW BH; change (inject_Z 2) with 2;
    rewrite ?(xdiv_fin BW BH NBH), ?(xdiv_fin W H NH);
    try destruct (xgt _ _);
    rewrite ?(xdiv_fin BW W NW), ?(xdiv_fin BH H NH),
      ?(fun x => xdiv_fin x 2 N2), ?(fun x => xdiv_fin x _ NSW),
      ?(fun x => xdiv_fin x _ NSH);
    cbn [xsub app forallb];
    rewrite ?nonzero_finite_fin by assumption;
    (split; [reflexivity|]);
    eexists; eexists; (split; [reflexivity|]);
    calls_issued; (split; [reflexivity|]); reflexivity.
Qed.

Local Close Scope Q_scope.

Lemma render_geometry_total_witness :
  geometry_total cairo_create (blank_image 100 100) BACKGROUND_MODE_FIT 200 100.
Proof.
  apply (render_geometry_total cairo_create (blank_image 100 100)
           BACKGROUND_MODE_FIT 200 100);
    [reflexivity | reflexivity | reflexivity | reflexivity | discriminate].
Defined.

(** C10, as the specification words it, fails: FIT on a 1 x 1 image and a
    buffer of width 0 and height 1 meets the precondition, takes the branch
    that scales by [bw / w = 0], divides by that scale and hands an infinite
    offset to the context, in the exact arithmetic and in binary64. *)
Lemma render_fit_zero_width_not_total :
  let image := blank_image 1 1 in
  (0 < surface_width image /\ 0 < surface_height image /\ 0 < 1) /\
  render_divisors (D := xdouble) image BACKGROUND_MODE_FIT 0 1
    = [XFin 1; XFin 1; XFin 1; XFin 2; XFin 0; XFin 2] /\
  option_map calls
    (render_background_image (D := xdouble) cairo_create image
       BACKGROUND_MODE_FIT 0 1)
    = Some [ CALL_SAVE; CALL_SCALE (XFin 0) (XFin 0);
             CALL_SET_SOURCE_SURFACE image (XFin 0) XPInf;
             CALL_PAINT; CALL_RESTORE ] /\
  ~ geometry_total cairo_create image BACKGROUND_MODE_FIT 0 1 /\
  render_calls_binary64 image BACKGROUND_MODE_FIT 0 1
    = Some [ CALL_SAVE; CALL_SCALE 0%float 0%float;
             CALL_SET_SOURCE_SURFACE image 0%float infinity;
             CALL_PAINT; CALL_RESTORE ].
Proof.
  cbv zeta.
  split; [cbn; lia|].
  split; [vm_compute; reflexivity|].
  split; [vm_compute; reflexivity|].
  split; [|vm_compute; reflexivity].
  intros [Hd _]; vm_compute in Hd; discriminate Hd.
Qed.

(* ================================================================== *)
(** * Properties of the renderer: FILL, FIT and STRETCH in binary64 *)

Local Open Scope Q_scope.

(** The pipeline of a scaled render, in any arithmetic, when the context
    accepts the scale. *)
Lemma scaled_pipeline {D : Type} {arith : DoubleArith D} (cr : cairo_t D)
    (image : cairo_surface_t) (sx sy ox oy : D) :
  dbl_eqb (dbl_mul sx sy) (dbl_of_int 0) = false ->
  dbl_isfinite sx && dbl_isfinite sy = true ->
  let cr' :=
    cairo_restore (cairo_paint (cairo_set_source_surface
      (cairo_scale (cairo_save cr) sx sy) image ox oy)) in
  calls cr' =
    (calls cr ++ [CALL_SAVE; CALL_SCALE sx sy;
                  CALL_SET_SOURCE_SURFACE image ox oy;
                  CALL_PAINT; CALL_RESTORE])%list /\
  (cairo_ok cr = true ->
   painted cr' =
     (painted cr ++
      [mk_gstate (cairo_matrix_scale (ctm (gstate cr)) sx sy)
         (Some (mk_pattern image ox oy CAIRO_EXTEND_NONE))])%list /\
   status cr' = CAIRO_STATUS_SUCCESS /\
   gstate cr' = gstate cr /\ saved cr' = saved cr).
Proof.
  intros Z F; cbv zeta.
  split; [calls_issued; reflexivity|].
  destruct cr as [st g sv pt cl]; unfold cairo_ok; cbn [status gstate].
  destruct st; cbn [cairo_status_eqb]; intros Hok; try discriminate Hok.
  cairo_step; cairo_step; rewrite Z, F; cbn [negb].
  repeat cairo_step. cbn [painted status gstate saved ctm source].
  repeat split.
Qed.

(** A scale between [2 ^ -32] and [2 ^ 32] is accepted. *)
Lemma rounded_scale_accepted (sx sy : Q) :
  1 # 4294967296 <= sx -> sx <= 4294967296 ->
  1 # 4294967296 <= sy -> sy <= 4294967296 ->
  dbl_eqb (DoubleArith := rounded_arith)
    (dbl_mul (DoubleArith := rounded_arith) (XFin sx) (XFin sy))
    (dbl_of_int (DoubleArith := rounded_arith) 0) = false /\
  dbl_isfinite (DoubleArith := rounded_arith) (XFin sx)
  && dbl_isfinite (DoubleArith := rounded_arith) (XFin sy) = true.
Proof.
  intros X1 X2 Y1 Y2. split; [|reflexivity].
  rewrite rounded_mul.
  assert (P1 : (1 # 4294967296) * (1 # 4294967296) <= sx * sy) by nra.
  assert (P2 : sx * sy <= 4294967296 * 4294967296) by nra.
  destruct (round64_rel (sx * sy)) as (v & E & _ & _ & Pv).
  { eapply Qle_trans; [|exact P1]. qnum. }
  { eapply Qle_trans; [exact P2|]. qnum. }
  rewrite E.
  change (dbl_of_int (DoubleArith := rounded_arith) 0) with (XFin 0).
  apply xeqb_fin_false. lra.
Qed.

(** What the test says of the exact ratios. *)
Lemma ratio_test_true (W H BW BH wr br : Q) :
  0 < W -> 0 < H -> 0 < BW -> 0 < BH ->
  wr <= (1 + u64) * (BW / BH) -> (1 - u64) * (W / H) <= br -> br < wr ->
  (1 - u64) * (W * BH) <= (1 + u64) * (BW * H).
Proof.
  intros PW PH PBW PBH Hw Hb L.
  assert (E1 : W / H * H == W) by (field; lra).
  assert (E2 : BW / BH * BH == BW) by (field; lra).
  set (rw := W / H) in *. set (rb := BW / BH) in *.
  rewrite <- E1, <- E2.
  setoid_replace ((1 - u64) * (rw * H * BH)) with ((1 - u64) * rw * (H * BH)) by ring.
  setoid_replace ((1 + u64) * (rb * BH * H)) with ((1 + u64) * rb * (H * BH)) by ring.
  apply Qmult_le_compat_r; [lra|].
  apply Qlt_le_weak, Qmult_lt_0_compat; assumption.
Qed.

Lemma ratio_test_false (W H BW BH wr br : Q) :
  0 < W -> 0 < H -> 0 < BW -> 0 < BH ->
  (1 - u64) * (BW / BH) <= wr -> br <= (1 + u64) * (W / H) -> wr <= br ->
  (1 - u64) * (BW * H) <= (1 + u64) * (W * BH).
Proof.
  intros PW PH PBW PBH Hw Hb L.
  assert (E1 : W / H * H == W) by (field; lra).
  assert (E2 : BW / BH * BH == BW) by (field; lra).
  set (rw := W / H) in *. set (rb := BW / BH) in *.
  rewrite <- E1, <- E2.
  setoid_replace ((1 - u64) * (rb * BH * H)) with ((1 - u64) * rb * (H * BH)) by ring.
  setoid_replace ((1 + u64) * (rw * H * BH)) with ((1 + u64) * rw * (H * BH)) by ring.
  apply Qmult_le_compat_r; [lra|].
  apply Qlt_le_weak, Qmult_lt_0_compat; assumption.
Qed.

(** The two candidate scales compare as the cross products do. *)
Lemma candidates_compare (A B C D : Q) :
  0 < A -> 0 < B ->
  (1 - u64) * (A * D) <= (1 + u64) * (C * B) ->
  (1 - u64) * (D / B) <= (1 + u64) * (C / A).
Proof.
  intros PA PB K.
  apply (Qmult_le_r _ _ (A * B)); [apply Qmult_lt_0_compat; assumption|].
  setoid_replace ((1 - u64) * (D / B) * (A * B)) with ((1 - u64) * (A * D))
    by (field; lra).
  setoid_replace ((1 + u64) * (C / A) * (A * B)) with ((1 + u64) * (C * B))
    by (field; lra).
  exact K.
Qed.

Section RoundedRender.
Variables (cairo : cairo_t xdouble) (image : cairo_surface_t).
Variables (buffer_width buffer_height : Z).
Let w := surface_width image.
Let h := surface_height image.
Hypothesis w_size : is_size w.
Hypothesis h_size : is_size h.
Hypothesis bw_size : is_size buffer_width.
Hypothesis bh_size : is_size buffer_height.

Let W := inject_Z w.
Let H := inject_Z h.
Let BW := inject_Z buffer_width.
Let BH := inject_Z buffer_height.

(** The values the two modes compute: the two ratios of the test, the two
    candidate scales and, for each, the offset that centres the other
    axis. *)
Lemma uniform_values :
  exists wr br sw sh gw ow gh oh,
    dbl_ratio buffer_width buffer_height = XFin wr /\
    dbl_ratio w h = XFin br /\
    dbl_ratio buffer_width w = XFin sw /\
    dbl_ratio buffer_height h = XFin sh /\
    dbl_centre buffer_height h (XFin sw) = XFin ow /\
    dbl_centre buffer_width w (XFin sh) = XFin oh /\
    ((1 - u64) * (BW / BH) <= wr /\ wr <= (1 + u64) * (BW / BH)) /\
    ((1 - u64) * (W / H) <= br /\ br <= (1 + u64) * (W / H)) /\
    ((1 - u64) * (BW / W) <= sw /\ sw <= (1 + u64) * (BW / W) /\
     1 # 4294967296 <= sw /\ sw <= 4294967296) /\
    ((1 - u64) * (BH / H) <= sh /\ sh <= (1 + u64) * (BH / H) /\
     1 # 4294967296 <= sh /\ sh <= 4294967296) /\
    ((1 - u64) * (BH / 2) <= sw * gw /\ sw * gw <= (1 + u64) * (BH / 2) /\
     (0 <= gw - H / 2 ->
        (1 - u64) * (sw * (gw - H / 2)) - sw * eta64 <= sw * ow /\
        sw * ow <= (1 + u64) * (sw * (gw - H / 2)) + sw * eta64) /\
     (gw - H / 2 <= 0 ->
        (1 + u64) * (sw * (gw - H / 2)) - sw * eta64 <= sw * ow /\
        sw * ow <= (1 - u64) * (sw * (gw - H / 2)) + sw * eta64) /\
     0 <= sw * eta64 /\ sw * eta64 <= 1 # 1152921504606846976) /\
    ((1 - u64) * (BW / 2) <= sh * gh /\ sh * gh <= (1 + u64) * (BW / 2) /\
     (0 <= gh - W / 2 ->
        (1 - u64) * (sh * (gh - W / 2)) - sh * eta64 <= sh * oh /\
        sh * oh <= (1 + u64) * (sh * (gh - W / 2)) + sh * eta64) /\
     (gh - W / 2 <= 0 ->
        (1 + u64) * (sh * (gh - W / 2)) - sh * eta64 <= sh * oh /\
        sh * oh <= (1 - u64) * (sh * (gh - W / 2)) + sh * eta64) /\
     0 <= sh * eta64 /\ sh * eta64 <= 1 # 1152921504606846976).
Proof.
  destruct (ratio_value buffer_width buffer_height bw_size bh_size)
    as (wr & Ewr & Hwr1 & Hwr2 & _).
  destruct (ratio_value w h w_size h_size) as (br & Ebr & Hbr1 & Hbr2 & _).
  destruct (ratio_value buffer_width w bw_size w_size)
    as (sw & Esw & Hsw1 & Hsw2 & Lsw & Usw).
  destruct (ratio_value buffer_height h bh_size h_size)
    as (sh & Esh & Hsh1 & Hsh2 & Lsh & Ush).
  destruct (offset_value h buffer_height sw h_size bh_size Lsw Usw)
    as (gw & ow & Egw & Eow & Hgw).
  destruct (offset_value w buffer_width sh w_size bw_size Lsh Ush)
    as (gh & oh & Egh & Eoh & Hgh).
  cbv zeta in *.
  assert (Nsw : ~ sw == 0) by lra. assert (Nsh : ~ sh == 0) by lra.
  assert (Nz : forall z, is_size z -> z <> 0%Z) by (unfold is_size; intros; lia).
  exists wr, br, sw, sh, gw, ow, gh, oh.
  unfold dbl_ratio.
  rewrite !rounded_int_div by auto using int_abs.
  fold W H BW BH.
  split; [exact Ewr|]. split; [exact Ebr|].
  split; [exact Esw|]. split; [exact Esh|].
  split; [exact (rounded_offset h buffer_height sw gw ow h_size bh_size Nsw Egw Eow)|].
  split; [exact (rounded_offset w buffer_width sh gh oh w_size bw_size Nsh Egh Eoh)|].
  split; [split; assumption|]. split; [split; assumption|].
  split; [repeat split; assumption|]. split; [repeat split; assumption|].
  split; [exact Hgw | exact Hgh].
Qed.

Ltac uniform_setup :=
  destruct uniform_values
    as (wr & br & sw & sh & gw & ow & gh & oh & Ewr & Ebr & Esw & Esh &
        Eow & Eoh & (Hwr1 & Hwr2) & (Hbr1 & Hbr2) &
        (Hsw1 & Hsw2 & Lsw & Usw) & (Hsh1 & Hsh2 & Lsh & Ush) &
        (Hgw1 & Hgw2 & Hpw & Hnw & Sew0 & Sew1) &
        (Hgh1 & Hgh2 & Hph & Hnh & Seh0 & Seh1));
  destruct (int_range w w_size) as [W1 WM];
  destruct (int_range h h_size) as [H1 HM];
  destruct (int_range buffer_width bw_size) as [BW1 BWM];
  destruct (int_range buffer_height bh_size) as [BH1 BHM];
  fold W in W1, WM; fold H in H1, HM; fold BW in BW1, BWM;
  fold BH in BH1, BHM;
  destruct (rounded_scale_accepted sw sw Lsw Usw Lsw Usw) as [Zw Fw];
  destruct (rounded_scale_accepted sh sh Lsh Ush Lsh Ush) as [Zh Fh].

(** The render of FILL and FIT, once the test is settled. *)
Lemma rounded_render_by_width (mode : background_mode) (sw ow : Q) :
  dbl_eqb (DoubleArith := rounded_arith)
    (dbl_mul (DoubleArith := rounded_arith) (XFin sw) (XFin sw))
    (dbl_of_int (DoubleArith := rounded_arith) 0) = false ->
  render_background_image (arith := rounded_arith) cairo image mode
    buffer_width buffer_height
  = Some (cairo_restore (cairo_paint (cairo_set_source_surface
      (cairo_scale (arith := rounded_arith) (cairo_save cairo)
         (XFin sw) (XFin sw))
      image (XFin 0) (XFin ow)))) ->
  rounded_render cairo image mode buffer_width buffer_height sw 0 ow.
Proof.
  intros Z E. unfold rounded_render. rewrite E.
  eexists; split; [reflexivity|].
  destruct (scaled_pipeline (arith := rounded_arith) cairo image
              (XFin sw) (XFin sw) (XFin 0) (XFin ow) Z eq_refl) as [Hc Hp].
  split; [exact Hc|]. intros Hok. exact (proj1 (Hp Hok)).
Qed.

Lemma rounded_render_by_height (mode : background_mode) (sh oh : Q) :
  dbl_eqb (DoubleArith := rounded_arith)
    (dbl_mul (DoubleArith := rounded_arith) (XFin sh) (XFin sh))
    (dbl_of_int (DoubleArith := rounded_arith) 0) = false ->
  render_background_image (arith := rounded_arith) cairo image mode
    buffer_width buffer_height
  = Some (cairo_restore (cairo_paint (cairo_set_source_surface
      (cairo_scale (arith := rounded_arith) (cairo_save cairo)
         (XFin sh) (XFin sh))
      image (XFin oh) (XFin 0)))) ->
  rounded_render cairo image mode buffer_width buffer_height sh oh 0.
Proof.
  intros Z E. unfold rounded_render. rewrite E.
  eexists; split; [reflexivity|].
  destruct (scaled_pipeline (arith := rounded_arith) cairo image
              (XFin sh) (XFin sh) (XFin oh) (XFin 0) Z eq_refl) as [Hc Hp].
  split; [exact Hc|]. intros Hok. exact (proj1 (Hp Hok)).
Qed.

(** C1.  FILL in binary64, on an image and a buffer whose sizes are
    positive C [int]s: the renderer issues save, one uniform scale [s],
    set-source at [(ox, oy)], paint, restore; the test
    [window_ratio > bg_ratio], evaluated on the rounded ratios, selects
    [s = bw / w] and the offset [(0, bh / 2 / s - h / 2)] when it holds and
    [s = bh / h] and [(bw / 2 / s - w / 2, 0)] when it does not, each the
    rounded value of the C expression; [s] is the larger of the exact
    [bw / w] and [bh / h] up to a relative [2 ^ -51]; and the placed image
    contains the buffer rectangle up to [2 ^ -20] of a pixel on each side,
    in both cases of the test. *)
Theorem render_fill_covers_rounded :
  fill_rounded_postcondition cairo image buffer_width buffer_height.
Proof.
  uniform_setup.
  unfold fill_rounded_postcondition; cbv zeta. fold w h W H BW BH.
  assert (T : ratio_test w h buffer_width buffer_height = xgt (XFin wr) (XFin br))
    by (unfold ratio_test; rewrite Ewr, Ebr; reflexivity).
  assert (R : render_background_image (arith := rounded_arith) cairo image
                BACKGROUND_MODE_FILL buffer_width buffer_height
              = if xgt (XFin wr) (XFin br)
                then Some (cairo_restore (cairo_paint (cairo_set_source_surface
                       (cairo_scale (arith := rounded_arith) (cairo_save cairo)
                          (XFin sw) (XFin sw))
                       image (XFin 0) (XFin ow))))
                else Some (cairo_restore (cairo_paint (cairo_set_source_surface
                       (cairo_scale (arith := rounded_arith) (cairo_save cairo)
                          (XFin sh) (XFin sh))
                       image (XFin oh) (XFin 0))))).
  { unfold dbl_ratio, dbl_centre in *.
    unfold render_background_image, cairo_image_surface_get_width,
      cairo_image_surface_get_height; cbv zeta. fold w h.
    rewrite Ewr, Ebr. change (dbl_gt (XFin wr) (XFin br)) with (xgt (XFin wr) (XFin br)).
    destruct (xgt (XFin wr) (XFin br)).
    - rewrite Esw, Eow. reflexivity.
    - rewrite Esh, Eoh. reflexivity. }
  rewrite T.
  destruct (Qlt_le_dec br wr) as [Gt|Le].
  - (* the width drives the scale *)
    rewrite (xgt_fin_true wr br Gt) in R |- *.
    assert (K := ratio_test_true W H BW BH wr br ltac:(lra) ltac:(lra)
                   ltac:(lra) ltac:(lra) Hwr2 Hbr1 Gt).
    assert (Er : BW / W * W == BW) by (field; lra).
    destruct (fill_axis_cover W H BW BH (BW / W) sw gw ow (sw * eta64)
                W1 H1 BW1 BH1 BWM BHM Er Hsw1 Hsw2 Hgw1 Hgw2 Hpw Hnw
                Sew0 Sew1 K) as (C1 & C2 & C3).
    exists sw, 0, ow.
    split; [exact (rounded_render_by_width _ sw ow Zw R)|].
    split; [intros _; rewrite Eow, Esw; repeat split|].
    split; [intros F; discriminate F|].
    split.
    + apply scale_near_max; [apply Qdiv_pos; lra | apply Qdiv_pos; lra
                            | exact Hsw1 | exact Hsw2 |].
      apply candidates_compare; [lra | lra | exact K].
    + unfold rect_within_up_to, placed_image, buffer_rect, rounding_slack;
        cbn [rect_left rect_right rect_top rect_bottom]; fold W H BW BH.
      assert (E0 : sw * 0 == 0) by ring.
      repeat split; lra.
  - (* the height drives the scale *)
    rewrite (xgt_fin_false wr br Le) in R |- *.
    assert (K := ratio_test_false W H BW BH wr br ltac:(lra) ltac:(lra)
                   ltac:(lra) ltac:(lra) Hwr1 Hbr2 Le).
    assert (K' : (1 - u64) * (H * BW) <= (1 + u64) * (BH * W)).
    { setoid_replace (H * BW) with (BW * H) by ring.
      setoid_replace (BH * W) with (W * BH) by ring. exact K. }
    assert (Er : BH / H * H == BH) by (field; lra).
    destruct (fill_axis_cover H W BH BW (BH / H) sh gh oh (sh * eta64)
                H1 W1 BH1 BW1 BHM BWM Er Hsh1 Hsh2 Hgh1 Hgh2 Hph Hnh
                Seh0 Seh1 K') as (C1 & C2 & C3).
    exists sh, oh, 0.
    split; [exact (rounded_render_by_height _ sh oh Zh R)|].
    split; [intros F; discriminate F|].
    split; [intros _; rewrite Eoh, Esh; repeat split|].
    split.
    + rewrite Q.max_comm.
      apply scale_near_max; [apply Qdiv_pos; lra | apply Qdiv_pos; lra
                            | exact Hsh1 | exact Hsh2 |].
      apply candidates_compare; [lra | lra | exact K'].
    + unfold rect_within_up_to, placed_image, buffer_rect, rounding_slack;
        cbn [rect_left rect_right rect_top rect_bottom]; fold W H BW BH.
      assert (E0 : sh * 0 == 0) by ring.
      repeat split; lra.
Qed.

(** C2.  FIT in binary64, on an image and a buffer whose sizes are
    positive C [int]s: the same test selects the other candidate than FILL
    does, [s = bh / h] with the offset [(bw / 2 / s - w / 2, 0)] when it
    holds and [s = bw / w] with [(0, bh / 2 / s - h / 2)] when it does not,
    each the rounded value of the C expression; [s] is the smaller of the
    exact [bw / w] and [bh / h] up to a relative [2 ^ -51]; the placed
    image lies within the buffer rectangle up to [2 ^ -20] of a pixel on
    each side, and along the axis that drives the scale it starts at 0 and
    its size is that of the buffer up to [2 ^ -20] of a pixel. *)
Theorem render_fit_contained_rounded :
  fit_rounded_postcondition cairo image buffer_width buffer_height.
Proof.
  uniform_setup.
  unfold fit_rounded_postcondition; cbv zeta. fold w h W H BW BH.
  assert (T : ratio_test w h buffer_width buffer_height = xgt (XFin wr) (XFin br))
    by (unfold ratio_test; rewrite Ewr, Ebr; reflexivity).
  assert (R : render_background_image (arith := rounded_arith) cairo image
                BACKGROUND_MODE_FIT buffer_width buffer_height
              = if xgt (XFin wr) (XFin br)
                then Some (cairo_restore (cairo_paint (cairo_set_source_surface
                       (cairo_scale (arith := rounded_arith) (cairo_save cairo)
                          (XFin sh) (XFin sh))
                       image (XFin oh) (XFin 0))))
                else Some (cairo_restore (cairo_paint (cairo_set_source_surface
                       (cairo_scale (arith := rounded_arith) (cairo_save cairo)
                          (XFin sw) (XFin sw))
                       image (XFin 0) (XFin ow))))).
  { unfold dbl_ratio, dbl_centre in *.
    unfold render_background_image, cairo_image_surface_get_width,
      cairo_image_surface_get_height; cbv zeta. fold w h.
    rewrite Ewr, Ebr. change (dbl_gt (XFin wr) (XFin br)) with (xgt (XFin wr) (XFin br)).
    destruct (xgt (XFin wr) (XFin br)).
    - rewrite Esh, Eoh. reflexivity.
    - rewrite Esw, Eow. reflexivity. }
  rewrite T.
  destruct (Qlt_le_dec br wr) as [Gt|Le].
  - (* the height drives the scale *)
    rewrite (xgt_fin_true wr br Gt) in R |- *.
    assert (K := ratio_test_true W H BW BH wr br ltac:(lra) ltac:(lra)
                   ltac:(lra) ltac:(lra) Hwr2 Hbr1 Gt).
    assert (K' : (1 - u64) * (BH * W) <= (1 + u64) * (H * BW)).
    { setoid_replace (BH * W) with (W * BH) by ring.
      setoid_replace (H * BW) with (BW * H) by ring. exact K. }
    assert (Er : BH / H * H == BH) by (field; lra).
    destruct (fit_axis_contain H W BH BW (BH / H) sh gh oh (sh * eta64)
                H1 W1 BH1 BW1 BHM BWM Er Hsh1 Hsh2 Hgh1 Hgh2 Hph Hnh
                Seh0 Seh1 K') as (C1 & C2 & C3).
    assert (E0 : sh * 0 == 0) by ring.
    assert (EH : sh * (0 + H) == sh * H) by ring.
    exists sh, oh, 0.
    split; [exact (rounded_render_by_height _ sh oh Zh R)|].
    split.
    { intros _; rewrite Eoh, Esh. split; [reflexivity|].
      split; [reflexivity|]. split; [reflexivity|].
      rewrite <- EH. exact C1. }
    split; [intros F; discriminate F|].
    split.
    + rewrite Q.min_comm.
      apply scale_near_min; [apply Qdiv_pos; lra | apply Qdiv_pos; lra
                            | exact Hsh1 | exact Hsh2 |].
      apply candidates_compare; [lra | lra |].
      setoid_replace (W * BH) with (BH * W) by ring.
      setoid_replace (BW * H) with (H * BW) by ring. exact K'.
    + apply Qabs_Qle_condition in C1.
      unfold rect_within_up_to, placed_image, buffer_rect, rounding_slack;
        cbn [rect_left rect_right rect_top rect_bottom]; fold W H BW BH.
      repeat split; lra.
  - (* the width drives the scale *)
    rewrite (xgt_fin_false wr br Le) in R |- *.
    assert (K := ratio_test_false W H BW BH wr br ltac:(lra) ltac:(lra)
                   ltac:(lra) ltac:(lra) Hwr1 Hbr2 Le).
    assert (Er : BW / W * W == BW) by (field; lra).
    destruct (fit_axis_contain W H BW BH (BW / W) sw gw ow (sw * eta64)
                W1 H1 BW1 BH1 BWM BHM Er Hsw1 Hsw2 Hgw1 Hgw2 Hpw Hnw
                Sew0 Sew1 K) as (C1 & C2 & C3).
    assert (E0 : sw * 0 == 0) by ring.
    assert (EW : sw * (0 + W) == sw * W) by ring.
    exists sw, 0, ow.
    split; [exact (rounded_render_by_width _ sw ow Zw R)|].
    split; [intros F; discriminate F|].
    split.
    { intros _; rewrite Eow, Esw. split; [reflexivity|].
      split; [reflexivity|]. split; [reflexivity|].
      rewrite <- EW. exact C1. }
    split.
    + apply scale_near_min; [apply Qdiv_pos; lra | apply Qdiv_pos; lra
                            | exact Hsw1 | exact Hsw2 |].
      apply candidates_compare; [lra | lra |].
      setoid_replace (H * BW) with (BW * H) by ring.
      setoid_replace (BH * W) with (W * BH) by ring. exact K.
    + apply Qabs_Qle_condition in C1.
      unfold rect_within_up_to, placed_image, buffer_rect, rounding_slack;
        cbn [rect_left rect_right rect_top rect_bottom]; fold W H BW BH.
      repeat split; lra.
Qed.

(** X9.  STRETCH in binary64, on an image and a buffer whose sizes are
    positive C [int]s: save, one scale by the rounded [bw / w] and
    [bh / h], set-source at the origin, paint, restore; the placed image
    starts at the origin and its right and bottom edges are those of the
    buffer up to [2 ^ -20] of a pixel. *)
Theorem render_stretch_spans_rounded :
  stretch_rounded_postcondition cairo image buffer_width buffer_height.
Proof.
  uniform_setup.
  destruct (rounded_scale_accepted sw sh Lsw Usw Lsh Ush) as [Z F].
  unfold stretch_rounded_postcondition; cbv zeta. fold w h W H BW BH.
  assert (R : render_background_image (arith := rounded_arith) cairo image
                BACKGROUND_MODE_STRETCH buffer_width buffer_height
              = Some (cairo_restore (cairo_paint (cairo_set_source_surface
                       (cairo_scale (arith := rounded_arith) (cairo_save cairo)
                          (XFin sw) (XFin sh))
                       image (XFin 0) (XFin 0))))).
  { unfold dbl_ratio in *.
    unfold render_background_image, cairo_image_surface_get_width,
      cairo_image_surface_get_height; cbv zeta. fold w h.
    rewrite Esw, Esh. reflexivity. }
  rewrite R.
  destruct (scaled_pipeline (arith := rounded_arith) cairo image
              (XFin sw) (XFin sh) (XFin 0) (XFin 0) Z F) as [Hc Hp].
  eexists; exists sw, sh.
  split; [reflexivity|]. split; [exact Hc|].
  split; [intros Hok; exact (proj1 (Hp Hok))|].
  split; [now rewrite Esw|]. split; [now rewrite Esh|].
  unfold placed_image, rounding_slack;
    cbn [rect_left rect_right rect_top rect_bottom]; fold W H.
  assert (Ew : BW / W * W == BW) by (field; lra).
  assert (Eh : BH / H * H == BH) by (field; lra).
  assert (Sw1 : (1 - u64) * BW <= sw * W).
  { rewrite <- Ew at 1.
    setoid_replace ((1 - u64) * (BW / W * W)) with ((1 - u64) * (BW / W) * W) by ring.
    apply Qmult_le_compat_r; lra. }
  assert (Sw2 : sw * W <= (1 + u64) * BW).
  { rewrite <- Ew at 1.
    setoid_replace ((1 + u64) * (BW / W * W)) with ((1 + u64) * (BW / W) * W) by ring.
    apply Qmult_le_compat_r; lra. }
  assert (Sh1 : (1 - u64) * BH <= sh * H).
  { rewrite <- Eh at 1.
    setoid_replace ((1 - u64) * (BH / H * H)) with ((1 - u64) * (BH / H) * H) by ring.
    apply Qmult_le_compat_r; lra. }
  assert (Sh2 : sh * H <= (1 + u64) * BH).
  { rewrite <- Eh at 1.
    setoid_replace ((1 + u64) * (BH / H * H)) with ((1 + u64) * (BH / H) * H) by ring.
    apply Qmult_le_compat_r; lra. }
  split; [ring|]. split; [ring|].
  split; apply Qabs_Qle_condition; unfold u64 in *.
  - setoid_replace (sw * (0 + W)) with (sw * W) by ring. split; lra.
  - setoid_replace (sh * (0 + H)) with (sh * H) by ring. split; lra.
Qed.

(** The render of FILL and FIT: the test and the mode select the axis that
    drives the scale. *)
Lemma uniform_render_selected (mode : background_mode)
    (wr br sw sh ow oh : Q) :
  dbl_ratio buffer_width buffer_height = XFin wr ->
  dbl_ratio w h = XFin br ->
  dbl_ratio buffer_width w = XFin sw ->
  dbl_ratio buffer_height h = XFin sh ->
  dbl_centre buffer_height h (XFin sw) = XFin ow ->
  dbl_centre buffer_width w (XFin sh) = XFin oh ->
  dbl_eqb (DoubleArith := rounded_arith)
    (dbl_mul (DoubleArith := rounded_arith) (XFin sw) (XFin sw))
    (dbl_of_int (DoubleArith := rounded_arith) 0) = false ->
  dbl_eqb (DoubleArith := rounded_arith)
    (dbl_mul (DoubleArith := rounded_arith) (XFin sh) (XFin sh))
    (dbl_of_int (DoubleArith := rounded_arith) 0) = false ->
  mode = BACKGROUND_MODE_FILL \/ mode = BACKGROUND_MODE_FIT ->
  let by_width :=
    match mode with
    | BACKGROUND_MODE_FILL => xgt (XFin wr) (XFin br)
    | _ => negb (xgt (XFin wr) (XFin br))
    end in
  rounded_render cairo image mode buffer_width buffer_height
    (if by_width then sw else sh) (if by_width then 0 else oh)
    (if by_width then ow else 0).
Proof.
  intros Ewr Ebr Esw Esh Eow Eoh Zw Zh Hmode; cbv zeta.
  unfold dbl_ratio, dbl_centre in *.
  destruct Hmode as [-> | ->].
  - assert (R : render_background_image (arith := rounded_arith) cairo image
                  BACKGROUND_MODE_FILL buffer_width buffer_height
                = if xgt (XFin wr) (XFin br)
                  then Some (cairo_restore (cairo_paint (cairo_set_source_surface
                         (cairo_scale (arith := rounded_arith) (cairo_save cairo)
                            (XFin sw) (XFin sw))
                         image (XFin 0) (XFin ow))))
                  else Some (cairo_restore (cairo_paint (cairo_set_source_surface
                         (cairo_scale (arith := rounded_arith) (cairo_save cairo)
                            (XFin sh) (XFin sh))
                         image (XFin oh) (XFin 0))))).
    { unfold render_background_image, cairo_image_surface_get_width,
        cairo_image_surface_get_height; cbv zeta. fold w h.
      rewrite Ewr, Ebr.
      change (dbl_gt (XFin wr) (XFin br)) with (xgt (XFin wr) (XFin br)).
      destruct (xgt (XFin wr) (XFin br)).
      - rewrite Esw, Eow. reflexivity.
      - rewrite Esh, Eoh. reflexivity. }
    destruct (xgt (XFin wr) (XFin br)).
    + exact (rounded_render_by_width _ sw ow Zw R).
    + exact (rounded_render_by_height _ sh oh Zh R).
  - assert (R : render_background_image (arith := rounded_arith) cairo image
                  BACKGROUND_MODE_FIT buffer_width buffer_height
                = if xgt (XFin wr) (XFin br)
                  then Some (cairo_restore (cairo_paint (cairo_set_source_surface
                         (cairo_scale (arith := rounded_arith) (cairo_save cairo)
                            (XFin sh) (XFin sh))
                         image (XFin oh) (XFin 0))))
                  else Some (cairo_restore (cairo_paint (cairo_set_source_surface
                         (cairo_scale (arith := rounded_arith) (cairo_save cairo)
                            (XFin sw) (XFin sw))
                         image (XFin 0) (XFin ow))))).
    { unfold render_background_image, cairo_image_surface_get_width,
        cairo_image_surface_get_height; cbv zeta. fold w h.
      rewrite Ewr, Ebr.
      change (dbl_gt (XFin wr) (XFin br)) with (xgt (XFin wr) (XFin br)).
      destruct (xgt (XFin wr) (XFin br)).
      - rewrite Esh, Eoh. reflexivity.
      - rewrite Esw, Eow. reflexivity. }
    destruct (xgt (XFin wr) (XFin br)); cbn [negb].
    + exact (rounded_render_by_height _ sh oh Zh R).
    + exact (rounded_render_by_width _ sw ow Zw R).
Qed.

(** The image along the axis that drives the scale: it starts at 0 and its
    size is that of the buffer up to rounding. *)
Lemma driven_axis_centred_rounded (A C s : Q) :
  1 <= A -> 1 <= C ->
  (1 - u64) * (C / A) <= s -> s <= (1 + u64) * (C / A) ->
  Qabs (s * 0 + s * (0 + A) - C)
  <= scale_slack * (C + (s * (0 + A) - s * 0)).
Proof.
  intros A1 C1 S1 S2.
  assert (E : C / A * A == C) by (field; lra).
  assert (V1 : (1 - u64) * C <= s * A).
  { rewrite <- E at 1.
    setoid_replace ((1 - u64) * (C / A * A)) with ((1 - u64) * (C / A) * A) by ring.
    apply Qmult_le_compat_r; lra. }
  assert (V2 : s * A <= (1 + u64) * C).
  { rewrite <- E at 1.
    setoid_replace ((1 + u64) * (C / A * A)) with ((1 + u64) * (C / A) * A) by ring.
    apply Qmult_le_compat_r; lra. }
  setoid_replace (s * 0 + s * (0 + A) - C) with (s * A - C) by ring.
  setoid_replace (C + (s * (0 + A) - s * 0)) with (C + s * A) by ring.
  set (V := s * A) in *. clearbody V.
  apply Qabs_Qle_condition. unfold scale_slack, u64 in *. split; lra.
Qed.

(** X13.  FILL and FIT in binary64, on an image and a buffer whose sizes
    are positive C [int]s: one uniform scale, positive, and the placed
    image is centred on the buffer along both axes up to rounding: the sum
    of its two opposite edges is the size of the buffer up to [2 ^ -51] of
    the sizes of the buffer and of the placed image. *)
Theorem render_uniform_centred_rounded (mode : background_mode) :
  mode = BACKGROUND_MODE_FILL \/ mode = BACKGROUND_MODE_FIT ->
  uniform_centred_rounded cairo image mode buffer_width buffer_height.
Proof.
  intros Hmode. uniform_setup.
  pose proof (uniform_render_selected mode wr br sw sh ow oh
                Ewr Ebr Esw Esh Eow Eoh Zw Zh Hmode) as R; cbv zeta in R.
  unfold uniform_centred_rounded. fold w h.
  destruct (match mode with
            | BACKGROUND_MODE_FILL => xgt (XFin wr) (XFin br)
            | _ => negb (xgt (XFin wr) (XFin br))
            end).
  - exists sw, 0, ow. split; [exact R|]. split; [lra|].
    unfold centred_up_to_rounding, placed_image;
      cbn [rect_left rect_right rect_top rect_bottom]; fold W H BW BH.
    split.
    + apply driven_axis_centred_rounded; assumption.
    + apply (axis_centred H BH sw gw ow (sw * eta64)); try assumption. lra.
  - exists sh, oh, 0. split; [exact R|]. split; [lra|].
    unfold centred_up_to_rounding, placed_image;
      cbn [rect_left rect_right rect_top rect_bottom]; fold W H BW BH.
    split.
    + apply (axis_centred W BW sh gh oh (sh * eta64)); try assumption. lra.
    + apply driven_axis_centred_rounded; assumption.
Qed.

(** X12.  FILL and FIT in binary64 on an image with the aspect ratio of the
    buffer ([w * bh = h * bw], sizes positive C [int]s): the two rounded
    ratios are the same number, so the test fails in both modes; both
    issue the same scale, FILL centring along the width and FIT along the
    height; and in both the placed image is the buffer rectangle up to
    [2 ^ -20] of a pixel on every side. *)
Theorem render_equal_aspect_rounded :
  (w * buffer_height = h * buffer_width)%Z ->
  fill_fit_agree_rounded cairo image buffer_width buffer_height.
Proof.
  intros Heq. uniform_setup.
  assert (EQ : W * BH == H * BW).
  { unfold W, H, BW, BH. rewrite <- !inject_Z_mult. now rewrite Heq. }
  assert (ER : BW / BH == W / H).
  { apply (Qmult_inj_r _ _ (BH * H)); [intro E0; nra|].
    setoid_replace (BW / BH * (BH * H)) with (H * BW) by (field; lra).
    setoid_replace (W / H * (BH * H)) with (W * BH) by (field; lra).
    symmetry; exact EQ. }
  assert (ES : BW / W == BH / H).
  { apply (Qmult_inj_r _ _ (W * H)); [intro E0; nra|].
    setoid_replace (BW / W * (W * H)) with (H * BW) by (field; lra).
    setoid_replace (BH / H * (W * H)) with (W * BH) by (field; lra).
    symmetry; exact EQ. }
  assert (Ewb : wr = br).
  { unfold dbl_ratio in Ewr, Ebr.
    rewrite (rounded_int_div buffer_width buffer_height) in Ewr
      by (try apply int_abs; try assumption; destruct bh_size; lia).
    rewrite (rounded_int_div w h) in Ebr
      by (try apply int_abs; try assumption; destruct h_size; lia).
    fold W H BW BH in Ewr, Ebr.
    rewrite (round64_comp _ _ ER) in Ewr. congruence. }
  assert (Ess : sw = sh).
  { unfold dbl_ratio in Esw, Esh.
    rewrite (rounded_int_div buffer_width w) in Esw
      by (try apply int_abs; try assumption; destruct w_size; lia).
    rewrite (rounded_int_div buffer_height h) in Esh
      by (try apply int_abs; try assumption; destruct h_size; lia).
    fold W H BW BH in Esw, Esh.
    rewrite (round64_comp _ _ ES) in Esw. congruence. }
  assert (T : xgt (XFin wr) (XFin br) = false)
    by (apply xgt_fin_false; rewrite Ewb; apply Qle_refl).
  pose proof (uniform_render_selected BACKGROUND_MODE_FILL wr br sw sh ow oh
                Ewr Ebr Esw Esh Eow Eoh Zw Zh (or_introl eq_refl)) as RF.
  pose proof (uniform_render_selected BACKGROUND_MODE_FIT wr br sw sh ow oh
                Ewr Ebr Esw Esh Eow Eoh Zw Zh (or_intror eq_refl)) as RT.
  cbv zeta in RF, RT. rewrite T in RF, RT. cbn [negb] in RT.
  assert (PX : 0 < H * BW) by nra.
  assert (K1 : (1 - u64) * (W * BH) <= (1 + u64) * (BW * H)).
  { setoid_replace (BW * H) with (H * BW) by ring. rewrite EQ.
    unfold u64; lra. }
  assert (K2 : (1 - u64) * (BW * H) <= (1 + u64) * (W * BH)).
  { setoid_replace (BW * H) with (H * BW) by ring. rewrite EQ.
    unfold u64; lra. }
  assert (K3 : (1 - u64) * (H * BW) <= (1 + u64) * (BH * W)).
  { setoid_replace (BH * W) with (W * BH) by ring. rewrite EQ.
    unfold u64; lra. }
  assert (K4 : (1 - u64) * (BH * W) <= (1 + u64) * (H * BW)).
  { setoid_replace (BH * W) with (W * BH) by ring. rewrite EQ.
    unfold u64; lra. }
  assert (Erw : BW / W * W == BW) by (field; lra).
  assert (Erh : BH / H * H == BH) by (field; lra).
  destruct (fill_axis_cover W H BW BH (BW / W) sw gw ow (sw * eta64)
              W1 H1 BW1 BH1 BWM BHM Erw Hsw1 Hsw2 Hgw1 Hgw2 Hpw Hnw
              Sew0 Sew1 K1) as (A1 & A2 & A3).
  destruct (fit_axis_contain W H BW BH (BW / W) sw gw ow (sw * eta64)
              W1 H1 BW1 BH1 BWM BHM Erw Hsw1 Hsw2 Hgw1 Hgw2 Hpw Hnw
              Sew0 Sew1 K2) as (A4 & A5 & A6).
  destruct (fill_axis_cover H W BH BW (BH / H) sh gh oh (sh * eta64)
              H1 W1 BH1 BW1 BHM BWM Erh Hsh1 Hsh2 Hgh1 Hgh2 Hph Hnh
              Seh0 Seh1 K3) as (B1 & B2 & B3).
  destruct (fit_axis_contain H W BH BW (BH / H) sh gh oh (sh * eta64)
              H1 W1 BH1 BW1 BHM BWM Erh Hsh1 Hsh2 Hgh1 Hgh2 Hph Hnh
              Seh0 Seh1 K4) as (B4 & B5 & B6).
  apply Qabs_Qle_condition in A4. apply Qabs_Qle_condition in B4.
  unfold fill_fit_agree_rounded. fold w h.
  split.
  { unfold ratio_test. rewrite Ewr, Ebr. exact T. }
  exists sh, oh, ow.
  rewrite Ess in RT.
  split; [exact RF|]. split; [exact RT|].
  assert (Z0 : sh * 0 == 0) by ring.
  assert (Z1 : sw * 0 == 0) by ring.
  rewrite Ess in A1, A2, A3, A4, A5, A6, Z1.
  unfold on_buffer_up_to_rounding, rect_within_up_to, placed_image,
    buffer_rect, rounding_slack;
    cbn [rect_left rect_right rect_top rect_bottom]; fold w h W H BW BH.
  repeat split; lra.
Qed.

End RoundedRender.

Local Close Scope Q_scope.

Lemma render_fill_covers_rounded_witness :
  fill_rounded_postcondition cairo_create (blank_image 1000 1000) 1920 1080.
Proof.
  apply (render_fill_covers_rounded cairo_create (blank_image 1000 1000)
           1920 1080); vm_compute; split; discriminate.
Defined.

Lemma render_fit_contained_rounded_witness :
  fit_rounded_postcondition cairo_create (blank_image 1000 1000) 1920 1080.
Proof.
  apply (render_fit_contained_rounded cairo_create (blank_image 1000 1000)
           1920 1080); vm_compute; split; discriminate.
Defined.

Lemma render_stretch_spans_rounded_witness :
  stretch_rounded_postcondition cairo_create (blank_image 1000 1000) 1920 1080.
Proof.
  apply (render_stretch_spans_rounded cairo_create (blank_image 1000 1000)
           1920 1080); vm_compute; split; discriminate.
Defined.

Lemma render_uniform_centred_rounded_witness :
  uniform_centred_rounded cairo_create (blank_image 1000 1000)
    BACKGROUND_MODE_FILL 1920 1080.
Proof.
  apply (render_uniform_centred_rounded cairo_create (blank_image 1000 1000)
           1920 1080);
    first [left; reflexivity | vm_compute; split; discriminate].
Defined.

Lemma render_equal_aspect_rounded_witness :
  fill_fit_agree_rounded cairo_create (blank_image 48 27) 400 225.
Proof.
  apply (render_equal_aspect_rounded cairo_create (blank_image 48 27) 400 225);
    first [reflexivity | vm_compute; split; discriminate].
Defined.

(** C1, as the specification words it, fails of the code: FILL of a
    1000 x 1000 image on a 1920 x 1080 buffer, in binary64, scales by the
    double nearest to 1.92, which is below [max (bw / w) (bh / h) = 48 / 25],
    and the image so placed ends left of the right edge of the buffer. *)
Lemma render_fill_binary64_leaves_gap :
  let s := (1080863910568919 # 562949953421312)%Q in
  render_values_binary64 (blank_image 1000 1000) BACKGROUND_MODE_FILL 1920 1080
  = Some (scaled_calls (blank_image 1000 1000)
            (XFin s) (XFin s) (XFin 0) (XFin (- (875 # 4)))) /\
  (s < Qmax (1920 / 1000) (1080 / 1000))%Q /\
  (rect_right (placed_image s s 0 (- (875 # 4)) 1000 1000) < 1920)%Q /\
  ~ rect_within (buffer_rect 1920 1080)
      (placed_image s s 0 (- (875 # 4)) 1000 1000).
Proof.
  cbv zeta.
  split; [vm_compute; reflexivity|].
  split; [vm_compute; reflexivity|].
  split; [vm_compute; reflexivity|].
  intros (_ & R & _). vm_compute in R. apply R. reflexivity.
Qed.

(** The test of FILL in binary64 can miss the order of the exact ratios:
    [bw / bh > w / h] holds of these sizes, the two ratios round to the same
    double, and the program centres along the width where the exact test
    would centre along the height. *)
Example render_fill_binary64_test_misses :
  (999999999 * 1000000001 < 1000000000 * 1000000000)%Z /\
  render_values_binary64 (blank_image 999999999 1000000000)
    BACKGROUND_MODE_FILL 1000000000 1000000001
  = Some (scaled_render_calls (blank_image 999999999 1000000000)
            (281474976992131 # 281474976710656) (- (1 # 16777216)) 0).
Proof. split; vm_compute; reflexivity. Qed.

(** C2, as the specification words it, fails of the code: FIT of a
    1000 x 1000 image on a 1920 x 1080 buffer, in binary64, scales by the
    double nearest to 1.08, which is above [min (bw / w) (bh / h) = 27 / 25];
    the image so placed ends below the bottom edge of the buffer, and along
    neither axis is its size that of the buffer. *)
Lemma render_fit_binary64_exceeds_buffer :
  let s := (607985949695017 # 562949953421312)%Q in
  let ox := (3420702841969777 # 8796093022208)%Q in
  render_values_binary64 (blank_image 1000 1000) BACKGROUND_MODE_FIT 1920 1080
  = Some (scaled_calls (blank_image 1000 1000)
            (XFin s) (XFin s) (XFin ox) (XFin 0)) /\
  (Qmin (1920 / 1000) (1080 / 1000) < s)%Q /\
  (1080 < rect_bottom (placed_image s s ox 0 1000 1000))%Q /\
  ~ rect_within (placed_image s s ox 0 1000 1000) (buffer_rect 1920 1080) /\
  ~ (s * 1000 == 1920)%Q /\ ~ (s * 1000 == 1080)%Q.
Proof.
  cbv zeta.
  split; [vm_compute; reflexivity|].
  split; [vm_compute; reflexivity|].
  split; [vm_compute; reflexivity|].
  split; [|split; vm_compute; discriminate].
  intros (_ & _ & _ & B). vm_compute in B. apply B. reflexivity.
Qed.

(** The test of FIT in binary64 against the order of the exact ratios. *)
Example render_fit_binary64_test_misses :
  (71709259 * 72622766 < 76464005 * 68106879)%Z /\
  render_values_binary64 (blank_image 71709259 68106879)
    BACKGROUND_MODE_FIT 76464005 72622766
  = Some (scaled_render_calls (blank_image 71709259 68106879)
            (2401107396921057 # 2251799813685248) 0 (- (1 # 134217728))).
Proof. split; vm_compute; reflexivity. Qed.

(** The rounded arithmetic against the doubles of the kernel. *)
Example rounded_agrees_fill :
  render_calls_rounded (blank_image 1000 1000) BACKGROUND_MODE_FILL 1920 1080
  = render_values_binary64 (blank_image 1000 1000) BACKGROUND_MODE_FILL
      1920 1080 /\
  render_calls_rounded (blank_image 999999999 1000000000)
    BACKGROUND_MODE_FILL 1000000000 1000000001
  = render_values_binary64 (blank_image 999999999 1000000000)
      BACKGROUND_MODE_FILL 1000000000 1000000001.
Proof. split; vm_compute; reflexivity. Qed.

Example rounded_agrees_fit :
  render_calls_rounded (blank_image 1000 1000) BACKGROUND_MODE_FIT 1920 1080
  = render_values_binary64 (blank_image 1000 1000) BACKGROUND_MODE_FIT
      1920 1080 /\
  render_calls_rounded (blank_image 71709259 68106879)
    BACKGROUND_MODE_FIT 76464005 72622766
  = render_values_binary64 (blank_image 71709259 68106879)
      BACKGROUND_MODE_FIT 76464005 72622766 /\
  render_calls_rounded (blank_image 48 27) BACKGROUND_MODE_FIT 400 225
  = render_values_binary64 (blank_image 48 27) BACKGROUND_MODE_FIT 400 225.
Proof. repeat split; vm_compute; reflexivity. Qed.

Example rounded_agrees_stretch :
  render_calls_rounded (blank_image 1000 1000) BACKGROUND_MODE_STRETCH
    1920 1080
  = render_values_binary64 (blank_image 1000 1000) BACKGROUND_MODE_STRETCH
      1920 1080.
Proof. vm_compute; reflexivity. Qed.

Example rounded_agrees_on_samples :
  on_samples render_calls_rounded = on_samples render_values_binary64.
Proof. vm_compute; reflexivity. Qed.

(* ================================================================== *)
(** * Properties of the loader *)

Section LoaderFacts.
Context {D : Type} {arith : DoubleArith D}.
Variable env : collaborators D.

(** ** What a load does, path by path *)

Ltac run_load :=
  cbv beta iota zeta delta
    [load_background_image bind ret fopen add_stream tmpfile fseek log_error
     engine_called MagickWandGenesis NewMagickWand DestroyMagickWand
     NewPixelWand MagickReadImageFile MagickGetExceptionType
     MagickGetException
     MagickGetImageColorspace MagickTransformImageColorspace
     MagickGaussianBlurImage MagickColorizeImage MagickWriteImageFile
     cairo_image_surface_create_from_png_stream
     open_streams next_stream magick_wands pixel_wands engine_calls log
     stream_id stream_of stream_data stream_pos wand_image wand_exception
     option_map fst snd negb Nat.pred skipn firstn Nat.add swaylock_log
     PixelSetRedQuantum PixelSetGreenQuantum PixelSetBlueQuantum
     PixelSetAlphaQuantum red green blue alpha cairo_surface_status];
  cbn [app].

(** The file cannot be opened: nothing is acquired, one error is logged. *)
Lemma load_open_failure (path : string) (blur opacity : D) (w : world D)
    (err : string) :
  fs_open env (c_str path) = inr err ->
  load_background_image env path blur opacity w =
    (None,
     mk_world (open_streams w) (next_stream w) (magick_wands w)
       (pixel_wands w) (engine_calls w)
       (log w ++ [(LOG_ERROR,
                   ("Failed to open background image file: " ++ err ++ ".")%string)])).
Proof.
  intros E; destruct w as [os ns mw pw ec lg].
  run_load; rewrite E; run_load. reflexivity.
Qed.

(** The file opens and the decoder refuses it: the wand is destroyed, one
    error is logged, the stream of the file stays open. *)
Lemma load_decode_failure (path : string) (blur opacity : D) (w : world D)
    (data : list Byte.byte) (err : string) :
  fs_open env (c_str path) = inl data ->
  magick_decode env data = inr err ->
  load_background_image env path blur opacity w =
    (None,
     mk_world (open_streams w ++ [(next_stream w, NAMED_FILE (c_str path))])
       (S (next_stream w)) (magick_wands w) (pixel_wands w)
       (engine_calls w ++
        [CALL_MagickWandGenesis; CALL_NewMagickWand;
         CALL_MagickReadImageFile (next_stream w);
         CALL_MagickGetExceptionType; CALL_MagickGetException;
         CALL_DestroyMagickWand])
       (log w ++ [(LOG_ERROR,
                   ("Failed to load background image: " ++ err ++ ".")%string)])).
Proof.
  intros E1 E2; destruct w as [os ns mw pw ec lg].
  run_load; rewrite E1; run_load; rewrite E2; run_load.
  rewrite <- !app_assoc; reflexivity.
Qed.

(** The file opens and decodes: the processing steps run whatever they
    report, the processed image goes through the temporary stream, and the
    surface read back is returned when its status is success. *)
Lemma load_decoded (path : string) (blur opacity : D) (w : world D)
    (data : list Byte.byte) (img : magick_image) :
  fs_open env (c_str path) = inl data ->
  magick_decode env data = inl img ->
  let final := processed env blur opacity img in
  let surface := round_trip env final in
  load_background_image env path blur opacity w =
    (if surface_ok surface then Some surface else None,
     mk_world
       (open_streams w ++ [(next_stream w, NAMED_FILE (c_str path));
                           (S (next_stream w), TEMP_FILE)])
       (S (S (next_stream w))) (magick_wands w)
       (if dbl_gt opacity (dbl_of_int 0)
        then S (S (pixel_wands w)) else pixel_wands w)
       (engine_calls w ++
        [CALL_MagickWandGenesis; CALL_NewMagickWand;
         CALL_MagickReadImageFile (next_stream w);
         CALL_MagickGetImageColorspace] ++
        processing_calls env blur opacity img ++
        [CALL_MagickWriteImageFile (Some final) (S (next_stream w));
         CALL_DestroyMagickWand])
       (if surface_ok surface then log w
        else log w ++ [cairo_failure_entry env surface])).
Proof.
  intros E1 E2; destruct w as [os ns mw pw ec lg].
  unfold processed, darkened, blurred, converted, processing_calls,
    conversion_calls, blur_calls, overlay_calls, round_trip, surface_ok,
    cairo_failure_entry, overlay_color, overlay_blend,
    opacity_level; cbv zeta.
  run_load; rewrite E1; run_load; rewrite E2; run_load.
  destruct (image_colorspace img);
    try destruct (magick_transform env img RGBColorspace);
    run_load;
    destruct (dbl_gt blur (dbl_of_int 0)); run_load;
    destruct (dbl_gt opacity (dbl_of_int 0)); run_load;
    match goal with
    | |- context [cairo_status_eqb ?a ?b] => destruct (cairo_status_eqb a b)
    end;
    run_load; rewrite <- ?app_assoc; reflexivity.
Qed.


(** ** Engine initialization and teardown *)

Lemma count_genesis_app (w : world D) (cs : list (magick_call D)) os ns mw pw lg :
  count_genesis (mk_world os ns mw pw (engine_calls w ++ cs) lg)
  = (count_genesis w + List.length (filter is_genesis cs))%nat.
Proof.
  unfold count_genesis; cbn [engine_calls].
  now rewrite filter_app, length_app.
Qed.

Lemma count_terminus_app (w : world D) (cs : list (magick_call D)) os ns mw pw lg :
  count_terminus (mk_world os ns mw pw (engine_calls w ++ cs) lg)
  = (count_terminus w + List.length (filter is_terminus cs))%nat.
Proof.
  unfold count_terminus; cbn [engine_calls].
  now rewrite filter_app, length_app.
Qed.

Lemma processing_calls_no_lifecycle (blur opacity : D) (img : magick_image) :
  filter is_genesis (processing_calls env blur opacity img) = [] /\
  filter is_terminus (processing_calls env blur opacity img) = [].
Proof.
  unfold processing_calls, conversion_calls, blur_calls, overlay_calls.
  destruct (image_colorspace img), (dbl_gt blur _), (dbl_gt opacity _);
    split; reflexivity.
Qed.

(** One load: one initialization call exactly when the file opens, and no
    teardown call. *)
Lemma load_lifecycle (path : string) (blur opacity : D) (w : world D) :
  let w' := snd (load_background_image env path blur opacity w) in
  count_genesis w' =
    (count_genesis w + if opens env (path, blur, opacity) then 1 else 0)%nat /\
  count_terminus w' = count_terminus w.
Proof.
  unfold opens; cbn [fst].
  destruct (fs_open env (c_str path)) as [data|err] eqn:E1.
  - destruct (magick_decode env data) as [img|err] eqn:E2.
    + rewrite (load_decoded path blur opacity w data img E1 E2).
      cbv zeta; cbn [snd].
      destruct (processing_calls_no_lifecycle blur opacity img) as [Pg Pt].
      rewrite count_genesis_app, count_terminus_app.
      rewrite !filter_app, !length_app, Pg, Pt; cbn; lia.
    + rewrite (load_decode_failure path blur opacity w data err E1 E2).
      cbn [snd]; rewrite count_genesis_app, count_terminus_app; cbn; lia.
  - rewrite (load_open_failure path blur opacity w err E1); cbn [snd].
    unfold count_genesis, count_terminus; cbn [engine_calls]; lia.
Qed.

(** C6, as the code has it.  Over any sequence of loads, the engine
    receives one initialization call per load whose file opens, none for
    the others, and the loader issues no teardown call. *)
Theorem load_all_lifecycle (requests : list (string * D * D)) (w : world D) :
  let w' := snd (load_all env requests w) in
  count_genesis w' = (count_genesis w + List.length (filter (opens env) requests))%nat /\
  count_terminus w' = count_terminus w.
Proof.
  revert w; induction requests as [|[[path blur] opacity] rest IH]; intros w.
  - cbn; lia.
  - cbn [load_all filter].
    pose proof (load_lifecycle path blur opacity w) as L.
    destruct (load_background_image env path blur opacity w) as [r w1].
    specialize (IH w1).
    destruct (load_all env rest w1) as [rs w2].
    cbn [snd] in *.
    destruct L as [Lg Lt]; destruct IH as [Ig It].
    rewrite Ig, It, Lg, Lt.
    destruct (opens env (path, blur, opacity)); cbn [List.length]; lia.
Qed.

(** ** Resources at exit *)

Lemma load_resources_at_exit (path : string) (blur opacity : D) (w : world D) :
  resources_at_exit env path blur opacity w.
Proof.
  unfold resources_at_exit.
  destruct (fs_open env (c_str path)) as [data|err] eqn:E1.
  - destruct (magick_decode env data) as [img|err] eqn:E2.
    + pose proof (load_decoded path blur opacity w data img E1 E2) as L.
      cbv zeta in L; rewrite L; cbn; auto.
    + rewrite (load_decode_failure path blur opacity w data err E1 E2).
      cbn; rewrite length_app; cbn; repeat split; lia.
  - rewrite (load_open_failure path blur opacity w err E1).
    cbn; rewrite length_app; cbn; repeat split; lia.
Qed.

(** ** Colorspace conversion *)

(** C4, as the code has it.  When the file opens and decodes to a CMYK
    image and the conversion to RGB fails, the failure is not looked at:
    nothing is logged for it and the load goes on with the unconverted
    image; the result is absent only when the surface read back has a
    status other than success. *)
Theorem load_ignores_conversion_failure (path : string) (blur opacity : D)
    (w : world D) (data : list Byte.byte) (img : magick_image) :
  fs_open env (c_str path) = inl data ->
  magick_decode env data = inl img ->
  image_colorspace img = CMYKColorspace ->
  magick_transform env img RGBColorspace = None ->
  continues_unconverted env path blur opacity w img.
Proof.
  intros E1 E2 Ecs Etr; unfold continues_unconverted; cbv zeta.
  pose proof (load_decoded path blur opacity w data img E1 E2) as L.
  cbv zeta in L; rewrite L; clear L.
  assert (Ec : converted env img = img)
    by (unfold converted; now rewrite Ecs, Etr).
  unfold processed; rewrite Ec.
  split; [reflexivity|]. cbn [log engine_calls]. split; [reflexivity|].
  eexists. rewrite !app_assoc. reflexivity.
Qed.

End LoaderFacts.

Lemma load_ignores_conversion_failure_witness :
  continues_unconverted (D := xdouble) sample_collaborators "cmyk.jpg"
    (XFin 0) (XFin 0) process_start sample_cmyk.
Proof.
  exact (load_ignores_conversion_failure sample_collaborators "cmyk.jpg"
           (XFin 0) (XFin 0) process_start [Byte.x02] sample_cmyk
           eq_refl eq_refl eq_refl eq_refl).
Defined.

(** C4, as the specification words it, fails: with a CMYK file whose
    conversion to RGB fails, the load returns a surface, logs nothing, and
    the image it encoded is the unconverted one. *)
Lemma load_cmyk_conversion_failure_not_fatal :
  magick_transform (sample_collaborators (D := xdouble)) sample_cmyk RGBColorspace
    = None /\
  let (r, w) :=
    load_background_image (D := xdouble) sample_collaborators "cmyk.jpg"
      (XFin 0) (XFin 0) process_start in
  r = Some (mk_surface CAIRO_STATUS_SUCCESS 1 1 []) /\
  log w = [] /\
  engine_calls w =
    [ CALL_MagickWandGenesis; CALL_NewMagickWand; CALL_MagickReadImageFile 0%nat;
      CALL_MagickGetImageColorspace;
      CALL_MagickTransformImageColorspace RGBColorspace;
      CALL_MagickWriteImageFile (Some sample_cmyk) 1%nat;
      CALL_DestroyMagickWand ].
Proof. split; [reflexivity|]. vm_compute. repeat split. Qed.

(** C5 on three loads.  A path that does not exist: absent, one error,
    nothing held.  A file that does not decode: absent, and its stream is
    still open at return.  A file that loads, with an overlay: its stream,
    the temporary stream and two pixel wands are still held at return; only
    the wand was released. *)
Lemma load_leaves_streams_open :
  (let (r, w) :=
     load_background_image (D := xdouble) sample_collaborators "missing.png"
       (XFin 0) (XFin 0) process_start in
   r = None /\ List.length (log w) = 1%nat /\ open_streams w = [] /\
   engine_calls w = []) /\
  (let (r, w) :=
     load_background_image (D := xdouble) sample_collaborators "broken.png"
       (XFin 0) (XFin 0) process_start in
   r = None /\ List.length (log w) = 1%nat /\ magick_wands w = 0%nat /\
   open_streams w = [(0%nat, NAMED_FILE "broken.png")]) /\
  (let (r, w) :=
     load_background_image (D := xdouble) sample_collaborators "bg.png"
       (XFin 0) (XFin 50) process_start in
   r = Some (mk_surface CAIRO_STATUS_SUCCESS 2 1 []) /\ log w = [] /\
   magick_wands w = 0%nat /\ pixel_wands w = 2%nat /\
   open_streams w = [(0%nat, NAMED_FILE "bg.png"); (1%nat, TEMP_FILE)]).
Proof. vm_compute. repeat split. Qed.

(** ** Engine lifecycle on two loads *)

(** C6, as the specification words it, fails: two loads of a file that
    opens call the initialization twice, and no teardown is called; a
    process that loads nothing, or only a path that does not open, never
    calls the initialization. *)
Lemma load_twice_initializes_twice :
  (let w := snd (load_all (D := xdouble) sample_collaborators
                   [("bg.png"%string, XFin 0, XFin 0);
                    ("bg.png"%string, XFin 0, XFin 0)] process_start) in
   count_genesis w = 2%nat /\ count_terminus w = 0%nat) /\
  (let w := snd (load_all (D := xdouble) sample_collaborators
                   [("missing.png"%string, XFin 0, XFin 0)] process_start) in
   count_genesis w = 0%nat /\ count_terminus w = 0%nat).
Proof. vm_compute. repeat split. Qed.

(** ** The opacity overlay *)

Local Open Scope Q_scope.

Section OverlayFacts.
Variable env : collaborators xdouble.
Let QR : Z := QuantumRange env.
Hypothesis QR_pos : (0 < QR)%Z.
Hypothesis QR_uint16 : (QR <= 65535)%Z.

Lemma level_bounds (q : Q) :
  0 < q -> q <= 100 ->
  0 <= inject_Z QR * (q / 100) /\ inject_Z QR * (q / 100) <= inject_Z QR.
Proof.
  intros Lo Hi.
  assert (P : 0 < inject_Z QR) by apply inject_Z_pos, QR_pos.
  set (r := inject_Z QR) in *; clearbody r.
  unfold Qdiv; change (/ 100) with (1 # 100).
  split.
  - apply Qmult_le_0_compat; lra.
  - rewrite <- (Qmult_1_r r) at 2.
    apply Qmult_le_l; [exact P | lra].
Qed.

(** In the exact arithmetic, the level of the overlay is the integer part
    of [QuantumRange * (opacity / 100)]. *)
Lemma opacity_level_floor (q : Q) :
  0 < q -> q <= 100 ->
  opacity_level env (XFin q) = Qfloor (inject_Z QR * (q / 100)) /\
  (0 <= Qfloor (inject_Z QR * (q / 100)) <= QR)%Z.
Proof.
  intros Lo Hi.
  destruct (level_bounds q Lo Hi) as [B0 B1].
  assert (R : (0 <= Qfloor (inject_Z QR * (q / 100)) <= QR)%Z).
  { split.
    - change 0%Z with (Qfloor (inject_Z 0)); apply Qfloor_resp_le, B0.
    - rewrite <- (Qfloor_Z QR) at 2; apply Qfloor_resp_le, B1. }
  split; [|exact R].
  unfold opacity_level; exact_arith.
  rewrite xdiv_fin by discriminate.
  cbn [xmul]; unfold x_to_uint16, x_to_int; fold QR.
  change (inject_Z 100) with 100.
  rewrite Qtrunc_nonneg by exact B0.
  assert (I : (INT_MIN <=? Qfloor (inject_Z QR * (q / 100)))
              && (Qfloor (inject_Z QR * (q / 100)) <=? INT_MAX) = true).
  { apply andb_true_iff; split; apply Z.leb_le;
      change INT_MIN with (-2147483648)%Z; change INT_MAX with 2147483647%Z;
      lia. }
  rewrite I. apply Z.mod_small; lia.
Qed.




End OverlayFacts.

Local Close Scope Q_scope.



(** The level of the overlay at an opacity just above 50: 32768 in
    binary64 and in the rounded arithmetic, where the exact product,
    below 32768, has the integer part 32767; and beyond the range of the
    16-bit level. *)
Example opacity_level_rounds_up :
  opacity_level (D := float) sample_collaborators opacity_above_half = 32768%Z /\
  opacity_level (arith := rounded_arith) sample_collaborators
    (f64_value opacity_above_half) = 32768%Z /\
  opacity_level (arith := xdouble_arith) sample_collaborators
    (f64_value opacity_above_half) = 32767%Z.
Proof. repeat split; vm_compute; reflexivity. Qed.

Example opacity_level_out_of_range :
  opacity_level (D := float) sample_collaborators 10000000000%float = 0%Z /\
  opacity_level (arith := rounded_arith) sample_collaborators
    (XFin 10000000000) = 0%Z /\
  opacity_level (D := float) sample_collaborators 150%float = 32766%Z /\
  opacity_level (arith := rounded_arith) sample_collaborators
    (XFin 150) = 32766%Z.
Proof. repeat split; vm_compute; reflexivity. Qed.

Example opacity_level_agrees_on_samples :
  map (fun o => opacity_level (arith := rounded_arith) sample_collaborators
                  (f64_value o)) sample_opacities
  = map (opacity_level (D := float) sample_collaborators) sample_opacities.
Proof. vm_compute; reflexivity. Qed.

(* ================================================================== *)
(** * Further properties: the stream reader *)

Section StdioFacts.
Context {F : Type} {stdio : StdioStream F}.
Variable ahead : F -> list Byte.byte.
Variable sound : F -> Prop.
Hypothesis contract : fread_contract ahead sound.

Lemma stdio_read_loop_done (fuel : nat) (s : F) (data : list Byte.byte) :
  stdio_read_loop fuel s data 0 = Some (CAIRO_STATUS_SUCCESS, data, s).
Proof. destruct fuel; reflexivity. Qed.

Lemma stdio_read_loop_delivers (fuel : nat) :
  forall (s : F) (data : list Byte.byte) (size : nat),
    sound s -> (size <= List.length (ahead s))%nat -> (size <= fuel)%nat ->
    exists s',
      stdio_read_loop fuel s data size
        = Some (CAIRO_STATUS_SUCCESS, (data ++ firstn size (ahead s))%list, s') /\
      ahead s' = skipn size (ahead s) /\ sound s'.
Proof.
  induction fuel as [|fuel IH]; intros s data size Hs Hsize Hfuel.
  - assert (size = 0%nat) by lia; subst size.
    exists s; cbn; rewrite app_nil_r; auto.
  - destruct size as [|k].
    + exists s; cbn; rewrite app_nil_r; auto.
    + cbn [stdio_read_loop].
      destruct (contract s (S k) Hs) as (Hs1 & Hpre & Hlen & Hprog & Hind).
      destruct (fread s (S k)) as [got s1]; cbn [fst snd] in *.
      assert (Hl : List.length (ahead s)
                   = (List.length got + List.length (ahead s1))%nat)
        by (rewrite Hpre, length_app; reflexivity).
      fold (indicator s1).
      destruct (indicator s1) eqn:Eind.
      * (* an indicator is up: everything was delivered *)
        specialize (Hind eq_refl).
        rewrite Hind in Hl, Hpre; rewrite app_nil_r in Hpre.
        cbn [List.length] in Hl.
        assert (Eg : List.length got = S k) by lia.
        rewrite Eg, Nat.sub_diag; cbn [Nat.eqb negb andb].
        rewrite stdio_read_loop_done.
        exists s1. rewrite Hpre, Hind.
        rewrite firstn_all2 by lia. rewrite skipn_all2 by lia. auto.
      * rewrite andb_false_r.
        assert (Hne : got <> [])
          by (intros ->; specialize (Hprog ltac:(lia) eq_refl); congruence).
        assert (Hpos : (0 < List.length got)%nat)
          by (destruct got; [congruence | cbn; lia]).
        destruct (IH s1 (data ++ got)%list (S k - List.length got)%nat Hs1)
          as (s' & Hrun & Ha & Hs'); [lia | lia |].
        exists s'. rewrite Hrun. split; [|split; [|exact Hs']].
        -- rewrite Hpre, firstn_app, (firstn_all2 got) by lia.
           now rewrite <- app_assoc.
        -- rewrite Ha, Hpre, skipn_app, (skipn_all2 got) by lia.
           reflexivity.
Qed.

Lemma stdio_read_loop_short (fuel : nat) :
  forall (s : F) (data : list Byte.byte) (size : nat),
    sound s -> (List.length (ahead s) < size)%nat ->
    (List.length (ahead s) < fuel)%nat ->
    exists s',
      stdio_read_loop fuel s data size
        = Some (CAIRO_STATUS_READ_ERROR, (data ++ ahead s)%list, s') /\
      ahead s' = [] /\ sound s'.
Proof.
  induction fuel as [|fuel IH]; intros s data size Hs Hsize Hfuel; [lia|].
  destruct size as [|k]; [lia|].
  cbn [stdio_read_loop].
  destruct (contract s (S k) Hs) as (Hs1 & Hpre & Hlen & Hprog & Hind).
  destruct (fread s (S k)) as [got s1]; cbn [fst snd] in *.
  assert (Hl : List.length (ahead s)
               = (List.length got + List.length (ahead s1))%nat)
    by (rewrite Hpre, length_app; reflexivity).
  fold (indicator s1).
  assert (Hleft : Nat.eqb (S k - List.length got) 0 = false)
    by (apply Nat.eqb_neq; lia).
  rewrite Hleft; cbn [negb andb].
  destruct (indicator s1) eqn:Eind.
  - specialize (Hind eq_refl).
    exists s1. rewrite Hpre, Hind, app_nil_r. auto.
  - assert (Hne : got <> [])
      by (intros ->; specialize (Hprog ltac:(lia) eq_refl); congruence).
    assert (Hpos : (0 < List.length got)%nat)
      by (destruct got; [congruence | cbn; lia]).
    destruct (IH s1 (data ++ got)%list (S k - List.length got)%nat Hs1)
      as (s' & Hrun & Ha & Hs'); [lia | lia |].
    exists s'. rewrite Hrun, Hpre, <- app_assoc. auto.
Qed.

End StdioFacts.

Section StdioReadFacts.
Context {F : Type} {stdio : StdioStream F}.
Variable ahead : F -> list Byte.byte.
Variable sound : F -> Prop.
Hypothesis contract : fread_contract ahead sound.

(** X1.  Under the contract of [fread], short reads included: when the
    stream has at least [size] bytes ahead, the loop ends within [size]
    iterations with success, the bytes stored are the next [size] bytes in
    order, and the stream is left just after them. *)
Theorem stdio_read_func_delivers (fuel : nat) (s : F) (size : nat) :
  sound s -> (size <= List.length (ahead s))%nat -> (size <= fuel)%nat ->
  exists s',
    stdio_read_func fuel s size
      = Some (CAIRO_STATUS_SUCCESS, firstn size (ahead s), s') /\
    ahead s' = skipn size (ahead s).
Proof.
  intros Hs Hsize Hfuel.
  destruct (stdio_read_loop_delivers ahead sound contract fuel s [] size
              Hs Hsize Hfuel) as (s' & Hrun & Ha & _).
  exists s'; split; [exact Hrun | exact Ha].
Qed.

(** X2.  Under the contract of [fread]: when the stream has fewer than
    [size] bytes ahead, the loop ends with a read error after storing all
    that was ahead, and the stream is left at its end. *)
Theorem stdio_read_func_short (fuel : nat) (s : F) (size : nat) :
  sound s -> (List.length (ahead s) < size)%nat ->
  (List.length (ahead s) < fuel)%nat ->
  exists s',
    stdio_read_func fuel s size
      = Some (CAIRO_STATUS_READ_ERROR, ahead s, s') /\
    ahead s' = [].
Proof.
  intros Hs Hsize Hfuel.
  destruct (stdio_read_loop_short ahead sound contract fuel s [] size
              Hs Hsize Hfuel) as (s' & Hrun & Ha & _).
  exists s'; split; [exact Hrun | exact Ha].
Qed.

(** X3.  Under the contract of [fread]: two reads in a row, of [n] then
    [m] bytes, store together what one read of [n + m] bytes stores, and
    leave the same bytes ahead. *)
Theorem stdio_read_func_compose (fuel : nat) (s : F) (n m : nat) :
  sound s -> (n + m <= List.length (ahead s))%nat -> (n + m <= fuel)%nat ->
  exists b1 s1 b2 s2 s12,
    stdio_read_func fuel s n = Some (CAIRO_STATUS_SUCCESS, b1, s1) /\
    stdio_read_func fuel s1 m = Some (CAIRO_STATUS_SUCCESS, b2, s2) /\
    stdio_read_func fuel s (n + m)
      = Some (CAIRO_STATUS_SUCCESS, (b1 ++ b2)%list, s12) /\
    ahead s2 = ahead s12.
Proof.
  intros Hs Hsize Hfuel.
  destruct (stdio_read_loop_delivers ahead sound contract fuel s [] n
              Hs ltac:(lia) ltac:(lia)) as (s1 & R1 & A1 & S1).
  assert (L1 : (m <= List.length (ahead s1))%nat)
    by (rewrite A1, length_skipn; lia).
  destruct (stdio_read_loop_delivers ahead sound contract fuel s1 [] m
              S1 L1 ltac:(lia)) as (s2 & R2 & A2 & S2).
  destruct (stdio_read_loop_delivers ahead sound contract fuel s [] (n + m)
              Hs Hsize Hfuel) as (s12 & R12 & A12 & _).
  exists (firstn n (ahead s)), s1, (firstn m (ahead s1)), s2, s12.
  split; [exact R1|]. split; [exact R2|]. split.
  - unfold stdio_read_func; rewrite R12; cbn [app].
    rewrite A1. do 3 f_equal.
    rewrite <- (firstn_skipn n (ahead s)) at 1.
    rewrite firstn_app, firstn_firstn, length_firstn.
    replace (Nat.min (n + m) n) with n by lia.
    replace (n + m - Nat.min n (List.length (ahead s)))%nat with m by lia.
    reflexivity.
  - rewrite A2, A1, A12, skipn_skipn. f_equal; lia.
Qed.

End StdioReadFacts.

Section StdioCounts.
Context {F : Type} {stdio : StdioStream F}.
Hypothesis fread_bound :
  forall (s : F) (n : nat), (List.length (fst (fread s n)) <= n)%nat.

Lemma stdio_read_loop_counts (fuel : nat) :
  forall (s : F) (data : list Byte.byte) (size : nat)
    (st : cairo_status_t) (out : list Byte.byte) (s' : F),
    stdio_read_loop fuel s data size = Some (st, out, s') ->
    exists more,
      out = (data ++ more)%list /\
      ((st = CAIRO_STATUS_SUCCESS /\ List.length more = size) \/
       (st = CAIRO_STATUS_READ_ERROR /\ (List.length more < size)%nat /\
        indicator s' = true)).
Proof.
  induction fuel as [|fuel IH]; intros s data size st out s' Hrun.
  - destruct size; [|discriminate Hrun].
    injection Hrun as <- <- <-. exists []; rewrite app_nil_r; auto.
  - destruct size as [|k].
    + injection Hrun as <- <- <-. exists []; rewrite app_nil_r; auto.
    + cbn [stdio_read_loop] in Hrun.
      pose proof (fread_bound s (S k)) as Hlen.
      destruct (fread s (S k)) as [got s1]; cbn [fst] in Hlen.
      fold (indicator s1) in Hrun.
      destruct (Nat.eqb (S k - List.length got) 0) eqn:Eleft;
        [apply Nat.eqb_eq in Eleft | apply Nat.eqb_neq in Eleft];
        cbn [negb andb] in Hrun.
      * destruct (IH _ _ _ _ _ _ Hrun) as (more & -> & Hst).
        exists (got ++ more)%list; rewrite app_assoc; split; [reflexivity|].
        rewrite length_app.
        destruct Hst as [[-> Hm]|[-> [Hm Hi]]]; [left | right];
          repeat split; try assumption; lia.
      * destruct (indicator s1) eqn:Eind.
        -- injection Hrun as <- <- <-.
           exists got; split; [reflexivity|]. right; repeat split; [lia | exact Eind].
        -- destruct (IH _ _ _ _ _ _ Hrun) as (more & -> & Hst).
           exists (got ++ more)%list; rewrite app_assoc; split; [reflexivity|].
           rewrite length_app.
           destruct Hst as [[-> Hm]|[-> [Hm Hi]]]; [left | right];
             repeat split; try assumption; lia.
Qed.

(** X4.  What the status tells, on any stream whose [fread] never stores
    more than it is asked for, however short its reads: a call that
    returns success has stored exactly [size] bytes; a call that returns a
    read error has stored fewer, and an indicator of the stream is up.  No
    other status is returned. *)
Theorem stdio_read_func_status_counts (fuel : nat) (s : F) (size : nat)
    (st : cairo_status_t) (data : list Byte.byte) (s' : F) :
  stdio_read_func fuel s size = Some (st, data, s') ->
  (st = CAIRO_STATUS_SUCCESS /\ List.length data = size) \/
  (st = CAIRO_STATUS_READ_ERROR /\ (List.length data < size)%nat /\
   indicator s' = true).
Proof.
  intros Hrun.
  destruct (stdio_read_loop_counts fuel s [] size st data s' Hrun)
    as (more & -> & Hst).
  exact Hst.
Qed.

End StdioCounts.

(** ** The streams of the model *)

Lemma reading_fread_got (r : reading) (n : nat) :
  fst (reading_fread r n) = firstn (reading_want r n) (reading_ahead r).
Proof. reflexivity. Qed.

Lemma reading_fread_ahead (r : reading) (n : nat) :
  reading_ahead (snd (reading_fread r n))
  = skipn (reading_want r n) (reading_ahead r).
Proof.
  unfold reading_fread; cbv zeta; cbn [snd].
  fold (reading_want r n).
  unfold reading_ahead at 1; cbn [r_file stream_pos stream_data].
  rewrite Nat.add_comm, <- skipn_skipn; fold (reading_ahead r).
  rewrite length_firstn.
  destruct (Nat.le_ge_cases (reading_want r n) (List.length (reading_ahead r)))
    as [L|G].
  - now rewrite Nat.min_l.
  - rewrite Nat.min_r by exact G.
    rewrite !skipn_all2; [reflexivity | exact G | lia].
Qed.

Lemma reading_fread_eof (r : reading) (n : nat) :
  r_eof (snd (reading_fread r n))
  = r_eof r || (List.length (reading_ahead r) <? reading_want r n)%nat.
Proof. reflexivity. Qed.

(** The streams [reading] models keep the contract. *)
Lemma reading_fread_contract : fread_contract reading_ahead reading_sound.
Proof.
  intros r n (Herr & Hchunk & Heof); cbv zeta.
  unfold indicator; cbn [fread feof ferror reading_stdio].
  rewrite reading_fread_got, reading_fread_ahead, reading_fread_eof.
  change (r_error (snd (reading_fread r n))) with (r_error r).
  set (ahead := reading_ahead r) in *.
  set (want := reading_want r n).
  assert (Hwant : (want <= n)%nat)
    by (unfold want, reading_want; destruct (r_eof r), (r_chunk r); lia).
  assert (Hwant0 : r_eof r = false -> (0 < n -> 0 < want)%nat).
  { unfold want, reading_want; intros ->.
    destruct (r_chunk r) as [[|c]|]; [congruence | lia | lia]. }
  assert (Hend : r_eof r || (List.length ahead <? want)%nat = true ->
                 skipn want ahead = []).
  { intros E; apply orb_true_iff in E; destruct E as [E|E].
    - rewrite (Heof E); now destruct want.
    - apply Nat.ltb_lt in E; apply skipn_all2; lia. }
  rewrite Herr, orb_false_r.
  split; [|split; [|split; [|split]]].
  - unfold reading_sound.
    rewrite reading_fread_ahead, reading_fread_eof.
    change (r_error (snd (reading_fread r n))) with (r_error r).
    change (r_chunk (snd (reading_fread r n))) with (r_chunk r).
    auto.
  - symmetry; apply firstn_skipn.
  - rewrite length_firstn; lia.
  - intros Hn Hnil.
    assert (E : List.length (firstn want ahead) = 0%nat) by now rewrite Hnil.
    rewrite length_firstn in E.
    destruct (r_eof r) eqn:Eeof; [reflexivity|].
    cbn [orb]; apply Nat.ltb_lt.
    specialize (Hwant0 eq_refl Hn); lia.
  - exact Hend.
Qed.

Lemma reading_fread_bound (r : reading) (n : nat) :
  (List.length (fst (fread r n)) <= n)%nat.
Proof.
  cbn [fread reading_stdio]; rewrite reading_fread_got, length_firstn.
  unfold reading_want; destruct (r_eof r), (r_chunk r); lia.
Qed.

Lemma chunked_reading_sound (data : list Byte.byte) :
  reading_sound (chunked_reading data).
Proof. repeat split; cbn; congruence. Qed.

Lemma stdio_read_func_delivers_witness :
  exists s',
    stdio_read_func 7 (chunked_reading eight_bytes) 7
      = Some (CAIRO_STATUS_SUCCESS,
              firstn 7 (reading_ahead (chunked_reading eight_bytes)), s') /\
    reading_ahead s' = skipn 7 (reading_ahead (chunked_reading eight_bytes)).
Proof.
  apply (stdio_read_func_delivers reading_ahead reading_sound
           reading_fread_contract 7 (chunked_reading eight_bytes) 7
           (chunked_reading_sound eight_bytes));
    cbn; lia.
Defined.

Lemma stdio_read_func_short_witness :
  exists s',
    stdio_read_func 9 (chunked_reading eight_bytes) 12
      = Some (CAIRO_STATUS_READ_ERROR,
              reading_ahead (chunked_reading eight_bytes), s') /\
    reading_ahead s' = [].
Proof.
  apply (stdio_read_func_short reading_ahead reading_sound
           reading_fread_contract 9 (chunked_reading eight_bytes) 12
           (chunked_reading_sound eight_bytes));
    cbn; lia.
Defined.

Lemma stdio_read_func_compose_witness :
  exists b1 s1 b2 s2 s12,
    stdio_read_func 8 (chunked_reading eight_bytes) 5
      = Some (CAIRO_STATUS_SUCCESS, b1, s1) /\
    stdio_read_func 8 s1 3 = Some (CAIRO_STATUS_SUCCESS, b2, s2) /\
    stdio_read_func 8 (chunked_reading eight_bytes) (5 + 3)
      = Some (CAIRO_STATUS_SUCCESS, (b1 ++ b2)%list, s12) /\
    reading_ahead s2 = reading_ahead s12.
Proof.
  apply (stdio_read_func_compose reading_ahead reading_sound
           reading_fread_contract 8 (chunked_reading eight_bytes) 5 3
           (chunked_reading_sound eight_bytes));
    cbn; lia.
Defined.

Lemma stdio_read_func_status_counts_witness :
  exists st data s',
    stdio_read_func 9 (chunked_reading eight_bytes) 12 = Some (st, data, s') /\
    ((st = CAIRO_STATUS_SUCCESS /\ List.length data = 12%nat) \/
     (st = CAIRO_STATUS_READ_ERROR /\ (List.length data < 12)%nat /\
      indicator s' = true)).
Proof.
  eexists; eexists; eexists; split; [reflexivity|].
  apply (stdio_read_func_status_counts reading_fread_bound 9
           (chunked_reading eight_bytes) 12).
  reflexivity.
Defined.

(** ** The round trip through the temporary stream *)

(** On a stream that delivers what it is asked for, one [fread] settles the
    call. *)
Lemma reading_read_once (r : reading) (size : nat) :
  r_chunk r = None -> r_eof r = false ->
  exists r',
    stdio_read_func 1 r size
      = Some (if (size <=? List.length (reading_ahead r))%nat
              then CAIRO_STATUS_SUCCESS else CAIRO_STATUS_READ_ERROR,
              firstn size (reading_ahead r), r') /\
    reading_ahead r' = skipn size (reading_ahead r) /\
    r_error r' = r_error r.
Proof.
  intros Hchunk Heof0.
  destruct size as [|k].
  - exists r; cbn; auto.
  - unfold stdio_read_func; cbn [stdio_read_loop app].
    cbn [fread feof ferror reading_stdio].
    pose proof (reading_fread_got r (S k)) as Hgot.
    pose proof (reading_fread_ahead r (S k)) as Hahead.
    pose proof (reading_fread_eof r (S k)) as Heof.
    assert (Herr : r_error (snd (reading_fread r (S k))) = r_error r)
      by reflexivity.
    unfold reading_want in *; rewrite Hchunk, Heof0 in *.
    destruct (reading_fread r (S k)) as [got r1]; cbn [fst snd] in *.
    exists r1. split; [|split; [exact Hahead | exact Herr]].
    rewrite Hgot, length_firstn, Heof; cbn [orb].
    destruct (Nat.leb_spec (S k) (List.length (reading_ahead r))) as [L|G].
    + rewrite Nat.min_l, Nat.sub_diag by exact L; reflexivity.
    + rewrite Nat.min_r by lia.
      replace (Nat.eqb (S k - List.length (reading_ahead r)) 0) with false
        by (symmetry; apply Nat.eqb_neq; lia).
      replace (List.length (reading_ahead r) <? S k)%nat with true
        by (symmetry; apply Nat.ltb_lt; lia).
      reflexivity.
Qed.

Section ReadBack.
Context {D : Type} {arith : DoubleArith D}.
Variable env : collaborators D.

(** X5.  The round trip through the temporary stream: what
    [MagickWriteImageFile] wrote is, after [fseek(processedImage, 0, 0)],
    exactly what [stdio_read_func] delivers and what the PNG reader is
    given. *)
Theorem written_image_reads_back (wand : MagickWand) (img : magick_image)
    (w : world D) :
  wand_image wand = Some img -> reads_back env wand img w.
Proof.
  intros Hw; unfold reads_back, written_and_rewound; cbv zeta.
  unfold tmpfile, add_stream, MagickWriteImageFile, bind, engine_called, ret,
    fseek, cairo_image_surface_create_from_png_stream.
  rewrite Hw; cbn [fst snd stream_id stream_of stream_data stream_pos firstn
                   skipn app Nat.add].
  set (bytes := magick_encode env img).
  set (f0 := mk_FILE (next_stream w) TEMP_FILE bytes 0).
  set (f1 := mk_FILE (next_stream w) TEMP_FILE bytes (List.length bytes)).
  assert (A0 : reading_ahead (open_reading f0) = bytes) by reflexivity.
  assert (A1 : reading_ahead (open_reading f1) = [])
    by (unfold reading_ahead; cbn; apply skipn_all).
  split; [|split; [reflexivity|split]].
  - destruct (reading_read_once (open_reading f0) (List.length bytes) eq_refl
                eq_refl)
      as (s' & R & A & _).
    rewrite A0, Nat.leb_refl, firstn_all in R.
    exists s'; split; [exact R|]. rewrite A, A0; apply skipn_all.
  - destruct (reading_read_once (open_reading f0) (S (List.length bytes))
                eq_refl eq_refl) as (s' & R & _).
    rewrite A0 in R.
    replace (S (List.length bytes) <=? List.length bytes)%nat with false in R
      by (symmetry; apply Nat.leb_gt; lia).
    rewrite firstn_all2 in R by lia.
    exists s'; exact R.
  - intros Hne.
    destruct (reading_read_once (open_reading f1) (List.length bytes) eq_refl
                eq_refl)
      as (s' & R & _).
    rewrite A1 in R.
    replace (List.length bytes <=? List.length (@nil Byte.byte))%nat
      with false in R
      by (symmetry; apply Nat.leb_gt; destruct bytes; [congruence | cbn; lia]).
    rewrite firstn_nil in R.
    exists s'; exact R.
Qed.

End ReadBack.

Lemma written_image_reads_back_witness :
  reads_back (D := xdouble) sample_collaborators
    (mk_wand (Some sample_rgb) EmptyString) sample_rgb process_start.
Proof.
  apply (written_image_reads_back (D := xdouble) sample_collaborators
           (mk_wand (Some sample_rgb) EmptyString) sample_rgb process_start).
  reflexivity.
Defined.

(* ================================================================== *)
(** * Further properties: the renderer *)

Section RenderModes.
Context {D : Type} {arith : DoubleArith D}.

(** The renderer stops on the assertion exactly for the two modes it does
    not accept. *)
Lemma render_none_iff (cairo : cairo_t D) (image : cairo_surface_t)
    (mode : background_mode) (buffer_width buffer_height : Z) :
  render_background_image cairo image mode buffer_width buffer_height = None
  <-> compositor_mode mode = false.
Proof.
  unfold render_background_image; cbv zeta.
  destruct mode; cbn [compositor_mode];
    repeat match goal with
    | |- context [if ?b then _ else _] => destruct b
    end;
    split; intros E; solve [reflexivity | discriminate E].
Qed.

(** X6.  From the configuration text to the paint: the mode parsed from a
    string makes the renderer stop on its assertion exactly when the string
    is not one of "stretch", "fill", "fit", "center", "tile"; so
    "solid_color" and every unrecognized string do. *)
Theorem parsed_mode_renders (cairo : cairo_t D) (image : cairo_surface_t)
    (buffer_width buffer_height : Z) (mode : string) (log : list log_entry) :
  render_background_image cairo image
    (fst (parse_background_mode mode log)) buffer_width buffer_height = None
  <-> ~ In (c_str mode) renderable_tokens.
Proof.
  rewrite render_none_iff.
  unfold parse_background_mode; rewrite !strcmp_eqb.
  change (c_str "stretch") with "stretch"%string.
  change (c_str "fill") with "fill"%string.
  change (c_str "fit") with "fit"%string.
  change (c_str "center") with "center"%string.
  change (c_str "tile") with "tile"%string.
  change (c_str "solid_color") with "solid_color"%string.
  unfold renderable_tokens.
  repeat match goal with
  | |- context [String.eqb (c_str mode) ?t] =>
      destruct (String.eqb_spec (c_str mode) t) as [->|?]
  end; cbn [fst compositor_mode In];
    split; intros H; try discriminate H; try reflexivity;
    try (exfalso; apply H; tauto);
    try (intros K; repeat (destruct K as [K|K]; try congruence)).
Qed.

(** X7.  TILE: no scale call; the source is the image as a pattern
    anchored at the origin and extended by repetition; the paint is carried
    out under the transform of the caller; and neither the size of the
    buffer nor that of the image enters: the result is the same for every
    buffer size. *)
Theorem render_tile_repeats (cairo : cairo_t D) (image : cairo_surface_t)
    (buffer_width buffer_height : Z) :
  exists cairo',
    render_background_image cairo image BACKGROUND_MODE_TILE
      buffer_width buffer_height = Some cairo' /\
    calls cairo' =
      (calls cairo ++ [CALL_SAVE; CALL_SET_SOURCE (tile_pattern image);
                       CALL_PAINT; CALL_RESTORE])%list /\
    (cairo_ok cairo = true ->
     painted cairo' =
       (painted cairo ++
        [mk_gstate (ctm (gstate cairo)) (Some (tile_pattern image))])%list /\
     cairo_ok cairo' = true /\ saved cairo' = saved cairo) /\
    (forall bw bh,
       render_background_image cairo image BACKGROUND_MODE_TILE bw bh
       = Some cairo').
Proof.
  exists (cairo_restore (cairo_paint
            (cairo_set_source (cairo_save cairo) (tile_pattern image)))).
  split; [reflexivity|].
  split; [calls_issued; reflexivity|].
  split; [|intros bw bh; reflexivity].
  destruct cairo as [st g sv pt cl]; unfold cairo_ok; cbn [status].
  destruct st; cbn [cairo_status_eqb]; intros Hok; try discriminate Hok.
  repeat cairo_step; cbn [painted saved status gstate ctm cairo_status_eqb].
  repeat split.
Qed.

(** One call on a context in error leaves it in error and as it is. *)
Lemma save_on_error (cr0 cr : cairo_t D) :
  still_in_error cr0 cr -> still_in_error cr0 (cairo_save cr).
Proof.
  unfold still_in_error, cairo_save, cairo_called, cairo_ok,
    unchanged_but_calls; cbn.
  intros [E H]; rewrite E; cbn; rewrite E; auto.
Qed.

Lemma scale_on_error (cr0 cr : cairo_t D) (sx sy : D) :
  still_in_error cr0 cr -> still_in_error cr0 (cairo_scale cr sx sy).
Proof.
  unfold still_in_error, cairo_scale, cairo_called, cairo_ok,
    unchanged_but_calls; cbn.
  intros [E H]; rewrite E; cbn; rewrite E; auto.
Qed.

Lemma set_source_surface_on_error (cr0 cr : cairo_t D) s (x y : D) :
  still_in_error cr0 cr ->
  still_in_error cr0 (cairo_set_source_surface cr s x y).
Proof.
  unfold still_in_error, cairo_set_source_surface, gstate_set_source,
    cairo_called, cairo_ok, unchanged_but_calls; cbn.
  intros [E H]; rewrite E; cbn; rewrite E; auto.
Qed.

Lemma set_source_on_error (cr0 cr : cairo_t D) p :
  still_in_error cr0 cr -> still_in_error cr0 (cairo_set_source cr p).
Proof.
  unfold still_in_error, cairo_set_source, gstate_set_source, cairo_called,
    cairo_ok, unchanged_but_calls; cbn.
  intros [E H]; rewrite E; cbn; rewrite E; auto.
Qed.

Lemma paint_on_error (cr0 cr : cairo_t D) :
  still_in_error cr0 cr -> still_in_error cr0 (cairo_paint cr).
Proof.
  unfold still_in_error, cairo_paint, cairo_called, cairo_ok,
    unchanged_but_calls; cbn.
  intros [E H]; rewrite E; cbn; rewrite E; auto.
Qed.

Lemma restore_on_error (cr0 cr : cairo_t D) :
  still_in_error cr0 cr -> still_in_error cr0 (cairo_restore cr).
Proof.
  unfold still_in_error, cairo_restore, cairo_called, cairo_ok,
    unchanged_but_calls; cbn.
  intros [E H]; rewrite E; cbn; rewrite E; auto.
Qed.

(** X8.  On a context that is already in error, the renderer changes
    nothing: status, graphics state, stack of saved states and paints are
    those of the caller, for every mode it accepts and every size. *)
Theorem render_inert_on_error (cairo : cairo_t D) (image : cairo_surface_t)
    (mode : background_mode) (buffer_width buffer_height : Z) :
  cairo_ok cairo = false -> compositor_mode mode = true ->
  exists cairo',
    render_background_image cairo image mode buffer_width buffer_height
      = Some cairo' /\
    unchanged_but_calls cairo cairo'.
Proof.
  intros E Hmode.
  assert (E0 : still_in_error cairo cairo) by (repeat split; exact E).
  assert (close : forall cr, still_in_error cairo cr ->
            exists cairo', Some (cairo_restore (cairo_paint cr)) = Some cairo' /\
                           unchanged_but_calls cairo cairo').
  { intros cr Ec.
    eexists; split; [reflexivity|].
    apply restore_on_error, paint_on_error, Ec. }
  destruct mode; try discriminate Hmode; unfold render_background_image;
    cbv zeta;
    repeat match goal with
    | |- context [if ?b then _ else _] => destruct b
    end;
    apply close;
    repeat first
      [ apply set_source_surface_on_error
      | apply set_source_on_error
      | apply scale_on_error
      | apply save_on_error
      | exact E0 ].
Qed.

End RenderModes.

Lemma render_inert_on_error_witness :
  exists cairo',
    render_background_image (D := xdouble) cairo_in_error
      (blank_image 100 50) BACKGROUND_MODE_FILL 200 100 = Some cairo' /\
    unchanged_but_calls cairo_in_error cairo'.
Proof.
  apply (render_inert_on_error (D := xdouble) cairo_in_error
           (blank_image 100 50) BACKGROUND_MODE_FILL 200 100);
    reflexivity.
Defined.

Local Open Scope Q_scope.

(** ** The whole pipeline on a context that is not in error *)

Lemma scale_accepted (sx sy : Q) :
  ~ sx == 0 -> ~ sy == 0 ->
  dbl_eqb (dbl_mul (XFin sx) (XFin sy)) (dbl_of_int 0) = false.
Proof.
  intros Nx Ny; exact_arith; cbn [xmul]; apply xeqb_fin_false; intros E.
  destruct (Qmult_integral _ _ E); contradiction.
Qed.

Lemma pipeline_accepted (g : cairo_gstate_t xdouble)
    (sv pt : list (cairo_gstate_t xdouble)) (cl : list (cairo_call xdouble))
    (image : cairo_surface_t) (sx sy : Q) (ox oy : xdouble) :
  ~ sx == 0 -> ~ sy == 0 ->
  cairo_restore (cairo_paint (cairo_set_source_surface
    (cairo_scale (cairo_save (mk_cairo CAIRO_STATUS_SUCCESS g sv pt cl))
       (XFin sx) (XFin sy)) image ox oy))
  = mk_cairo CAIRO_STATUS_SUCCESS g sv
      (pt ++ [scaled_state g image (XFin sx) (XFin sy) ox oy])
      (cl ++ scaled_calls image (XFin sx) (XFin sy) ox oy).
Proof.
  intros Nx Ny.
  cairo_step; cairo_step; rewrite (scale_accepted sx sy Nx Ny).
  cbn [dbl_isfinite xdouble_arith xisfinite andb negb].
  repeat cairo_step. cbn [ctm source].
  unfold scaled_state, scaled_calls; rewrite <- !app_assoc; reflexivity.
Qed.

Lemma xdiv_by_zero (x : Q) : 0 < x -> xdiv (XFin x) (XFin 0) = XPInf.
Proof.
  intros P; cbn.
  rewrite (Qis_zero_false x (Qpos_neq0 x P)).
  unfold Qis_neg. destruct x as [n d]; unfold Qlt in P; cbn in *.
  destruct (Z.ltb_spec n 0); [lia | reflexivity].
Qed.

Lemma painted_once_accepted (g : cairo_gstate_t xdouble)
    (sv pt : list (cairo_gstate_t xdouble)) (cl : list (cairo_call xdouble))
    (image : cairo_surface_t) (sx sy : Q) (ox oy : xdouble) :
  ~ sx == 0 -> ~ sy == 0 ->
  painted_once (mk_cairo CAIRO_STATUS_SUCCESS g sv pt cl)
    (Some (cairo_restore (cairo_paint (cairo_set_source_surface
       (cairo_scale (cairo_save (mk_cairo CAIRO_STATUS_SUCCESS g sv pt cl))
          (XFin sx) (XFin sy)) image ox oy)))).
Proof.
  intros Nx Ny.
  rewrite (pipeline_accepted g sv pt cl image sx sy ox oy Nx Ny).
  eexists; eexists; split; [reflexivity|].
  cbn [status gstate saved painted]; repeat split; discriminate.
Qed.

(** X10.  On a context that is not in error, with an image and a buffer of
    positive sizes, every accepted mode goes through: the context is still
    not in error, its graphics state and its stack of saved states are
    those of the caller, and exactly one paint was carried out, with a
    source set. *)
Theorem render_paints_once (cairo : cairo_t xdouble) (image : cairo_surface_t)
    (mode : background_mode) (buffer_width buffer_height : Z) :
  cairo_ok cairo = true -> compositor_mode mode = true ->
  (0 < surface_width image)%Z -> (0 < surface_height image)%Z ->
  (0 < buffer_width)%Z -> (0 < buffer_height)%Z ->
  painted_once cairo
    (render_background_image cairo image mode buffer_width buffer_height).
Proof.
  intros Hok Hmode w_pos h_pos bw_pos bh_pos.
  set (W := inject_Z (surface_width image)).
  set (H := inject_Z (surface_height image)).
  set (BW := inject_Z buffer_width). set (BH := inject_Z buffer_height).
  assert (W_pos : 0 < W) by apply inject_Z_pos, w_pos.
  assert (H_pos : 0 < H) by apply inject_Z_pos, h_pos.
  assert (BW_pos : 0 < BW) by apply inject_Z_pos, bw_pos.
  assert (BH_pos : 0 < BH) by apply inject_Z_pos, bh_pos.
  assert (NW := Qpos_neq0 _ W_pos). assert (NH := Qpos_neq0 _ H_pos).
  assert (NBH := Qpos_neq0 _ BH_pos).
  assert (NSX := Qpos_neq0 _ (Qdiv_pos _ _ BW_pos W_pos)).
  assert (NSY := Qpos_neq0 _ (Qdiv_pos _ _ BH_pos H_pos)).
  destruct cairo as [st g sv pt cl]; unfold cairo_ok in Hok; cbn [status] in Hok.
  destruct st; try discriminate Hok; clear Hok.
  unfold render_background_image, cairo_image_surface_get_width,
    cairo_image_surface_get_height; cbv zeta.
  destruct mode; try discriminate Hmode; exact_arith; fold W H BW BH;
    rewrite ?(xdiv_fin BW BH NBH), ?(xdiv_fin W H NH);
    try destruct (xgt _ _);
    rewrite ?(xdiv_fin BW W NW), ?(xdiv_fin BH H NH);
    try (apply painted_once_accepted; assumption).
  - (* CENTER *)
    eexists; eexists; split; [reflexivity|].
    repeat cairo_step; cbn [status gstate saved painted source].
    repeat split; discriminate.
  - (* TILE *)
    eexists; eexists; split; [reflexivity|].
    repeat cairo_step; cbn [status gstate saved painted source].
    repeat split; discriminate.
Qed.

Lemma rounded_not_finite (sx sy : xdouble) :
  xisfinite sx && xisfinite sy = false ->
  dbl_eqb (DoubleArith := rounded_arith)
    (dbl_mul (DoubleArith := rounded_arith) sx sy)
    (dbl_of_int (DoubleArith := rounded_arith) 0) = false.
Proof.
  change (dbl_of_int (DoubleArith := rounded_arith) 0) with (XFin 0).
  cbn [dbl_eqb dbl_mul rounded_arith].
  destruct sx as [x| | |], sy as [y| | |]; cbn [xisfinite andb xmul];
    intros E; try discriminate E; try reflexivity;
    repeat match goal with
    | |- context [if ?b then _ else _] => destruct b
    end; reflexivity.
Qed.

Lemma rounded_refused (cairo : cairo_t xdouble) (image : cairo_surface_t)
    (sx sy ox oy : xdouble) :
  cairo_ok cairo = true ->
  sx = XPInf \/ sy = XPInf ->
  refused_not_finite cairo image
    (Some (cairo_restore (cairo_paint (cairo_set_source_surface
       (cairo_scale (arith := rounded_arith) (cairo_save cairo) sx sy)
       image ox oy)))).
Proof.
  intros Hok Inf.
  assert (E : xisfinite sx && xisfinite sy = false).
  { destruct Inf as [-> | ->]; [reflexivity | apply andb_false_r]. }
  eexists; exists sx, sy, ox, oy. split; [reflexivity|].
  split; [calls_issued; reflexivity|].
  split; [exact Inf|].
  destruct cairo as [st g sv pt cl]; unfold cairo_ok in Hok; cbn [status] in Hok.
  destruct st; try discriminate Hok; clear Hok.
  cairo_step; cairo_step; rewrite (rounded_not_finite sx sy E).
  cbn [dbl_isfinite rounded_arith]; rewrite E; cbn [negb].
  repeat cairo_step. cbn [status painted gstate saved]. auto.
Qed.

Lemma rounded_size (z : Z) :
  is_size z ->
  exists x, dbl_of_int (DoubleArith := rounded_arith) z = XFin x /\ 0 < x.
Proof.
  intros Hz. exists (Qred (inject_Z z)).
  split; [apply rounded_of_int, int_abs, Hz|].
  rewrite Qred_correct. destruct (int_range z Hz). lra.
Qed.

Lemma rounded_div_by_zero (x : Q) :
  0 < x ->
  dbl_div (DoubleArith := rounded_arith) (XFin x)
    (dbl_of_int (DoubleArith := rounded_arith) 0) = XPInf.
Proof.
  intros P.
  change (dbl_of_int (DoubleArith := rounded_arith) 0) with (XFin 0).
  cbn [dbl_div rounded_arith]. now rewrite (xdiv_by_zero x P).
Qed.

Lemma dbl_ratio_by_zero (c : Z) : is_size c -> dbl_ratio c 0 = XPInf.
Proof.
  intros Hc. destruct (rounded_size c Hc) as (x & E & P).
  unfold dbl_ratio. rewrite E. apply rounded_div_by_zero, P.
Qed.

Lemma dbl_ratio_positive (c a : Z) :
  is_size c -> is_size a -> exists s, dbl_ratio c a = XFin s /\ 0 < s.
Proof.
  intros Hc Ha.
  destruct (ratio_value c a Hc Ha) as (s & E & _ & _ & L & _).
  exists s. split; [|lra].
  unfold dbl_ratio. rewrite rounded_int_div; [exact E | | |].
  - apply int_abs, Hc.
  - apply int_abs, Ha.
  - destruct Ha; lia.
Qed.

Lemma dbl_ratio_of_zero (a : Z) : is_size a -> dbl_ratio 0 a = XFin 0.
Proof.
  intros Ha. unfold dbl_ratio.
  rewrite rounded_int_div; [| reflexivity | apply int_abs, Ha | destruct Ha; lia].
  assert (E : inject_Z 0 / inject_Z a == 0).
  { destruct (int_range a Ha). change (inject_Z 0) with 0. field. lra. }
  rewrite (round64_comp _ _ E). reflexivity.
Qed.

Lemma xgt_nan (a : xdouble) : xgt a XNaN = false.
Proof. destruct a; reflexivity. Qed.

(** X11.  STRETCH and FILL in binary64 on an image of width or height 0
    (buffer sizes positive C [int]s, context not in error): the program
    issues save, scale, set-source, paint and restore, and a factor it
    hands to the scale call is infinite, the quotient of a positive size
    by zero; on a context that refuses a scale that is not finite, nothing
    is painted, the context is left in error, and the state saved on entry
    stays on the stack. *)
Theorem render_empty_image_refused_rounded (cairo : cairo_t xdouble)
    (image : cairo_surface_t) (mode : background_mode)
    (buffer_width buffer_height : Z) :
  cairo_ok cairo = true ->
  mode = BACKGROUND_MODE_STRETCH \/ mode = BACKGROUND_MODE_FILL ->
  (0 <= surface_width image <= INT_MAX)%Z ->
  (0 <= surface_height image <= INT_MAX)%Z ->
  surface_width image = 0%Z \/ surface_height image = 0%Z ->
  is_size buffer_width -> is_size buffer_height ->
  refused_not_finite cairo image
    (render_background_image (arith := rounded_arith) cairo image mode
       buffer_width buffer_height).
Proof.
  intros Hok Hmode [w_nn w_max] [h_nn h_max] Hzero bw_size bh_size.
  set (w := surface_width image) in *. set (h := surface_height image) in *.
  assert (Infw : w = 0%Z -> dbl_ratio buffer_width w = XPInf)
    by (intros ->; apply dbl_ratio_by_zero, bw_size).
  assert (Infh : h = 0%Z -> dbl_ratio buffer_height h = XPInf)
    by (intros ->; apply dbl_ratio_by_zero, bh_size).
  destruct Hmode as [-> | ->].
  - (* STRETCH *)
    change (render_background_image (arith := rounded_arith) cairo image
              BACKGROUND_MODE_STRETCH buffer_width buffer_height)
      with (Some (cairo_restore (cairo_paint (cairo_set_source_surface
              (cairo_scale (arith := rounded_arith) (cairo_save cairo)
                 (dbl_ratio buffer_width w) (dbl_ratio buffer_height h))
              image (XFin 0) (XFin 0))))).
    apply rounded_refused; [exact Hok|].
    destruct Hzero as [E|E]; [left; exact (Infw E) | right; exact (Infh E)].
  - (* FILL *)
    assert (R : render_background_image (arith := rounded_arith) cairo image
                  BACKGROUND_MODE_FILL buffer_width buffer_height
      = if xgt (dbl_ratio buffer_width buffer_height) (dbl_ratio w h)
        then Some (cairo_restore (cairo_paint (cairo_set_source_surface
               (cairo_scale (arith := rounded_arith) (cairo_save cairo)
                  (dbl_ratio buffer_width w) (dbl_ratio buffer_width w))
               image (XFin 0)
               (dbl_centre buffer_height h (dbl_ratio buffer_width w)))))
        else Some (cairo_restore (cairo_paint (cairo_set_source_surface
               (cairo_scale (arith := rounded_arith) (cairo_save cairo)
                  (dbl_ratio buffer_height h) (dbl_ratio buffer_height h))
               image
               (dbl_centre buffer_width w (dbl_ratio buffer_height h))
               (XFin 0))))).
    { unfold render_background_image, cairo_image_surface_get_width,
        cairo_image_surface_get_height; cbv zeta. fold w h.
      change (dbl_gt (DoubleArith := rounded_arith)
                (dbl_div (DoubleArith := rounded_arith)
                   (dbl_of_int (DoubleArith := rounded_arith) buffer_width)
                   (dbl_of_int (DoubleArith := rounded_arith) buffer_height))
                (dbl_div (DoubleArith := rounded_arith)
                   (dbl_of_int (DoubleArith := rounded_arith) w)
                   (dbl_of_int (DoubleArith := rounded_arith) h)))
        with (xgt (dbl_ratio buffer_width buffer_height) (dbl_ratio w h)).
      destruct (xgt (dbl_ratio buffer_width buffer_height) (dbl_ratio w h));
        reflexivity. }
    rewrite R; clear R.
    destruct (dbl_ratio_positive buffer_width buffer_height bw_size bh_size)
      as (wr & Ewr & Pwr).
    rewrite Ewr.
    assert (Cases :
      (w = 0%Z /\ h = 0%Z) \/ (w = 0%Z /\ is_size h) \/ (is_size w /\ h = 0%Z))
      by (unfold is_size; lia).
    destruct Cases as [[Ew Eh]|[[Ew Hh]|[Hw Eh]]].
    + (* 0 x 0: the ratio of the image is not a number *)
      assert (T : dbl_ratio w h = XNaN) by (rewrite Ew, Eh; reflexivity).
      rewrite T, xgt_nan.
      apply rounded_refused; [exact Hok | left; exact (Infh Eh)].
    + (* 0 x h: the window is the wider, the width drives *)
      assert (T : dbl_ratio w h = XFin 0)
        by (rewrite Ew; apply dbl_ratio_of_zero, Hh).
      rewrite T, (xgt_fin_true wr 0 Pwr).
      apply rounded_refused; [exact Hok | left; exact (Infw Ew)].
    + (* w x 0: the image is the wider, the height drives *)
      assert (T : dbl_ratio w h = XPInf)
        by (rewrite Eh; apply dbl_ratio_by_zero, Hw).
      rewrite T. cbn [xgt].
      apply rounded_refused; [exact Hok | left; exact (Infh Eh)].
Qed.

Local Close Scope Q_scope.

Lemma render_paints_once_witness :
  painted_once cairo_create
    (render_background_image cairo_create (blank_image 100 100)
       BACKGROUND_MODE_CENTER 101 101).
Proof.
  apply (render_paints_once cairo_create (blank_image 100 100)
           BACKGROUND_MODE_CENTER 101 101); reflexivity.
Defined.

Lemma render_empty_image_refused_rounded_witness :
  refused_not_finite cairo_create (blank_image 0 100)
    (render_background_image (arith := rounded_arith) cairo_create
       (blank_image 0 100) BACKGROUND_MODE_FILL 200 100).
Proof.
  apply (render_empty_image_refused_rounded cairo_create (blank_image 0 100)
           BACKGROUND_MODE_FILL 200 100);
    first [reflexivity | right; reflexivity | left; reflexivity
          | vm_compute; split; discriminate].
Defined.

(* ================================================================== *)
(** * Further properties: the loader *)

Lemma cairo_status_eqb_eq (a b : cairo_status_t) :
  cairo_status_eqb a b = true -> a = b.
Proof. destruct a, b; cbn; intros E; solve [reflexivity | discriminate E]. Qed.

Section LoaderFactsFurther.
Context {D : Type} {arith : DoubleArith D}.
Variable env : collaborators D.

(** X14.  Never a handle that is not valid, never a silent failure: a load
    that returns a surface returns one whose status is success and logs
    nothing; a load that returns nothing appends exactly one entry to the
    log, an error. *)
Theorem load_reports_every_failure (path : string) (blur opacity : D)
    (w : world D) :
  reported env path blur opacity w.
Proof.
  unfold reported.
  destruct (fs_open env (c_str path)) as [data|err] eqn:E1.
  - destruct (magick_decode env data) as [img|err] eqn:E2.
    + pose proof (load_decoded env path blur opacity w data img E1 E2) as L.
      cbv zeta in L; rewrite L; clear L.
      destruct (surface_ok _) eqn:Eok; cbn [log].
      * split; [|reflexivity]. apply cairo_status_eqb_eq, Eok.
      * eexists; reflexivity.
    + rewrite (load_decode_failure env path blur opacity w data err E1 E2).
      cbn [log]; eexists; reflexivity.
  - rewrite (load_open_failure env path blur opacity w err E1).
    cbn [log]; eexists; reflexivity.
Qed.

(** X15.  The open failure path: the result is absent, the one error
    logged carries the text for [errno], and the load has touched nothing
    else; the engine is not even initialized, whatever blur and opacity
    ask for. *)
Theorem load_open_failure_path (path : string) (blur opacity : D)
    (w : world D) (err : string) :
  fs_open env (c_str path) = inr err ->
  stopped_at_open env path blur opacity w err.
Proof.
  intros E; unfold stopped_at_open.
  rewrite (load_open_failure env path blur opacity w err E).
  cbn [log engine_calls open_streams next_stream magick_wands pixel_wands].
  repeat split.
Qed.

(** X16.  The decode failure path: the file opened and the engine refused
    it.  The program asks the engine for the type and the text of the
    exception, logs one error carrying that text, destroys the wand and
    returns an absent result; nothing of the rest of the load took place:
    no colorspace query, conversion, blur, overlay or write call, no
    temporary stream, no pixel wand. *)
Theorem load_decode_failure_path (path : string) (blur opacity : D)
    (w : world D) (data : list Byte.byte) (err : string) :
  fs_open env (c_str path) = inl data ->
  magick_decode env data = inr err ->
  stopped_at_decode env path blur opacity w err.
Proof.
  intros E1 E2; unfold stopped_at_decode.
  rewrite (load_decode_failure env path blur opacity w data err E1 E2).
  cbn [log engine_calls open_streams magick_wands pixel_wands].
  repeat split.
Qed.

(** X17.  A load that asks for nothing: with a blur and an opacity that
    are not above 0 and an image that is not CMYK, the engine is asked for
    the colorspace of the image and receives no conversion, blur, pixel
    wand or colorize call; the image reaches the encoder as decoded, and
    the result is the read-back of that image (absent when its status is
    not success). *)
Theorem load_without_processing (path : string) (blur opacity : D)
    (w : world D) (data : list Byte.byte) (img : magick_image) :
  fs_open env (c_str path) = inl data ->
  magick_decode env data = inl img ->
  image_colorspace img <> CMYKColorspace ->
  dbl_gt blur (dbl_of_int 0) = false ->
  dbl_gt opacity (dbl_of_int 0) = false ->
  passed_untouched env path blur opacity w img.
Proof.
  intros E1 E2 Ecs Eb Eo; unfold passed_untouched; cbv zeta.
  pose proof (load_decoded env path blur opacity w data img E1 E2) as L.
  cbv zeta in L; rewrite L; clear L.
  assert (Ep : processed env blur opacity img = img).
  { unfold processed, darkened, blurred, converted; rewrite Eb, Eo.
    destruct (image_colorspace img); cbn; congruence. }
  assert (Ec : processing_calls env blur opacity img = []).
  { unfold processing_calls, conversion_calls, blur_calls; rewrite Eb, Eo.
    destruct (image_colorspace img); cbn; congruence. }
  rewrite Ep, Ec, Eo; cbn [engine_calls pixel_wands app].
  split; [reflexivity|]. split; reflexivity.
Qed.

Lemma load_accumulates (path : string) (blur opacity : D) (w : world D) :
  let (r, w') := load_background_image env path blur opacity w in
  magick_wands w' = magick_wands w /\
  List.length (open_streams w') =
    (List.length (open_streams w)
     + (if opens env (path, blur, opacity) then 1 else 0)
     + (if decodes env (path, blur, opacity) then 1 else 0))%nat /\
  List.length (log w') =
    (List.length (log w) + if is_absent r then 1 else 0)%nat.
Proof.
  unfold opens, decodes; cbn [fst].
  destruct (fs_open env (c_str path)) as [data|err] eqn:E1.
  - destruct (magick_decode env data) as [img|err] eqn:E2.
    + pose proof (load_decoded env path blur opacity w data img E1 E2) as L.
      cbv zeta in L; rewrite L; clear L.
      cbn [magick_wands open_streams log].
      rewrite length_app; cbn [List.length].
      destruct (surface_ok _); cbn [is_absent];
        rewrite ?length_app; cbn [List.length]; lia.
    + rewrite (load_decode_failure env path blur opacity w data err E1 E2).
      cbn [magick_wands open_streams log is_absent].
      rewrite !length_app; cbn [List.length]; lia.
  - rewrite (load_open_failure env path blur opacity w err E1).
    cbn [magick_wands open_streams log is_absent].
    rewrite !length_app; cbn [List.length]; lia.
Qed.

(** X18.  Over any sequence of loads: one result per request; no wand is
    left alive; the streams held grow by one per file that opened and one
    more per file that decoded, none being closed; the log grows by one
    entry per absent result. *)
Theorem load_all_accumulates (requests : list (string * D * D)) (w : world D) :
  accumulated env requests w.
Proof.
  unfold accumulated.
  revert w; induction requests as [|[[path blur] opacity] rest IH]; intros w.
  - cbn; repeat split; lia.
  - cbn [load_all].
    pose proof (load_accumulates path blur opacity w) as L.
    destruct (load_background_image env path blur opacity w) as [r w1].
    specialize (IH w1).
    destruct (load_all env rest w1) as [rs w2].
    destruct L as (Lw & Ls & Ll); destruct IH as (In & Iw & Is & Il).
    cbn [filter List.length].
    rewrite In, Iw, Is, Il, Lw, Ls, Ll.
    destruct (opens env (path, blur, opacity)),
             (decodes env (path, blur, opacity)), (is_absent r);
      cbn [List.length]; repeat split; lia.
Qed.

End LoaderFactsFurther.

Lemma load_open_failure_path_witness :
  stopped_at_open (D := xdouble) sample_collaborators "absent.png"
    (XFin 3) (XFin 50) process_start "No such file or directory".
Proof.
  apply (load_open_failure_path (D := xdouble) sample_collaborators
           "absent.png" (XFin 3) (XFin 50) process_start
           "No such file or directory" eq_refl).
Defined.

Lemma load_decode_failure_path_witness :
  stopped_at_decode (D := xdouble) sample_collaborators "broken.png"
    (XFin 3) (XFin 50) process_start "improper image header".
Proof.
  apply (load_decode_failure_path (D := xdouble) sample_collaborators
           "broken.png" (XFin 3) (XFin 50) process_start [Byte.x00]
           "improper image header" eq_refl eq_refl).
Defined.

Lemma load_without_processing_witness :
  passed_untouched (D := xdouble) sample_collaborators "bg.png"
    XNaN (XFin (-5 # 1)) process_start sample_rgb.
Proof.
  apply (load_without_processing (D := xdouble) sample_collaborators
           "bg.png" XNaN (XFin (-5 # 1)) process_start [Byte.x01] sample_rgb
           eq_refl eq_refl);
    [discriminate | reflexivity | reflexivity].
Defined.

(** ** The order of the overlay *)

Local Open Scope Q_scope.

Section OverlayOrder.
Variable env : collaborators xdouble.
Let QR : Z := QuantumRange env.
Hypothesis QR_pos : (0 < QR)%Z.
Hypothesis QR_uint16 : (QR <= 65535)%Z.

(** X19.  The level of the overlay grows with the opacity: for two
    opacities in (0, 100], the larger gives a level at least as high. *)
Theorem opacity_level_monotone (q1 q2 : Q) :
  0 < q1 -> q1 <= q2 -> q2 <= 100 ->
  (opacity_level env (XFin q1) <= opacity_level env (XFin q2))%Z.
Proof.
  intros Lo Le Hi.
  destruct (opacity_level_floor env QR_pos QR_uint16 q1 Lo
              (Qle_trans _ _ _ Le Hi)) as [E1 _].
  destruct (opacity_level_floor env QR_pos QR_uint16 q2
              (Qlt_le_trans _ _ _ Lo Le) Hi) as [E2 _].
  rewrite E1, E2; apply Qfloor_resp_le.
  assert (P : 0 < inject_Z QR) by apply inject_Z_pos, QR_pos.
  fold QR. set (r := inject_Z QR) in *; clearbody r.
  apply Qmult_le_l; [exact P|].
  unfold Qdiv; apply Qmult_le_compat_r; [exact Le | discriminate].
Qed.

Lemma colour_order (c l1 l2 r : Q) :
  0 < r -> 0 <= l1 -> l1 <= l2 -> l2 <= r -> 0 <= c ->
  0 <= (c * (r - l2) + 0 * l2) / r /\
  (c * (r - l2) + 0 * l2) / r <= (c * (r - l1) + 0 * l1) / r /\
  (c * (r - l1) + 0 * l1) / r <= c.
Proof.
  intros R L0 L12 L2 C.
  assert (Ir : 0 <= / r) by (apply Qlt_le_weak, Qinv_lt_0_compat, R).
  split; [|split].
  - apply Qle_shift_div_l; [exact R | nra].
  - unfold Qdiv; apply Qmult_le_compat_r; [nra | exact Ir].
  - apply Qle_shift_div_r; [exact R | nra].
Qed.

Lemma alpha_order (a l1 l2 r : Q) :
  0 < r -> 0 <= l1 -> l1 <= l2 -> l2 <= r -> 0 <= a -> a <= r ->
  a <= (a * (r - l1) + r * l1) / r /\
  (a * (r - l1) + r * l1) / r <= (a * (r - l2) + r * l2) / r /\
  (a * (r - l2) + r * l2) / r <= r.
Proof.
  intros R L0 L12 L2 A0 A1.
  assert (Ir : 0 <= / r) by (apply Qlt_le_weak, Qinv_lt_0_compat, R).
  split; [|split].
  - apply Qle_shift_div_l; [exact R | nra].
  - unfold Qdiv; apply Qmult_le_compat_r; [nra | exact Ir].
  - apply Qle_shift_div_r; [exact R | nra].
Qed.

(** X20.  The overlay darkens, and the more so the higher the level: for
    a pixel whose channels are quanta and two levels [l1 <= l2] within
    [0, QuantumRange], each colour channel after the overlay at [l2] is at
    most what it is at [l1], which is at most what it was, and alpha moves
    the other way, toward opaque; all stay quanta. *)
Theorem overlay_darkens_monotonically (p : pixel) (l1 l2 : Z) :
  pixel_in_range env p -> (0 <= l1)%Z -> (l1 <= l2)%Z -> (l2 <= QR)%Z ->
  darker p (overlaid env l1 p) /\
  darker (overlaid env l1 p) (overlaid env l2 p) /\
  pixel_in_range env (overlaid env l2 p).
Proof.
  unfold pixel_in_range, darker, overlaid, colorize_pixel, colorize_channel,
    overlay_color, overlay_blend; cbv zeta; cbn [red green blue alpha].
  fold QR; change (inject_Z 0) with 0.
  intros ((R0 & R1) & (G0 & G1) & (B0 & B1) & (A0 & A1)) H0 H12 H2.
  assert (P : 0 < inject_Z QR) by apply inject_Z_pos, QR_pos.
  rewrite Zle_Qle in H0, H12, H2. change (inject_Z 0) with 0 in H0.
  set (r := inject_Z QR) in *; set (L1 := inject_Z l1) in *;
    set (L2 := inject_Z l2) in *; clearbody r L1 L2.
  destruct (colour_order (red p) L1 L2 r P H0 H12 H2 R0) as (Ra & Rb & Rc).
  destruct (colour_order (green p) L1 L2 r P H0 H12 H2 G0) as (Ga & Gb & Gc).
  destruct (colour_order (blue p) L1 L2 r P H0 H12 H2 B0) as (Ba & Bb & Bc).
  destruct (alpha_order (alpha p) L1 L2 r P H0 H12 H2 A0 A1) as (Aa & Ab & Ac).
  split; [auto|]. split; [auto|].
  repeat split; try assumption.
  - eapply Qle_trans; [exact Rb|]. eapply Qle_trans; [exact Rc | exact R1].
  - eapply Qle_trans; [exact Gb|]. eapply Qle_trans; [exact Gc | exact G1].
  - eapply Qle_trans; [exact Bb|]. eapply Qle_trans; [exact Bc | exact B1].
  - eapply Qle_trans; [exact A0|]. eapply Qle_trans; [exact Aa | exact Ab].
Qed.

End OverlayOrder.

Local Close Scope Q_scope.

Lemma opacity_level_monotone_witness :
  (opacity_level sample_collaborators (XFin 25)
   <= opacity_level sample_collaborators (XFin 75))%Z.
Proof.
  apply (opacity_level_monotone sample_collaborators ltac:(reflexivity)
           ltac:(discriminate) 25%Q 75%Q);
    [reflexivity | discriminate | discriminate].
Defined.

Lemma overlay_darkens_monotonically_witness :
  let p := mk_pixel (inject_Z 1000) (inject_Z 2000) (inject_Z 3000)
             (inject_Z 40000) in
  darker p (overlaid sample_collaborators 100 p) /\
  darker (overlaid sample_collaborators 100 p)
         (overlaid sample_collaborators 30000 p) /\
  pixel_in_range sample_collaborators (overlaid sample_collaborators 30000 p).
Proof.
  apply (overlay_darkens_monotonically sample_collaborators
           ltac:(reflexivity)
           (mk_pixel (inject_Z 1000) (inject_Z 2000) (inject_Z 3000)
              (inject_Z 40000)) 100 30000);
    [ unfold pixel_in_range; cbn; repeat split; discriminate
    | discriminate | discriminate | discriminate ].
Defined.
